(** * The reliable, ordered channel of [broker/detail/channel.hh]

  A shallow embedding of [broker::detail::channel<Handle, Payload>]: the
  [producer] and the [consumer] state machines with the messages they
  exchange, followed by the properties of the channel.

  Conventions of the embedding.
  - [sequence_number_type] is [uint64_t], [tick_interval_type] is
    [uint16_t]; the consumer keeps three [uint8_t] counters.  All of them
    are integers in [Z] and every increment or addition of the source is
    written with its wrap-around ([u64], [u16], [u8]).
  - [std::deque] and [std::vector] are lists, front first.
  - The backend is reached through a pointer and its member functions
    return nothing, except [consume_nil].  A call to the backend is
    recorded, in order, in the field [backend_] of the state; the answer
    of [consume_nil] is read from a function of the consumer, which is a
    parameter of the development. *)

From Stdlib Require Import ZArith List Bool Lia Sorted.
From Stdlib Require String.
Import ListNotations.
Local Open Scope Z_scope.

Set Implicit Arguments.

(** ** Fixed-width unsigned integers *)

Definition wrap (bits x : Z) : Z := x mod 2 ^ bits.
Definition u64 (x : Z) : Z := wrap 64 x.
Definition u16 (x : Z) : Z := wrap 16 x.
Definition u8 (x : Z) : Z := wrap 8 x.

(** The largest [sequence_number_type]. *)
Definition seq_max : Z := 2 ^ 64 - 1.

Arguments wrap bits x : simpl never.
Arguments u64 x : simpl never.
Arguments u16 x : simpl never.
Arguments u8 x : simpl never.
Arguments seq_max : simpl never.

(** ** Logical clocks *)

Module Lamport.

(** Modelled from the spec: [broker/alm/lamport_timestamp.hh] is not part of
    the sources at hand.  A tick is "an unsigned monotonic counter local to
    each participant, incremented once per [tick] invocation"; the comment
    of [consumer::num_ticks] adds that Lamport timestamps start at 1.  The
    counter is 64 bits wide and adding an interval to a timestamp adds to
    its value. *)
Definition lamport_timestamp : Type := Z.

Definition initial : lamport_timestamp := 1.

(** [++t] *)
Definition incr (t : lamport_timestamp) : lamport_timestamp := u64 (t + 1).

(** [t + interval] *)
Definition plus (t : lamport_timestamp) (interval : Z) : lamport_timestamp :=
  u64 (t + interval).

End Lamport.

(** ** Integer ranges, as the loops of the source enumerate them *)

(** [count_up i found] is what [for (; i < found; ++i) seqs.emplace_back(i)]
  appends: [i, i+1, ..., found-1], nothing when [found <= i]. *)
Definition count_up (i found : Z) : list Z :=
map (fun k => i + Z.of_nat k) (seq 0 (Z.to_nat (found - i))).

(** ** Messages *)

Section Messages.

Variable Payload : Type.

(** Transmits ordered data to a consumer. *)
Record event := mk_event { ev_seq : Z; ev_content : Payload }.

(** [producer_message]: the variant of the four messages a producer sends. *)
Inductive producer_message :=
| handshake (first_seq : Z) (heartbeat_interval : Z)
| event_msg (e : event)
| retransmit_failed (seq : Z)
| heartbeat (seq : Z).

(** [consumer_message]: the variant of the two messages a consumer sends. *)
Inductive consumer_message :=
| cumulative_ack (seq : Z)
| nack (seqs : list Z).

End Messages.

Arguments ev_seq {Payload}.
Arguments ev_content {Payload}.
Arguments handshake {Payload}.
Arguments retransmit_failed {Payload}.
Arguments heartbeat {Payload}.

(** * The producer *)

Module Producer.

Section WithTypes.

Variables Handle Payload : Type.
Variable Handle_eq_dec : forall a b : Handle, {a = b} + {a <> b}.

(** Bookkeeping state for a consumer. *)
Record path := mk_path {
  hdl : Handle;
  offset : Z;
  acked : Z;
  first_acked : Lamport.lamport_timestamp;
  last_acked : Lamport.lamport_timestamp
}.

(** The calls a producer makes on its backend. *)
Inductive call :=
| send (h : Handle) (m : producer_message Payload)
| broadcast (m : producer_message Payload).

Record producer := mk_producer {
  seq_ : Z;
  tick_ : Lamport.lamport_timestamp;
  last_broadcast_ : Lamport.lamport_timestamp;
  buf_ : list (event Payload);
  paths_ : list path;
  heartbeat_interval_ : Z;
  backend_ : list call
}.

(** The state after construction. *)
Definition initial : producer :=
  {| seq_ := 0; tick_ := Lamport.initial;
     last_broadcast_ := Lamport.initial;
     buf_ := []; paths_ := []; heartbeat_interval_ := 5; backend_ := [] |}.

Definition call_backend (k : call) (p : producer) : producer :=
  {| seq_ := seq_ p; tick_ := tick_ p; last_broadcast_ := last_broadcast_ p;
     buf_ := buf_ p; paths_ := paths_ p;
     heartbeat_interval_ := heartbeat_interval_ p;
     backend_ := backend_ p ++ [k] |}.

Definition set_paths (ps : list path) (p : producer) : producer :=
  {| seq_ := seq_ p; tick_ := tick_ p; last_broadcast_ := last_broadcast_ p;
     buf_ := buf_ p; paths_ := ps;
     heartbeat_interval_ := heartbeat_interval_ p;
     backend_ := backend_ p |}.

Definition set_buf (b : list (event Payload)) (p : producer) : producer :=
  {| seq_ := seq_ p; tick_ := tick_ p; last_broadcast_ := last_broadcast_ p;
     buf_ := b; paths_ := paths_ p;
     heartbeat_interval_ := heartbeat_interval_ p;
     backend_ := backend_ p |}.

(** [heartbeat_interval(value)], the setter. *)
Definition set_heartbeat_interval (value : Z) (p : producer) : producer :=
  {| seq_ := seq_ p; tick_ := tick_ p; last_broadcast_ := last_broadcast_ p;
     buf_ := buf_ p; paths_ := paths_ p;
     heartbeat_interval_ := u16 value;
     backend_ := backend_ p |}.

(** *** Path and event lookup *)

Definition find_path (h : Handle) (p : producer) : option path :=
  find (fun x => if Handle_eq_dec (hdl x) h then true else false) (paths_ p).

Definition find_event (s : Z) (p : producer) : option (event Payload) :=
  find (fun x => ev_seq x =? s) (buf_ p).

(** *** Message processing *)

Definition produce (content : Payload) (p : producer) : producer :=
  match paths_ p with
  | [] => p
  | _ :: _ =>
    let s := u64 (seq_ p + 1) in
    let e := mk_event s content in
    {| seq_ := s; tick_ := tick_ p; last_broadcast_ := tick_ p;
       buf_ := buf_ p ++ [e]; paths_ := paths_ p;
       heartbeat_interval_ := heartbeat_interval_ p;
       backend_ := backend_ p ++ [broadcast (event_msg e)] |}
  end.

(** The error codes [add] can return. *)
Inductive ec := consumer_exists.

(** [add] returns [nil] ([None]) or an error code. *)
Definition add (h : Handle) (p : producer) : producer * option ec :=
  match find_path h p with
  | Some _ => (p, Some consumer_exists)
  | None =>
    (call_backend
       (send h (handshake (seq_ p) (heartbeat_interval_ p)))
       (set_paths
          (paths_ p
           ++ [mk_path h (seq_ p) (seq_ p) Lamport.initial Lamport.initial])
          p),
     None)
  end.

(** The loop of [handle_ack] over [paths_].  It returns the paths as the
    loop leaves them and, when the loop runs to its end, the minimum it
    computed; [None] stands for the two [return]s inside the loop. *)
Fixpoint ack_loop (h : Handle) (s : Z) (now : Lamport.lamport_timestamp)
         (ps : list path) (min_acked : Z) : list path * option Z :=
  match ps with
  | [] => ([], Some min_acked)
  | x :: rest =>
    if Handle_eq_dec (hdl x) h then
      if acked x >? s then (x :: rest, None)
      else if acked x =? s then
        (mk_path (hdl x) (offset x) (acked x) (first_acked x) now :: rest,
         None)
      else
        let (rest', r) := ack_loop h s now rest min_acked in
        (mk_path (hdl x) (offset x) s now now :: rest', r)
    else
      let (rest', r) := ack_loop h s now rest (Z.min (acked x) min_acked) in
      (x :: rest', r)
  end.

(** [buf_.erase(buf_.begin(), find_if(..., not_acked))] *)
Fixpoint erase_acked (a : Z) (b : list (event Payload))
  : list (event Payload) :=
  match b with
  | [] => []
  | e :: rest => if ev_seq e >? a then e :: rest else erase_acked a rest
  end.

Definition handle_ack (h : Handle) (s : Z) (p : producer) : producer :=
  match ack_loop h s (tick_ p) (paths_ p) s with
  | (ps, None) => set_paths ps p
  | (ps, Some a) => set_buf (erase_acked a (buf_ p)) (set_paths ps p)
  end.

(** The body of the retransmission loop of [handle_nack]. *)
Definition retransmit (h : Handle) (p : producer) (s : Z) : producer :=
  match find_event s p with
  | Some e => call_backend (send h (event_msg e)) p
  | None => call_backend (send h (retransmit_failed s)) p
  end.

Definition handle_nack (h : Handle) (seqs : list Z) (p : producer)
  : producer :=
  match seqs with
  | [] => p
  | first :: _ =>
    match find_path h p with
    | None => p
    | Some x =>
      if first =? 0 then
        call_backend
          (send h (handshake (offset x) (heartbeat_interval_ p))) p
      else
        fold_left (retransmit h) seqs (handle_ack h (u64 (first - 1)) p)
    end
  end.

(** *** Time-based processing *)

Definition tick (p : producer) : producer :=
  let now := Lamport.incr (tick_ p) in
  if (heartbeat_interval_ p >? 0)
     && (Lamport.plus (last_broadcast_ p) (heartbeat_interval_ p) =? now)
  then
    {| seq_ := seq_ p; tick_ := now; last_broadcast_ := now;
       buf_ := buf_ p; paths_ := paths_ p;
       heartbeat_interval_ := heartbeat_interval_ p;
       backend_ := backend_ p ++ [broadcast (heartbeat (seq_ p))] |}
  else
    {| seq_ := seq_ p; tick_ := now; last_broadcast_ := last_broadcast_ p;
       buf_ := buf_ p; paths_ := paths_ p;
       heartbeat_interval_ := heartbeat_interval_ p;
       backend_ := backend_ p |}.

(** *** Properties *)

Definition idle (p : producer) : bool :=
  forallb (fun x => acked x =? seq_ p) (paths_ p).

(** *** Runs of a producer *)

Inductive op :=
| op_produce (content : Payload)
| op_add (h : Handle)
| op_handle_ack (h : Handle) (s : Z)
| op_handle_nack (h : Handle) (seqs : list Z)
| op_tick.

Definition step (p : producer) (o : op) : producer :=
  match o with
  | op_produce content => produce content p
  | op_add h => fst (add h p)
  | op_handle_ack h s => handle_ack h s p
  | op_handle_nack h seqs => handle_nack h seqs p
  | op_tick => tick p
  end.

Definition run (ops : list op) (p : producer) : producer :=
  fold_left step ops p.

(** [n] consecutive calls of [tick]. *)
Definition ticks (n : nat) (p : producer) : producer :=
  Nat.iter n tick p.

(** *** Notions the properties are stated with *)

(** The ticks since the last broadcast, as the 64-bit difference of the two
    timestamps. *)
Definition since_broadcast (p : producer) : Z :=
  u64 (tick_ p - last_broadcast_ p).

(** The number of heartbeats among the calls on the backend. *)
Definition heartbeats (ks : list call) : nat :=
  length
    (filter (fun k => match k with broadcast (heartbeat _) => true
                              | _ => false end) ks).

(** How [handle_ack(h, s)] may change a path. *)
Definition ack_rel (h : Handle) (s : Z) (x x' : path) : Prop :=
  hdl x' = hdl x /\ offset x' = offset x
  /\ (acked x' = acked x \/ (acked x < s /\ acked x' = s /\ hdl x = h)).

(** An event of [buf_] is still unacknowledged on some path. *)
Definition unacked_only (p : producer) : Prop :=
  Forall (fun e => Exists (fun x => acked x < ev_seq e) (paths_ p)) (buf_ p).

(** The representation invariant of a producer: one path per handle, the
    buffered events in strictly increasing order of their sequence numbers,
    none above [seq_], none acknowledged on every path. *)
Definition well_formed (p : producer) : Prop :=
  NoDup (map hdl (paths_ p))
  /\ StronglySorted Z.lt (map ev_seq (buf_ p))
  /\ Forall (fun e => ev_seq e <= seq_ p) (buf_ p)
  /\ unacked_only p.

(** [handle_ack(h, seq_)] for the handles of [hs], one after the other. *)
Definition ack_all (hs : list Handle) (p : producer) : producer :=
  fold_left (fun q h => handle_ack h (seq_ q) q) hs p.

(** The sequence numbers an invocation passes stay in range: [produce] does
    not wrap [seq_] around, and no consumer acknowledges, by an ACK or by the
    first entry of a NACK, an event that was not produced yet. *)
Definition in_range (p : producer) (o : op) : bool :=
  match o with
  | op_produce _ => seq_ p <? seq_max
  | op_handle_ack _ s => s <=? seq_ p
  | op_handle_nack _ (first :: _) =>
    (first =? 0) || (u64 (first - 1) <=? seq_ p)
  | _ => true
  end.

Fixpoint run_in_range (ops : list op) (p : producer) : bool :=
  match ops with
  | [] => true
  | o :: rest => in_range p o && run_in_range rest (step p o)
  end.

(** What [ack_all] keeps true while it works through its handles. *)
Definition draining (p : producer) : Prop :=
  NoDup (map hdl (paths_ p))
  /\ Forall (fun e => ev_seq e <= seq_ p) (buf_ p)
  /\ (buf_ p <> [] -> Exists (fun x => acked x < seq_ p) (paths_ p)).

(** What a run keeps true when its sequence numbers stay in range. *)
Definition in_range_invariant (p : producer) : Prop :=
  0 <= seq_ p
  /\ Forall (fun x => acked x <= seq_ p) (paths_ p)
  /\ well_formed p.

(** A path after further invocations: the same handle and offset, [acked]
    not lower. *)
Definition path_grows (x x' : path) : Prop :=
  hdl x' = hdl x /\ offset x' = offset x /\ acked x <= acked x'.

(** The paths after further invocations: the old ones, grown, followed by
    the ones added since. *)
Definition paths_extend (ps ps' : list path) : Prop :=
  exists kept added, ps' = kept ++ added /\ Forall2 path_grows ps kept.

(** What [handle_nack] answers to [h] for one requested sequence number, as
    the buffer of [p] decides. *)
Definition nack_reply (h : Handle) (p : producer) (s : Z) : call :=
  send h (match find_event s p with
          | Some e => event_msg e
          | None => retransmit_failed s
          end).

End WithTypes.

Arguments hdl {Handle}.
Arguments offset {Handle}.
Arguments acked {Handle}.
Arguments send {Handle Payload}.
Arguments broadcast {Handle Payload}.
Arguments op_produce {Handle Payload}.
Arguments op_add {Handle Payload}.
Arguments op_handle_ack {Handle Payload}.
Arguments op_handle_nack {Handle Payload}.
Arguments op_tick {Handle Payload}.
Arguments path_grows {Handle}.
Arguments paths_extend {Handle}.

End Producer.

(** * The consumer *)

Module Consumer.

Section WithTypes.

Variables Payload Error : Type.

Record optional_event := mk_optional_event {
  oe_seq : Z;
  content : option Payload
}.

(** The calls a consumer makes on its backend.  [consume] and [consume_nil]
    carry the value of [next_seq_] at the time of the call, which the
    properties of the delivery order refer to; [consume_nil] also carries
    the answer of the backend, [None] for a default [error]. *)
Inductive call :=
| consume (at_seq : Z) (payload : Payload)
| consume_nil (at_seq : Z) (answer : option Error)
| send (m : consumer_message)
| close (err : Error).

Record consumer := mk_consumer {
  next_seq_ : Z;
  last_seq_ : Z;
  buf_ : list optional_event;
  tick_ : Lamport.lamport_timestamp;
  last_tick_seq_ : Z;
  idle_ticks_ : Z;
  heartbeat_interval_ : Z;
  nack_timeout_ : Z;
  backend_ : list call
}.

(** What [Backend::consume_nil] answers, given the consumer it is called on
    (the calls made so far are part of it). *)
Variable consume_nil_answer : consumer -> option Error.

(** The state after construction. *)
Definition initial : consumer :=
  {| next_seq_ := 0; last_seq_ := 0; buf_ := []; tick_ := Lamport.initial;
     last_tick_seq_ := 0; idle_ticks_ := 0; heartbeat_interval_ := 0;
     nack_timeout_ := 5; backend_ := [] |}.

Definition call_backend (k : call) (c : consumer) : consumer :=
  {| next_seq_ := next_seq_ c; last_seq_ := last_seq_ c; buf_ := buf_ c;
     tick_ := tick_ c; last_tick_seq_ := last_tick_seq_ c;
     idle_ticks_ := idle_ticks_ c;
     heartbeat_interval_ := heartbeat_interval_ c;
     nack_timeout_ := nack_timeout_ c;
     backend_ := backend_ c ++ [k] |}.

Definition set_buf (b : list optional_event) (c : consumer) : consumer :=
  {| next_seq_ := next_seq_ c; last_seq_ := last_seq_ c; buf_ := b;
     tick_ := tick_ c; last_tick_seq_ := last_tick_seq_ c;
     idle_ticks_ := idle_ticks_ c;
     heartbeat_interval_ := heartbeat_interval_ c;
     nack_timeout_ := nack_timeout_ c;
     backend_ := backend_ c |}.

Definition set_last_seq (s : Z) (c : consumer) : consumer :=
  {| next_seq_ := next_seq_ c; last_seq_ := s; buf_ := buf_ c;
     tick_ := tick_ c; last_tick_seq_ := last_tick_seq_ c;
     idle_ticks_ := idle_ticks_ c;
     heartbeat_interval_ := heartbeat_interval_ c;
     nack_timeout_ := nack_timeout_ c;
     backend_ := backend_ c |}.

Definition set_idle_ticks (n : Z) (c : consumer) : consumer :=
  {| next_seq_ := next_seq_ c; last_seq_ := last_seq_ c; buf_ := buf_ c;
     tick_ := tick_ c; last_tick_seq_ := last_tick_seq_ c;
     idle_ticks_ := n;
     heartbeat_interval_ := heartbeat_interval_ c;
     nack_timeout_ := nack_timeout_ c;
     backend_ := backend_ c |}.

(** [nack_timeout(value)], the setter; the argument is a [uint8_t]. *)
Definition set_nack_timeout (value : Z) (c : consumer) : consumer :=
  {| next_seq_ := next_seq_ c; last_seq_ := last_seq_ c; buf_ := buf_ c;
     tick_ := tick_ c; last_tick_seq_ := last_tick_seq_ c;
     idle_ticks_ := idle_ticks_ c;
     heartbeat_interval_ := heartbeat_interval_ c;
     nack_timeout_ := u8 value;
     backend_ := backend_ c |}.

(** *** Helper functions *)

(** Bumps the sequence number for the next expected event. *)
Definition bump_seq (c : consumer) : consumer :=
  let n := u64 (next_seq_ c + 1) in
  {| next_seq_ := n;
     last_seq_ := if n >? last_seq_ c then n else last_seq_ c;
     buf_ := buf_ c;
     tick_ := tick_ c; last_tick_seq_ := last_tick_seq_ c;
     idle_ticks_ := idle_ticks_ c;
     heartbeat_interval_ := heartbeat_interval_ c;
     nack_timeout_ := nack_timeout_ c;
     backend_ := backend_ c |}.

(** The loop of [try_consume_buffer]: [rest] is the part of [buf_] from the
    iterator [i] on.  The source erases the consumed prefix only when it
    leaves the loop, so [buf_] stays as it is while the backend is called. *)
Fixpoint consume_loop (c : consumer) (rest : list optional_event)
  : consumer :=
  match rest with
  | [] => set_buf [] c
  | x :: rest' =>
    if oe_seq x =? next_seq_ c then
      match content x with
      | Some payload =>
        consume_loop
          (bump_seq (call_backend (consume (next_seq_ c) payload) c)) rest'
      | None =>
        match consume_nil_answer c with
        | Some err =>
          call_backend (close err)
            (set_buf rest
               (call_backend (consume_nil (next_seq_ c) (Some err)) c))
        | None =>
          consume_loop
            (bump_seq (call_backend (consume_nil (next_seq_ c) None) c))
            rest'
        end
      end
    else set_buf rest c
  end.

(** Consumes all events from [buf_] until either hitting the end or hitting
    a gap. *)
Definition try_consume_buffer (c : consumer) : consumer :=
  consume_loop c (buf_ c).

Definition send_ack (c : consumer) : consumer :=
  call_backend
    (send (cumulative_ack (if next_seq_ c >? 0 then next_seq_ c - 1 else 0)))
    c.

(** *** Message processing *)

Definition handle_handshake (offset heartbeat_interval : Z) (c : consumer)
  : consumer :=
  if offset >=? next_seq_ c then
    try_consume_buffer
      {| next_seq_ := u64 (offset + 1); last_seq_ := u64 (offset + 1);
         buf_ := buf_ c;
         tick_ := tick_ c; last_tick_seq_ := last_tick_seq_ c;
         idle_ticks_ := idle_ticks_ c;
         heartbeat_interval_ := u8 heartbeat_interval;
         nack_timeout_ := nack_timeout_ c;
         backend_ := backend_ c |}
  else c.

Definition handle_heartbeat (seq : Z) (c : consumer) : consumer :=
  if (last_seq_ c =? 0) || (seq =? 0) then c
  else if u64 (seq + 1) >? last_seq_ c then set_last_seq (u64 (seq + 1)) c
  else c.

(** Insertion of an event into [buf_]: sorted by the sequence number,
    duplicates dropped; a slot without content is filled. *)
Fixpoint insert_event (seq : Z) (payload : Payload)
         (b : list optional_event) : list optional_event :=
  match b with
  | [] => [mk_optional_event seq (Some payload)]
  | x :: rest =>
    if oe_seq x >=? seq then
      if negb (oe_seq x =? seq) then
        mk_optional_event seq (Some payload) :: x :: rest
      else
        match content x with
        | None => mk_optional_event (oe_seq x) (Some payload) :: rest
        | Some _ => x :: rest
        end
    else x :: insert_event seq payload rest
  end.

Definition handle_event (seq : Z) (payload : Payload) (c : consumer)
  : consumer :=
  if next_seq_ c =? seq then
    try_consume_buffer
      (bump_seq (call_backend (consume (next_seq_ c) payload) c))
  else if seq >? next_seq_ c then
    let c' := if seq >? last_seq_ c then set_last_seq seq c else c in
    set_buf (insert_event seq payload (buf_ c')) c'
  else c.

(** Insertion of a slot without content, for an event known to be lost. *)
Fixpoint insert_nil (seq : Z) (b : list optional_event)
  : list optional_event :=
  match b with
  | [] => [mk_optional_event seq None]
  | x :: rest =>
    if oe_seq x >=? seq then
      if negb (oe_seq x =? seq) then mk_optional_event seq None :: x :: rest
      else x :: rest
    else x :: insert_nil seq rest
  end.

Definition handle_retransmit_failed (seq : Z) (c : consumer) : consumer :=
  if next_seq_ c =? seq then
    match consume_nil_answer c with
    | Some err =>
      call_backend (close err)
        (call_backend (consume_nil (next_seq_ c) (Some err)) c)
    | None =>
      try_consume_buffer
        (bump_seq (call_backend (consume_nil (next_seq_ c) None) c))
    end
  else if seq >? next_seq_ c then set_buf (insert_nil seq (buf_ c)) c
  else c.

(** *** Time-based processing *)

(** Lamport timestamps start at 1. *)
Definition num_ticks (c : consumer) : Z := u64 (tick_ c - 1).

(** The lambda [generate] of [tick]: its captured counter [i] and the vector
    [seqs] are the state, [found] is its argument. *)
Definition generate (st : Z * list Z) (found : Z) : Z * list Z :=
  let (i, seqs) := st in
  (u64 (Z.max i found + 1), seqs ++ count_up i found).

(** The sequence numbers [tick] puts into a NACK. *)
Definition nack_seqs (c : consumer) : list Z :=
  snd (generate
         (fold_left generate (map oe_seq (buf_ c)) (next_seq_ c, []))
         (last_seq_ c)).

Definition ack_due (c : consumer) : bool :=
  (heartbeat_interval_ c >? 0)
  && (num_ticks c mod heartbeat_interval_ c =? 0).

Definition tick (c : consumer) : consumer :=
  let progressed := next_seq_ c >? last_tick_seq_ c in
  let c1 :=
    {| next_seq_ := next_seq_ c; last_seq_ := last_seq_ c; buf_ := buf_ c;
       tick_ := Lamport.incr (tick_ c); last_tick_seq_ := next_seq_ c;
       idle_ticks_ := idle_ticks_ c;
       heartbeat_interval_ := heartbeat_interval_ c;
       nack_timeout_ := nack_timeout_ c;
       backend_ := backend_ c |} in
  if progressed then
    let c2 := if idle_ticks_ c1 >? 0 then set_idle_ticks 0 c1 else c1 in
    if ack_due c2 then send_ack c2 else c2
  else
    let c2 := set_idle_ticks (u8 (idle_ticks_ c1 + 1)) c1 in
    if (next_seq_ c2 <? last_seq_ c2)
       && (idle_ticks_ c2 >=? nack_timeout_ c2)
    then
      let c3 := set_idle_ticks 0 c2 in
      call_backend (send (nack (nack_seqs c3))) c3
    else if ack_due c2 then send_ack c2 else c2.

(** The sequence numbers of a buffer after the insertion of a slot for
    [seq], by [handle_event] or by [handle_retransmit_failed]. *)
Fixpoint insert_seq (seq : Z) (l : list Z) : list Z :=
  match l with
  | [] => [seq]
  | y :: rest =>
    if y >=? seq then
      if y =? seq then y :: rest else seq :: y :: rest
    else y :: insert_seq seq rest
  end.

(** *** Runs of a consumer *)

Inductive op :=
| op_handle_handshake (offset heartbeat_interval : Z)
| op_handle_heartbeat (seq : Z)
| op_handle_event (seq : Z) (payload : Payload)
| op_handle_retransmit_failed (seq : Z)
| op_tick.

Definition step (c : consumer) (o : op) : consumer :=
  match o with
  | op_handle_handshake offset hb => handle_handshake offset hb c
  | op_handle_heartbeat seq => handle_heartbeat seq c
  | op_handle_event seq payload => handle_event seq payload c
  | op_handle_retransmit_failed seq => handle_retransmit_failed seq c
  | op_tick => tick c
  end.

Definition run (ops : list op) (c : consumer) : consumer :=
  fold_left step ops c.

(** [close] has been called on the backend: no further call on the consumer
    is allowed. *)
Definition closed (c : consumer) : bool :=
  existsb (fun k => match k with close _ => true | _ => false end)
          (backend_ c).

(** *** Notions the properties are stated with *)

(** A handshake that the consumer accepts does not skip a buffered slot:
    every slot is at or above the new [next_seq_]. *)
Definition handshake_in_order (c : consumer) (o : op) : bool :=
  match o with
  | op_handle_handshake offset _ =>
    (offset <? next_seq_ c)
    || forallb (fun x => u64 (offset + 1) <=? oe_seq x) (buf_ c)
  | _ => true
  end.

(** A run that makes no call on a closed consumer and whose handshakes are
    in order. *)
Fixpoint run_allowed (ops : list op) (c : consumer) : bool :=
  match ops with
  | [] => true
  | o :: rest =>
    negb (closed c) && handshake_in_order c o && run_allowed rest (step c o)
  end.

(** The buffer invariant: the slots are in strictly increasing order of
    their sequence numbers, none below [next_seq_]. *)
Definition buffer_ordered (c : consumer) : Prop :=
  StronglySorted Z.lt (map oe_seq (buf_ c))
  /\ Forall (fun x => next_seq_ c <= oe_seq x) (buf_ c).


(** [tick] sends a NACK: no progress since the last tick, events known to be
    outstanding, and the idle counter reaching the timeout. *)
Definition nack_due (c : consumer) : bool :=
  negb (next_seq_ c >? last_tick_seq_ c)
  && (next_seq_ c <? last_seq_ c)
  && (u8 (idle_ticks_ c + 1) >=? nack_timeout_ c).




(** What an allowed run keeps true: the buffer is ordered, and as long as
    the consumer is not closed every slot is above [next_seq_]. *)
Definition slots_ahead (c : consumer) : Prop :=
  0 <= next_seq_ c
  /\ buffer_ordered c
  /\ (closed c = false -> Forall (fun x => next_seq_ c < oe_seq x) (buf_ c)).

(** [n] consecutive calls of [tick]. *)
Definition ticks (n : nat) (c : consumer) : consumer :=
  Nat.iter n tick c.

(** The sequence number a cumulative ACK of the consumer carries. *)
Definition ack_seq (c : consumer) : Z :=
  if next_seq_ c >? 0 then next_seq_ c - 1 else 0.

(** The offset of a handshake stays below the largest 64-bit number. *)
Definition below_maximum (o : op) : Prop :=
  match o with
  | op_handle_handshake offset _ => offset < seq_max
  | _ => True
  end.

End WithTypes.

Arguments oe_seq {Payload}.
Arguments content {Payload}.
Arguments consume {Payload Error}.
Arguments consume_nil {Payload Error}.
Arguments send {Payload Error}.
Arguments close {Payload Error}.
Arguments op_handle_handshake {Payload}.
Arguments op_handle_heartbeat {Payload}.
Arguments op_handle_event {Payload}.
Arguments op_handle_retransmit_failed {Payload}.
Arguments op_tick {Payload}.

End Consumer.

(** * A producer and one of its consumers *)

Module System.

Section WithTypes.

Variables Handle Payload Error : Type.
Variable Handle_eq_dec : forall a b : Handle, {a = b} + {a <> b}.
Variable consume_nil_answer : Consumer.consumer Payload Error -> option Error.

Definition system : Type :=
  (Producer.producer Handle Payload * Consumer.consumer Payload Error)%type.

(** The invocations of a trace: [produce] and [tick] on the producer,
    [handle_event], [handle_retransmit_failed] and [tick] on the consumer. *)
Inductive action :=
| produce (content : Payload)
| handle_event (seq : Z) (payload : Payload)
| handle_retransmit_failed (seq : Z)
| producer_tick
| consumer_tick.

Definition step (st : system) (a : action) : system :=
  let (p, c) := st in
  match a with
  | produce content => (Producer.produce content p, c)
  | handle_event seq payload =>
    (p, Consumer.handle_event consume_nil_answer seq payload c)
  | handle_retransmit_failed seq =>
    (p, Consumer.handle_retransmit_failed consume_nil_answer seq c)
  | producer_tick => (Producer.tick p, c)
  | consumer_tick => (p, Consumer.tick c)
  end.

Definition run (tr : list action) (st : system) : system :=
  fold_left step tr st.

(** The events a producer has handed to its backend, by broadcast or by
    unicast, oldest first. *)
Definition sent_events (p : Producer.producer Handle Payload)
  : list (event Payload) :=
  flat_map
    (fun k =>
       match k with
       | Producer.broadcast (event_msg e) => [e]
       | Producer.send _ (event_msg e) => [e]
       | _ => []
       end)
    (Producer.backend_ p).

(** The communication layer loses, repeats and reorders messages but makes
    none up: an event handed to the consumer is one the producer has sent. *)
Fixpoint admissible (tr : list action) (st : system) : Prop :=
  match tr with
  | [] => True
  | a :: tr' =>
    match a with
    | handle_event seq payload =>
      In (mk_event seq payload) (sent_events (fst st))
    | _ => True
    end
    /\ admissible tr' (step st a)
  end.

(** The sequence numbers of the events sent are at most [seq_], and a
    sequence number stands for one payload. *)
Definition history_ok (p : Producer.producer Handle Payload) : Prop :=
  Forall (fun e => ev_seq e <= Producer.seq_ p) (sent_events p)
  /\ forall e1 e2,
      In e1 (sent_events p) -> In e2 (sent_events p) ->
      ev_seq e1 = ev_seq e2 -> e1 = e2.

(** The payloads a consumer has buffered are events of the producer. *)
Definition buffered_from (p : Producer.producer Handle Payload)
           (c : Consumer.consumer Payload Error) : Prop :=
  forall s q,
    In (Consumer.mk_optional_event s (Some q)) (Consumer.buf_ c) ->
    In (mk_event s q) (sent_events p).

(** What a list of backend calls delivers to the sink: a payload, or a gap
    that [consume_nil] accepted, each with its position. *)
Definition deliveries (ks : list (Consumer.call Payload Error))
  : list (Z * option Payload) :=
  flat_map
    (fun k =>
       match k with
       | Consumer.consume s q => [(s, Some q)]
       | Consumer.consume_nil s None => [(s, None)]
       | _ => []
       end)
    ks.

(** The [k] sequence numbers from [n] on, as 64-bit numbers. *)
Definition positions (n : Z) (k : nat) : list Z :=
  map (fun i => u64 (n + Z.of_nat i)) (seq 0 k).

(** What one invocation on a consumer delivers: the calls it adds, the
    positions of the deliveries among them, where [next_seq_] stands
    afterwards, and where the payloads it delivers or keeps come from. *)
Definition delivers (source : Z -> Payload -> Prop) (c c' : Consumer.consumer Payload Error)
  : Prop :=
  exists new,
    Consumer.backend_ c' = Consumer.backend_ c ++ new
    /\ map fst (deliveries new)
       = positions (Consumer.next_seq_ c) (length (deliveries new))
    /\ Consumer.next_seq_ c'
       = u64 (Consumer.next_seq_ c + Z.of_nat (length (deliveries new)))
    /\ (forall s q, In (s, Some q) (deliveries new) -> source s q)
    /\ (forall s q,
           In (Consumer.mk_optional_event s (Some q)) (Consumer.buf_ c') -> source s q).

(** The number of [produce] invocations of a trace. *)
Definition produce_count (tr : list action) : Z :=
  Z.of_nat
    (length (filter (fun a => match a with produce _ => true | _ => false end)
                    tr)).

End WithTypes.

Arguments produce {Payload}.
Arguments handle_event {Payload}.
Arguments handle_retransmit_failed {Payload}.
Arguments producer_tick {Payload}.
Arguments consumer_tick {Payload}.

End System.

(** * Status codes *)

Module Status.

Import String.

(** Modelled from the source's use of it: [broker/status.hh], which declares
    the enumeration [sc], is not among the sources.  Its enumerators are the
    four that [to_string] and [convert] name; [unlisted] stands for any
    other value of the enumeration, which the [switch] of [to_string] sends
    to its [default]. *)
Inductive sc :=
| unspecified
| peer_added
| peer_removed
| peer_lost
| unlisted.

(** [to_string(sc)].  The [default] branch runs [BROKER_ASSERT] before it
    returns its string. *)
Definition to_string (code : sc) : string :=
  match code with
  | unspecified => "unspecified"
  | peer_added => "peer_added"
  | peer_removed => "peer_removed"
  | peer_lost => "peer_lost"
  | unlisted => "<unknown>"
  end.

(** [convert(str, code)]: the result and the value of the reference [code]
    afterwards. *)
Definition convert (str : string) (code : sc) : bool * sc :=
  if String.eqb str "unspecified" then (true, unspecified)
  else if String.eqb str "peer_added" then (true, peer_added)
  else if String.eqb str "peer_removed" then (true, peer_removed)
  else if String.eqb str "peer_lost" then (true, peer_lost)
  else (false, code).

(** The names [convert] knows. *)
Definition names : list string :=
  ["unspecified"; "peer_added"; "peer_removed"; "peer_lost"]%string.

End Status.

(** * Properties *)

Unset Implicit Arguments.

(** ** Arithmetic of the fixed-width integers *)

Lemma u64_range x : 0 <= u64 x <= seq_max.
Proof.
  unfold u64, wrap, seq_max.
  pose proof (Z.mod_pos_bound x (2 ^ 64) ltac:(lia)). lia.
Qed.

Lemma u64_small x : 0 <= x <= seq_max -> u64 x = x.
Proof. unfold u64, wrap, seq_max. intros H. apply Z.mod_small. lia. Qed.

Lemma u64_succ_le x : 0 <= x -> u64 (x + 1) <= x + 1.
Proof.
  intros H. unfold u64, wrap. apply Z.mod_le; lia.
Qed.

Lemma u64_idem_succ x k : u64 (u64 x + k) = u64 (x + k).
Proof. unfold u64, wrap. apply Zplus_mod_idemp_l. Qed.

Lemma u8_range x : 0 <= u8 x < 256.
Proof. unfold u8, wrap. apply Z.mod_pos_bound. lia. Qed.

(** ** Integer ranges *)





(** ** The producer: re-handshake and heartbeats *)

Section ProducerHeartbeat.

Import Producer.

Variables Handle Payload : Type.
Variable Handle_eq_dec : forall a b : Handle, {a = b} + {a <> b}.

Local Abbreviation producer := (producer Handle Payload).

(** C9 (re-handshake).  For every producer [p] and every handle [h] that has
    a path [x] in [p] (the one [find_path] finds), [handle_nack] with a list
    whose first element is 0 sends to [h] one handshake carrying the offset
    of [x] and the heartbeat interval of [p], and changes nothing else of
    the producer: no path, no buffer, no counter, no other message. *)
Theorem nack_zero_rehandshake (h : Handle) (rest : list Z) (p : producer)
        (x : path Handle) :
  find_path Handle_eq_dec h p = Some x ->
  let p' := handle_nack Handle_eq_dec h (0 :: rest) p in
  backend_ p'
  = backend_ p ++ [send h (handshake (offset x) (heartbeat_interval_ p))]
  /\ hdl x = h
  /\ seq_ p' = seq_ p
  /\ tick_ p' = tick_ p
  /\ last_broadcast_ p' = last_broadcast_ p
  /\ buf_ p' = buf_ p
  /\ paths_ p' = paths_ p
  /\ heartbeat_interval_ p' = heartbeat_interval_ p.
Proof.
  intros Hfind. cbn zeta. unfold handle_nack. rewrite Hfind. cbn.
  repeat split.
  unfold find_path in Hfind. apply find_some in Hfind.
  destruct Hfind as [_ Heq].
  destruct (Handle_eq_dec (hdl x) h); [assumption|discriminate].
Qed.

Lemma since_broadcast_reset (t : Z) : u64 (t - t) = 0.
Proof. replace (t - t) with 0 by lia. reflexivity. Qed.

Lemma tick_fires (p : producer) :
  0 < heartbeat_interval_ p < 2 ^ 16 ->
  since_broadcast p + 1 = heartbeat_interval_ p ->
  backend_ (tick p) = backend_ p ++ [broadcast (heartbeat (seq_ p))]
  /\ since_broadcast (tick p) = 0.
Proof.
  intros Hk Hd. unfold tick, Lamport.plus, Lamport.incr.
  assert (Hfire : u64 (last_broadcast_ p + heartbeat_interval_ p)
                  = u64 (tick_ p + 1)).
  { rewrite <- Hd. unfold since_broadcast.
    replace (last_broadcast_ p + (u64 (tick_ p - last_broadcast_ p) + 1))
      with (u64 (tick_ p - last_broadcast_ p) + (last_broadcast_ p + 1))
      by lia.
    rewrite u64_idem_succ. f_equal. lia. }
  rewrite Hfire, Z.eqb_refl.
  replace (heartbeat_interval_ p >? 0) with true
    by (symmetry; apply Z.gtb_lt; lia).
  cbn. split; [reflexivity|].
  unfold since_broadcast. cbn. apply since_broadcast_reset.
Qed.

Lemma tick_silent (p : producer) :
  0 < heartbeat_interval_ p < 2 ^ 16 ->
  since_broadcast p + 1 < heartbeat_interval_ p ->
  backend_ (tick p) = backend_ p
  /\ since_broadcast (tick p) = since_broadcast p + 1.
Proof.
  intros Hk Hd. unfold tick, Lamport.plus, Lamport.incr.
  pose proof (u64_range (tick_ p - last_broadcast_ p)) as Hr.
  fold (since_broadcast p) in Hr.
  assert (Hnext : u64 (u64 (tick_ p + 1) - last_broadcast_ p)
                  = since_broadcast p + 1).
  { unfold since_broadcast.
    replace (u64 (tick_ p + 1) - last_broadcast_ p)
      with (u64 (tick_ p + 1) + (- last_broadcast_ p)) by lia.
    rewrite u64_idem_succ.
    replace (tick_ p + 1 + - last_broadcast_ p)
      with ((tick_ p - last_broadcast_ p) + 1) by lia.
    rewrite <- u64_idem_succ. apply u64_small.
    unfold since_broadcast, seq_max in *. lia. }
  destruct (u64 (last_broadcast_ p + heartbeat_interval_ p)
            =? u64 (tick_ p + 1)) eqn:E.
  - exfalso. apply Z.eqb_eq in E.
    assert (u64 (u64 (tick_ p + 1) - last_broadcast_ p)
            = heartbeat_interval_ p).
    { rewrite <- E.
      replace (u64 (last_broadcast_ p + heartbeat_interval_ p)
               - last_broadcast_ p)
        with (u64 (last_broadcast_ p + heartbeat_interval_ p)
              + (- last_broadcast_ p)) by lia.
      rewrite u64_idem_succ.
      replace (last_broadcast_ p + heartbeat_interval_ p + - last_broadcast_ p)
        with (heartbeat_interval_ p) by lia.
      apply u64_small. unfold seq_max. lia. }
    lia.
  - rewrite andb_false_r. cbn. split; [reflexivity|].
    unfold since_broadcast at 1. cbn. exact Hnext.
Qed.

Lemma tick_frame (p : producer) :
  seq_ (tick p) = seq_ p
  /\ heartbeat_interval_ (tick p) = heartbeat_interval_ p.
Proof.
  unfold tick.
  destruct ((heartbeat_interval_ p >? 0)
            && (Lamport.plus (last_broadcast_ p) (heartbeat_interval_ p)
                =? Lamport.incr (tick_ p))); cbn; auto.
Qed.

Lemma ticks_frame n (p : producer) :
  seq_ (ticks n p) = seq_ p
  /\ heartbeat_interval_ (ticks n p) = heartbeat_interval_ p.
Proof.
  induction n as [|n IH]; [split; reflexivity|].
  change (ticks (S n) p) with (tick (ticks n p)).
  destruct (tick_frame (ticks n p)) as [H1 H2].
  destruct IH as [IH1 IH2]. split; congruence.
Qed.

(** C6 (heartbeat cadence), as the code has it.  Let [k] be the heartbeat
    interval of the producer, [0 < k], and let [d < k] be the number of ticks
    since its last broadcast.  Then [n] consecutive calls of [tick], with no
    other call in between, broadcast exactly [(d + n) / k] messages, all of
    them heartbeats carrying the producer's [seq_]: one every [k] ticks, the
    first one [k - d] ticks after the start.  After the run the time since
    the last broadcast is [(d + n) mod k]. *)
Theorem heartbeat_cadence (p : producer) (n : nat) :
  let k := heartbeat_interval_ p in
  let d := since_broadcast p in
  0 < k < 2 ^ 16 ->
  d < k ->
  backend_ (ticks n p)
  = backend_ p
    ++ repeat (broadcast (heartbeat (seq_ p)))
              (Z.to_nat ((d + Z.of_nat n) / k))
  /\ since_broadcast (ticks n p) = (d + Z.of_nat n) mod k.
Proof.
  cbn zeta. intros Hk Hd.
  assert (Hd0 : 0 <= since_broadcast p)
    by (unfold since_broadcast; apply u64_range).
  induction n as [|n IH].
  - cbn [ticks Nat.iter]. rewrite Z.add_0_r.
    rewrite Z.div_small, Z.mod_small by lia.
    cbn. rewrite app_nil_r. auto.
  - destruct IH as [IHb IHd].
    destruct (ticks_frame n p) as [Hseq Hhb].
    set (q := ticks n p) in *.
    change (ticks (S n) p) with (tick q).
    set (k := heartbeat_interval_ p) in *.
    set (d := since_broadcast p) in *.
    pose proof (Z.div_mod (d + Z.of_nat n) k ltac:(lia)) as Hdm.
    pose proof (Z.mod_pos_bound (d + Z.of_nat n) k ltac:(lia)) as Hmb.
    pose proof (Z.div_pos (d + Z.of_nat n) k ltac:(lia) ltac:(lia)) as Hq0.
    destruct (Z.eq_dec ((d + Z.of_nat n) mod k + 1) k) as [Hfire|Hno].
    + destruct (tick_fires q) as [Hb Hs]; [lia| rewrite IHd, Hhb; exact Hfire|].
      assert (Hdiv : (d + Z.of_nat (S n)) / k = (d + Z.of_nat n) / k + 1).
      { symmetry. apply (Z.div_unique _ _ _ 0); lia. }
      assert (Hmod : (d + Z.of_nat (S n)) mod k = 0).
      { symmetry. apply (Z.mod_unique _ _ ((d + Z.of_nat n) / k + 1)); lia. }
      rewrite Hb, Hs, Hmod, Hdiv, IHb, Hseq. split; [|reflexivity].
      rewrite <- app_assoc. f_equal.
      rewrite Z2Nat.inj_add by lia.
      rewrite repeat_app. reflexivity.
    + destruct (tick_silent q) as [Hb Hs]; [lia| rewrite IHd, Hhb; lia|].
      assert (Hdiv : (d + Z.of_nat (S n)) / k = (d + Z.of_nat n) / k).
      { symmetry.
        apply (Z.div_unique _ _ _ ((d + Z.of_nat n) mod k + 1)); lia. }
      assert (Hmod : (d + Z.of_nat (S n)) mod k
                     = (d + Z.of_nat n) mod k + 1).
      { symmetry. apply (Z.mod_unique _ _ ((d + Z.of_nat n) / k)); lia. }
      rewrite Hb, Hs, Hmod, Hdiv, IHb, IHd. split; reflexivity.
Qed.

End ProducerHeartbeat.

(** ** The producer: paths and the retransmission buffer *)

Section ProducerPaths.

Import Producer.

Variables Handle Payload : Type.
Variable Handle_eq_dec : forall a b : Handle, {a = b} + {a <> b}.

Local Abbreviation producer := (producer Handle Payload).
Local Abbreviation path := (path Handle).
Local Abbreviation ack_loop := (ack_loop Handle_eq_dec).
Local Abbreviation handle_ack := (@handle_ack Handle Payload Handle_eq_dec).

Lemma ack_rel_refl h s (ps : list path) : Forall2 (ack_rel h s) ps ps.
Proof.
  induction ps; constructor; auto. unfold ack_rel. auto.
Qed.

Lemma ack_loop_rel h s now (ps : list path) m :
  Forall2 (ack_rel h s) ps (fst (ack_loop h s now ps m)).
Proof.
  revert m. induction ps as [|x rest IH]; intros m; cbn; [constructor|].
  destruct (Handle_eq_dec (hdl x) h) as [Hh|Hh].
  - destruct (acked x >? s) eqn:Hgt; cbn.
    + apply ack_rel_refl.
    + destruct (acked x =? s) eqn:Heq; cbn.
      * constructor; [|apply ack_rel_refl]. unfold ack_rel; cbn. auto.
      * specialize (IH m). destruct (ack_loop h s now rest m) as [rest' r].
        cbn in *. constructor; [|exact IH].
        unfold ack_rel; cbn. repeat split; auto. right.
        apply Z.eqb_neq in Heq.
        assert (~ acked x > s) by (intros C; apply Z.gtb_gt in C; congruence).
        repeat split; auto; lia.
  - specialize (IH (Z.min (acked x) m)).
    destruct (ack_loop h s now rest (Z.min (acked x) m)) as [rest' r].
    cbn in *. constructor; [|exact IH]. unfold ack_rel. auto.
Qed.

Lemma ack_rel_handles h s (ps ps' : list path) :
  Forall2 (ack_rel h s) ps ps' -> map hdl ps' = map hdl ps.
Proof.
  induction 1 as [|x x' l l' (Hh & _) _ IH]; cbn; [reflexivity|].
  rewrite Hh, IH. reflexivity.
Qed.

(** When the loop runs to its end, the value it computed is a lower bound of
    [acked] over all paths, it is the start value or the [acked] of a path,
    and the path of [h], if there is one, now carries [s]. *)
Lemma ack_loop_min h s now (ps ps' : list path) m a :
  m <= s ->
  ack_loop h s now ps m = (ps', Some a) ->
  Forall (fun x' => a <= acked x') ps'
  /\ a <= m
  /\ (a = m \/ Exists (fun x' => acked x' = a) ps')
  /\ (ps' = ps \/ Exists (fun x' => acked x' = s) ps').
Proof.
  revert ps' m. induction ps as [|x rest IH]; intros ps' m Hm; cbn.
  - intros [= <- <-]. repeat split; auto. lia.
  - destruct (Handle_eq_dec (hdl x) h) as [Hh|Hh].
    + destruct (acked x >? s); [discriminate|].
      destruct (acked x =? s); [discriminate|].
      destruct (ack_loop h s now rest m) as [rest' r] eqn:E.
      intros [= <- ->].
      destruct (IH _ _ Hm E) as (Hall & Hle & Hatt & _).
      repeat split.
      * constructor; [cbn; lia|exact Hall].
      * exact Hle.
      * destruct Hatt as [->|Hex]; [left; reflexivity|right].
        apply Exists_cons_tl. exact Hex.
      * right. apply Exists_cons_hd. reflexivity.
    + destruct (ack_loop h s now rest (Z.min (acked x) m)) as [rest' r] eqn:E.
      intros [= <- ->].
      assert (Hm' : Z.min (acked x) m <= s) by lia.
      destruct (IH _ _ Hm' E) as (Hall & Hle & Hatt & Hupd).
      repeat split.
      * constructor; [lia|exact Hall].
      * lia.
      * destruct Hatt as [->|Hex].
        -- destruct (Z.le_ge_cases (acked x) m) as [C|C].
           ++ right. apply Exists_cons_hd. lia.
           ++ left. lia.
        -- right. apply Exists_cons_tl. exact Hex.
      * destruct Hupd as [->|Hex]; [left; reflexivity|right].
        apply Exists_cons_tl. exact Hex.
Qed.

(** A handle without a path: the loop runs to its end and changes nothing. *)
Lemma ack_loop_unknown h s now (ps : list path) m :
  ~ In h (map hdl ps) ->
  exists a, ack_loop h s now ps m = (ps, Some a).
Proof.
  revert m. induction ps as [|x rest IH]; intros m Hin; cbn.
  - eexists; reflexivity.
  - destruct (Handle_eq_dec (hdl x) h) as [Hh|Hh].
    + exfalso. apply Hin. left. exact Hh.
    + destruct (IH (Z.min (acked x) m)) as [a Ha].
      { intros C. apply Hin. right. exact C. }
      rewrite Ha. eexists; reflexivity.
Qed.

(** With one path per handle, a [return] inside the loop leaves every
    [acked] as it was. *)
Lemma ack_loop_none h s now (ps ps' : list path) m :
  NoDup (map hdl ps) ->
  ack_loop h s now ps m = (ps', None) ->
  map acked ps' = map acked ps.
Proof.
  revert ps' m. induction ps as [|x rest IH]; intros ps' m Hnd; cbn.
  - discriminate.
  - inversion Hnd as [|? ? Hnotin Hnd']; subst.
    destruct (Handle_eq_dec (hdl x) h) as [Hh|Hh].
    + destruct (acked x >? s); [intros [= <-]; reflexivity|].
      destruct (acked x =? s); [intros [= <-]; reflexivity|].
      destruct (ack_loop_unknown h s now rest m) as [a Ha];
        [rewrite <- Hh; exact Hnotin|].
      rewrite Ha. discriminate.
    + destruct (ack_loop h s now rest (Z.min (acked x) m)) as [rest' r] eqn:E.
      intros [= <- ->]. cbn. f_equal. eapply IH; eauto.
Qed.

(** With one path per handle, the path of [h] has acknowledged [s] or more
    after [handle_ack(h, s)]. *)
Lemma ack_loop_done h s now (ps : list path) m :
  NoDup (map hdl ps) ->
  Forall (fun x' => hdl x' = h -> s <= acked x')
         (fst (ack_loop h s now ps m)).
Proof.
  revert m. induction ps as [|x rest IH]; intros m Hnd; cbn; [constructor|].
  inversion Hnd as [|? ? Hnotin Hnd']; subst.
  assert (Hrest : forall l : list path,
             map hdl l = map hdl rest ->
             hdl x = h -> Forall (fun x' => hdl x' = h -> s <= acked x') l).
  { intros l Hl Hh. apply Forall_forall. intros y Hy Hyh. exfalso.
    apply Hnotin. rewrite <- Hl, Hh, <- Hyh. apply in_map. exact Hy. }
  destruct (Handle_eq_dec (hdl x) h) as [Hh|Hh].
  - destruct (acked x >? s) eqn:Hgt; cbn.
    + constructor; [intros _; apply Z.gtb_gt in Hgt; lia|auto].
    + destruct (acked x =? s) eqn:Heq; cbn.
      * constructor; [cbn; intros _; apply Z.eqb_eq in Heq; lia|auto].
      * pose proof (ack_loop_rel h s now rest m) as Hrel.
        destruct (ack_loop h s now rest m) as [rest' r]. cbn in *.
        constructor; [cbn; lia|].
        apply Hrest; [|exact Hh]. eapply ack_rel_handles; eauto.
  - specialize (IH (Z.min (acked x) m) Hnd').
    destruct (ack_loop h s now rest (Z.min (acked x) m)) as [rest' r].
    cbn in *. constructor; [intros C; contradiction|exact IH].
Qed.

(** *** Erasing the acknowledged head of the buffer *)

Lemma erase_acked_split a (b : list (event Payload)) :
  exists erased,
    b = erased ++ erase_acked a b
    /\ Forall (fun e => ev_seq e <= a) erased
    /\ match erase_acked a b with
       | [] => True
       | e :: _ => a < ev_seq e
       end.
Proof.
  induction b as [|e rest (erased & Heq & Hall & Hhd)]; cbn.
  - exists []. auto.
  - destruct (ev_seq e >? a) eqn:Hgt.
    + exists []. repeat split; auto. apply Z.gtb_gt in Hgt. lia.
    + exists (e :: erased). repeat split.
      * cbn. f_equal. exact Heq.
      * constructor; [|exact Hall].
        destruct (Z.le_gt_cases (ev_seq e) a) as [C|C]; [exact C|].
        apply Z.lt_gt, Z.gtb_gt in C. congruence.
      * exact Hhd.
Qed.

Lemma erase_acked_incl a (b : list (event Payload)) e :
  In e (erase_acked a b) -> In e b.
Proof.
  destruct (erase_acked_split a b) as (erased & Heq & _).
  intros H. rewrite Heq. apply in_or_app. right. exact H.
Qed.

Lemma erase_acked_sorted a (b : list (event Payload)) :
  StronglySorted Z.lt (map ev_seq b) ->
  StronglySorted Z.lt (map ev_seq (erase_acked a b))
  /\ Forall (fun e => a < ev_seq e) (erase_acked a b).
Proof.
  induction b as [|e rest IH]; cbn; intros Hs.
  - split; constructor.
  - inversion Hs as [|? ? Hs' Hlt]; subst.
    destruct (ev_seq e >? a) eqn:Hgt.
    + split; [exact Hs|]. apply Z.gtb_gt in Hgt.
      constructor; [lia|].
      apply Forall_forall. intros y Hy.
      rewrite Forall_forall in Hlt.
      specialize (Hlt (ev_seq y) (in_map _ _ _ Hy)). lia.
    + apply IH. exact Hs'.
Qed.

(** *** What a single [handle_ack] does to a well-formed producer *)

Lemma acked_map_Exists (ps ps' : list path) v :
  map acked ps' = map acked ps ->
  Exists (fun x => acked x < v) ps -> Exists (fun x => acked x < v) ps'.
Proof.
  intros Hmap H.
  apply (proj1 (Exists_map acked (fun z => z < v) ps')).
  rewrite Hmap. apply Exists_map. exact H.
Qed.

Lemma handle_ack_frame h s (p : producer) :
  seq_ (handle_ack h s p) = seq_ p
  /\ tick_ (handle_ack h s p) = tick_ p
  /\ last_broadcast_ (handle_ack h s p) = last_broadcast_ p
  /\ heartbeat_interval_ (handle_ack h s p) = heartbeat_interval_ p
  /\ backend_ (handle_ack h s p) = backend_ p
  /\ Forall2 (ack_rel h s) (paths_ p) (paths_ (handle_ack h s p)).
Proof.
  unfold Producer.handle_ack.
  pose proof (ack_loop_rel h s (tick_ p) (paths_ p) s) as Hrel.
  destruct (ack_loop h s (tick_ p) (paths_ p) s) as [ps' [a|]];
    cbn in *; repeat split; auto.
Qed.

Lemma handle_ack_erases h s (p : producer) :
  NoDup (map hdl (paths_ p)) ->
  StronglySorted Z.lt (map ev_seq (buf_ p)) ->
  unacked_only p ->
  exists erased,
    buf_ p = erased ++ buf_ (handle_ack h s p)
    /\ Forall (fun e => Forall (fun x => ev_seq e <= acked x)
                               (paths_ (handle_ack h s p))) erased
    /\ unacked_only (handle_ack h s p).
Proof.
  intros Hnd Hsorted Hun. unfold Producer.handle_ack, unacked_only in *.
  destruct (ack_loop h s (tick_ p) (paths_ p) s) as [ps' [a|]] eqn:E; cbn.
  - destruct (ack_loop_min h s (tick_ p) (paths_ p) ps' s a (Z.le_refl s) E)
      as (Hall & Hle & Hatt & Hupd).
    destruct (erase_acked_split a (buf_ p)) as (erased & Heq & Hacked & _).
    destruct (erase_acked_sorted a (buf_ p) Hsorted) as [_ Hrest].
    exists erased. repeat split; [exact Heq| |].
    + eapply Forall_impl; [|exact Hacked]. intros e He. cbn in He.
      eapply Forall_impl; [|exact Hall]. intros x Hx. cbn in Hx. lia.
    + apply Forall_forall. intros e He.
      rewrite Forall_forall in Hrest. specialize (Hrest e He).
      assert (Hatt' : Exists (fun x => acked x = a) ps' -> 
                      Exists (fun x => acked x < ev_seq e) ps').
      { intros Hex. eapply Exists_impl; [|exact Hex].
        intros x Hx. cbn in Hx. lia. }
      destruct Hatt as [->|Hex]; [|auto].
      destruct Hupd as [->|Hex]; [|auto].
      rewrite Forall_forall in Hun. apply Hun.
      eapply erase_acked_incl; eauto.
  - exists []. repeat split; [constructor|].
    eapply Forall_impl; [|exact Hun]. intros e He.
    eapply acked_map_Exists; [|exact He].
    eapply ack_loop_none; eauto.
Qed.

(** *** Acknowledging the current sequence number on every path *)

Lemma well_formed_draining (p : producer) : well_formed p -> draining p.
Proof.
  intros (Hnd & _ & Hle & Hun). repeat split; auto.
  unfold unacked_only in Hun.
  destruct (buf_ p) as [|e rest]; [congruence|]. intros _.
  inversion Hun as [|? ? Hex _]; subst. inversion Hle as [|? ? He _]; subst.
  eapply Exists_impl; [|exact Hex]. intros x Hx. cbn in Hx. lia.
Qed.

Lemma handle_ack_draining h (p : producer) :
  draining p ->
  draining (handle_ack h (seq_ p) p)
  /\ Forall (fun x => hdl x = h -> seq_ p <= acked x)
            (paths_ (handle_ack h (seq_ p) p)).
Proof.
  intros (Hnd & Hle & Hne).
  pose proof (ack_loop_done h (seq_ p) (tick_ p) (paths_ p) (seq_ p) Hnd)
    as Hdone.
  pose proof (ack_loop_rel h (seq_ p) (tick_ p) (paths_ p) (seq_ p)) as Hrel.
  apply ack_rel_handles in Hrel.
  unfold draining, Producer.handle_ack.
  destruct (ack_loop h (seq_ p) (tick_ p) (paths_ p) (seq_ p))
    as [ps' [a|]] eqn:E; cbn in *.
  - repeat split; auto.
    + rewrite Hrel. exact Hnd.
    + apply Forall_forall. intros e He. rewrite Forall_forall in Hle.
      apply Hle. eapply erase_acked_incl; eauto.
    + intros Hbuf.
      destruct (ack_loop_min h (seq_ p) (tick_ p) (paths_ p) ps' (seq_ p) a
                             (Z.le_refl _) E) as (_ & _ & Hatt & _).
      destruct (erase_acked_split a (buf_ p)) as (erased & _ & _ & Hhd).
      destruct (erase_acked a (buf_ p)) as [|e rest] eqn:Eb; [congruence|].
      assert (He : ev_seq e <= seq_ p).
      { rewrite Forall_forall in Hle. apply Hle.
        apply (erase_acked_incl a). rewrite Eb. left. reflexivity. }
      destruct Hatt as [->|Hex]; [lia|].
      eapply Exists_impl; [|exact Hex]. intros x Hx. cbn in Hx. lia.
  - repeat split; auto.
    + rewrite Hrel. exact Hnd.
    + intros Hbuf. eapply acked_map_Exists; [|exact (Hne Hbuf)].
      eapply ack_loop_none; eauto.
Qed.

Lemma ack_rel_keeps_done h s (done : list Handle) (bound : Z)
      (ps ps' : list path) :
  Forall2 (ack_rel h s) ps ps' ->
  Forall (fun x => In (hdl x) done -> bound <= acked x) ps ->
  Forall (fun x => In (hdl x) done -> bound <= acked x) ps'.
Proof.
  induction 1 as [|x x' l l' (Hh & _ & Hacked) _ IH]; intros Hall;
    [constructor|].
  inversion Hall as [|? ? Hx Hl]; subst.
  constructor; [|auto]. rewrite Hh. intros Hin. specialize (Hx Hin).
  destruct Hacked as [->|(? & -> & _)]; lia.
Qed.

Lemma ack_all_drains (hs done : list Handle) (p : producer) :
  draining p ->
  Forall (fun x => In (hdl x) done -> seq_ p <= acked x) (paths_ p) ->
  let p' := ack_all Handle_eq_dec hs p in
  draining p'
  /\ seq_ p' = seq_ p
  /\ map hdl (paths_ p') = map hdl (paths_ p)
  /\ Forall (fun x => In (hdl x) (done ++ hs) -> seq_ p <= acked x)
            (paths_ p').
Proof.
  revert done p. induction hs as [|h hs IH]; intros done p Hdr Hdone.
  - cbn. rewrite app_nil_r. auto.
  - cbn zeta.
    change (ack_all Handle_eq_dec (h :: hs) p)
      with (ack_all Handle_eq_dec hs (handle_ack h (seq_ p) p)).
    destruct (handle_ack_draining h p Hdr) as [Hdr' Hh].
    destruct (handle_ack_frame h (seq_ p) p)
      as (Hseq & _ & _ & _ & _ & Hrel).
    specialize (IH (done ++ [h]) (handle_ack h (seq_ p) p) Hdr').
    rewrite Hseq in IH. cbn zeta in IH.
    destruct IH as (Hdr'' & Hseq' & Hhdl & Hall).
    + pose proof (ack_rel_keeps_done h (seq_ p) done (seq_ p) _ _ Hrel Hdone)
        as Hkept.
      rewrite Forall_forall in *. intros x Hx Hin.
      apply in_app_or in Hin. destruct Hin as [Hin|[Heq|[]]]; auto.
    + split; [exact Hdr''|]. split; [exact Hseq'|].
      split; [rewrite Hhdl; eapply ack_rel_handles; eauto|].
      rewrite <- app_assoc in Hall. exact Hall.
Qed.


End ProducerPaths.

(** ** The producer: what every run keeps true *)

Section ProducerRuns.

Import Producer.

Variables Handle Payload : Type.
Variable Handle_eq_dec : forall a b : Handle, {a = b} + {a <> b}.

Local Abbreviation producer := (producer Handle Payload).
Local Abbreviation path := (path Handle).
Local Abbreviation op := (op Handle Payload).
Local Abbreviation step := (@step Handle Payload Handle_eq_dec).
Local Abbreviation run := (@run Handle Payload Handle_eq_dec).
Local Abbreviation handle_ack := (@handle_ack Handle Payload Handle_eq_dec).
Local Abbreviation handle_nack := (@handle_nack Handle Payload Handle_eq_dec).
Local Abbreviation initial := (initial Handle Payload).

Lemma retransmit_frame h (seqs : list Z) (q : producer) :
  let q' := fold_left (retransmit h) seqs q in
  seq_ q' = seq_ q /\ paths_ q' = paths_ q /\ buf_ q' = buf_ q.
Proof.
  revert q. induction seqs as [|s seqs IH]; intros q; cbn; [auto|].
  destruct (IH (retransmit h q s)) as (H1 & H2 & H3).
  cbn zeta in *. rewrite H1, H2, H3.
  unfold retransmit. destruct (find_event s q); cbn; auto.
Qed.

(** [handle_nack] changes the paths and the buffer as the [handle_ack] it
    calls does, or not at all. *)
Lemma handle_nack_cases h seqs (p : producer) :
  (seq_ (handle_nack h seqs p) = seq_ p
   /\ paths_ (handle_nack h seqs p) = paths_ p
   /\ buf_ (handle_nack h seqs p) = buf_ p)
  \/ (exists first rest,
         seqs = first :: rest /\ first <> 0
         /\ seq_ (handle_nack h seqs p) = seq_ p
         /\ paths_ (handle_nack h seqs p)
            = paths_ (handle_ack h (u64 (first - 1)) p)
         /\ buf_ (handle_nack h seqs p)
            = buf_ (handle_ack h (u64 (first - 1)) p)).
Proof.
  unfold Producer.handle_nack. destruct seqs as [|first rest]; [left; auto|].
  destruct (find_path Handle_eq_dec h p) as [x|]; [|left; auto].
  destruct (first =? 0) eqn:E; [left; cbn; auto|].
  right. exists first, rest. apply Z.eqb_neq in E.
  destruct (retransmit_frame h (first :: rest)
                             (handle_ack h (u64 (first - 1)) p))
    as (H1 & H2 & H3).
  cbn zeta in *. rewrite H1, H2, H3.
  destruct (handle_ack_frame Handle Payload Handle_eq_dec
                             h (u64 (first - 1)) p) as (Hs & _).
  repeat split; auto.
Qed.

Lemma ack_rel_offset h s (ps ps' : list path) :
  Forall2 (ack_rel h s) ps ps' ->
  Forall (fun x => offset x <= acked x) ps ->
  Forall (fun x => offset x <= acked x) ps'.
Proof.
  induction 1 as [|x x' l l' (_ & Ho & Ha) _ IH]; intros Hall;
    [constructor|].
  inversion Hall; subst. constructor; [|auto].
  destruct Ha as [->|(? & -> & _)]; lia.
Qed.

Lemma ack_rel_bound h s bound (ps ps' : list path) :
  s <= bound ->
  Forall2 (ack_rel h s) ps ps' ->
  Forall (fun x => acked x <= bound) ps ->
  Forall (fun x => acked x <= bound) ps'.
Proof.
  intros Hs. induction 1 as [|x x' l l' (_ & _ & Ha) _ IH]; intros Hall;
    [constructor|].
  inversion Hall; subst. constructor; [|auto].
  destruct Ha as [->|(? & -> & _)]; lia.
Qed.

Lemma find_path_none h (p : producer) :
  find_path Handle_eq_dec h p = None -> ~ In h (map hdl (paths_ p)).
Proof.
  unfold find_path. intros Hnone Hin.
  apply in_map_iff in Hin. destruct Hin as (x & Hx & Hin).
  pose proof (find_none _ _ Hnone x Hin) as Hf. cbn in Hf.
  destruct (Handle_eq_dec (hdl x) h); [discriminate|contradiction].
Qed.

Lemma step_offset_le (p : producer) (o : op) :
  Forall (fun x => offset x <= acked x) (paths_ p) ->
  Forall (fun x => offset x <= acked x) (paths_ (step p o)).
Proof.
  intros Hall. destruct o as [content|h|h s|h seqs|]; cbn.
  - unfold produce. destruct (paths_ p) eqn:E; [rewrite E|]; cbn; auto.
  - unfold add. destruct (find_path Handle_eq_dec h p); cbn; [exact Hall|].
    apply Forall_app. split; [exact Hall|]. constructor; [cbn; lia|constructor].
  - destruct (handle_ack_frame Handle Payload Handle_eq_dec h s p)
      as (_ & _ & _ & _ & _ & Hrel).
    eapply ack_rel_offset; eauto.
  - destruct (handle_nack_cases h seqs p)
      as [(_ & -> & _)|(first & rest & _ & _ & _ & -> & _)]; [exact Hall|].
    destruct (handle_ack_frame Handle Payload Handle_eq_dec
                               h (u64 (first - 1)) p)
      as (_ & _ & _ & _ & _ & Hrel).
    eapply ack_rel_offset; eauto.
  - unfold tick.
    destruct ((heartbeat_interval_ p >? 0)
              && (Lamport.plus (last_broadcast_ p) (heartbeat_interval_ p)
                  =? Lamport.incr (tick_ p))); cbn; exact Hall.
Qed.

Lemma sorted_snoc (l : list Z) v :
  StronglySorted Z.lt l -> Forall (fun y => y < v) l ->
  StronglySorted Z.lt (l ++ [v]).
Proof.
  induction 1 as [|y l Hs IH Hy]; intros Hall; cbn.
  - constructor; constructor.
  - inversion Hall; subst. constructor; [auto|].
    apply Forall_app. split; [exact Hy|]. constructor; [lia|constructor].
Qed.

Lemma initial_invariant : in_range_invariant initial.
Proof.
  unfold in_range_invariant, well_formed, unacked_only. cbn.
  repeat split; try constructor. lia.
Qed.

Lemma step_invariant (p : producer) (o : op) :
  in_range p o = true ->
  in_range_invariant p -> in_range_invariant (step p o).
Proof.
  intros Hr (Hseq & Hacked & Hnd & Hsorted & Hle & Hun).
  assert (Hack : forall h s,
             s <= seq_ p -> in_range_invariant (handle_ack h s p)).
  { intros h s Hs.
    destruct (handle_ack_frame Handle Payload Handle_eq_dec h s p)
      as (Hs' & _ & _ & _ & _ & Hrel).
    destruct (handle_ack_erases Handle Payload Handle_eq_dec h s p
                                Hnd Hsorted Hun)
      as (erased & Heq & _ & Hun').
    unfold in_range_invariant, well_formed. rewrite Hs'.
    split; [exact Hseq|]. split; [eapply ack_rel_bound; eauto|].
    split; [erewrite ack_rel_handles; eauto|].
    split; [|split; [|exact Hun']].
    - rewrite Heq, map_app in Hsorted.
      clear - Hsorted. induction erased as [|e l IH]; [exact Hsorted|].
      apply IH. cbn in Hsorted. inversion Hsorted; assumption.
    - rewrite Heq in Hle. apply Forall_app in Hle. tauto. }
  destruct o as [content|h|h s|h seqs|]; cbn in *.
  - unfold produce. destruct (paths_ p) as [|x0 ps0] eqn:E.
    { unfold in_range_invariant, well_formed. rewrite E.
      repeat split; assumption. }
    apply Z.ltb_lt in Hr.
    assert (Hu : u64 (seq_ p + 1) = seq_ p + 1)
      by (apply u64_small; unfold seq_max in *; lia).
    unfold in_range_invariant, well_formed, unacked_only. cbn. rewrite Hu.
    repeat split.
    + lia.
    + eapply Forall_impl; [|exact Hacked]. cbn. intros; lia.
    + exact Hnd.
    + rewrite map_app. cbn. apply sorted_snoc; [exact Hsorted|].
      apply Forall_map. eapply Forall_impl; [|exact Hle]. cbn. intros; lia.
    + apply Forall_app. split.
      * eapply Forall_impl; [|exact Hle]. cbn. intros; lia.
      * constructor; [cbn; lia|constructor].
    + apply Forall_app.
      split; [unfold unacked_only in Hun; rewrite E in Hun; exact Hun|].
      constructor; [|constructor]. cbn.
      apply Exists_cons_hd. inversion Hacked; subst. lia.
  - unfold add. destruct (find_path Handle_eq_dec h p) eqn:E; cbn.
    { unfold in_range_invariant, well_formed. repeat split; assumption. }
    unfold in_range_invariant, well_formed, unacked_only. cbn.
    split; [exact Hseq|]. split; [|split; [|split; [exact Hsorted|split; [exact Hle|]]]].
    + apply Forall_app. split; [exact Hacked|].
      constructor; [cbn; lia|constructor].
    + rewrite map_app. cbn.
      apply NoDup_rev in Hnd. rewrite <- (rev_involutive (_ ++ _)).
      apply NoDup_rev. rewrite rev_app_distr. cbn.
      constructor; [|exact Hnd].
      rewrite <- in_rev. apply find_path_none. exact E.
    + eapply Forall_impl; [|exact Hun]. cbn. intros e He.
      apply Exists_app. left. exact He.
  - apply Hack. apply Z.leb_le. exact Hr.
  - destruct (handle_nack_cases h seqs p)
      as [(H1 & H2 & H3)|(first & rest & -> & Hne & H1 & H2 & H3)].
    + unfold in_range_invariant, well_formed, unacked_only.
      rewrite H1, H2, H3. repeat split; assumption.
    + apply Z.eqb_neq in Hne. rewrite Hne in Hr. cbn in Hr.
      apply Z.leb_le in Hr. specialize (Hack h _ Hr).
      unfold in_range_invariant, well_formed, unacked_only in *.
      rewrite H1, H2, H3.
      destruct (handle_ack_frame Handle Payload Handle_eq_dec
                                 h (u64 (first - 1)) p) as (Hs' & _).
      rewrite Hs' in Hack. exact Hack.
  - unfold in_range_invariant, well_formed, unacked_only, tick.
    destruct ((heartbeat_interval_ p >? 0)
              && (Lamport.plus (last_broadcast_ p) (heartbeat_interval_ p)
                  =? Lamport.incr (tick_ p))); cbn; repeat split; assumption.
Qed.

Lemma run_invariant (ops : list op) (p : producer) :
  run_in_range Handle_eq_dec ops p = true ->
  in_range_invariant p -> in_range_invariant (run ops p).
Proof.
  revert p. induction ops as [|o ops IH]; intros p Hr Hinv; [exact Hinv|].
  cbn in Hr. apply andb_prop in Hr. destruct Hr as [Ho Hr].
  apply (IH (step p o) Hr). apply step_invariant; assumption.
Qed.

Lemma run_offset_le (ops : list op) (p : producer) :
  Forall (fun x => offset x <= acked x) (paths_ p) ->
  Forall (fun x => offset x <= acked x) (paths_ (run ops p)).
Proof.
  revert p. induction ops as [|o ops IH]; intros p Hall; [exact Hall|].
  apply (IH (step p o)). apply step_offset_le. exact Hall.
Qed.

(** C5 (path invariant), as the code has it.  In every state a producer
    reaches from its initial state by [produce], [add], [handle_ack],
    [handle_nack] and [tick], every path has [offset <= acked].  When, in
    addition, the sequence numbers of the run stay in range (no ACK and no
    first entry of a NACK acknowledges more than [seq_], and [seq_] does not
    wrap around), every path has [acked <= seq_] as well, and the producer is
    well-formed. *)
Theorem path_invariant (ops : list op) :
  let p := run ops initial in
  Forall (fun x => offset x <= acked x) (paths_ p)
  /\ (run_in_range Handle_eq_dec ops initial = true ->
      Forall (fun x => offset x <= acked x <= seq_ p) (paths_ p)
      /\ well_formed p).
Proof.
  cbn zeta.
  assert (Hoff : Forall (fun x : path => offset x <= acked x)
                        (paths_ (run ops initial))).
  { apply run_offset_le. constructor. }
  split; [exact Hoff|]. intros Hr.
  destruct (run_invariant ops initial Hr initial_invariant)
    as (_ & Hacked & Hwf).
  split; [|exact Hwf].
  rewrite Forall_forall in *. intros x Hx.
  specialize (Hoff x Hx). specialize (Hacked x Hx). lia.
Qed.

End ProducerRuns.

(** ** The consumer: single invocations *)

Section ConsumerSteps.

Import Consumer.

Variables Payload Error : Type.
Variable consume_nil_answer : consumer Payload Error -> option Error.

Local Abbreviation consumer := (consumer Payload Error).
Local Abbreviation optional_event := (optional_event Payload).
Local Abbreviation consume_loop := (consume_loop consume_nil_answer).
Local Abbreviation try_consume_buffer :=
  (try_consume_buffer consume_nil_answer).
Local Abbreviation handle_handshake := (handle_handshake consume_nil_answer).
Local Abbreviation handle_event := (handle_event consume_nil_answer).
Local Abbreviation handle_retransmit_failed :=
  (handle_retransmit_failed consume_nil_answer).

(** *** [last_seq_] *)

Lemma bump_seq_last_seq (c : consumer) :
  last_seq_ c <= last_seq_ (bump_seq c).
Proof.
  unfold bump_seq; cbn.
  destruct (u64 (next_seq_ c + 1) >? last_seq_ c) eqn:E; [|lia].
  apply Z.gtb_gt in E. lia.
Qed.

Lemma consume_loop_last_seq (rest : list optional_event) (c : consumer) :
  last_seq_ c <= last_seq_ (consume_loop c rest).
Proof.
  revert c. induction rest as [|x rest IH]; intros c; cbn; [lia|].
  destruct (oe_seq x =? next_seq_ c); [|cbn; lia].
  destruct (content x) as [payload|].
  - etransitivity; [|apply IH].
    etransitivity; [|apply bump_seq_last_seq]. cbn. lia.
  - destruct (consume_nil_answer c); [cbn; lia|].
    etransitivity; [|apply IH].
    etransitivity; [|apply bump_seq_last_seq]. cbn. lia.
Qed.

Lemma tick_frame_consumer (c : consumer) :
  next_seq_ (tick c) = next_seq_ c
  /\ last_seq_ (tick c) = last_seq_ c
  /\ buf_ (tick c) = buf_ c.
Proof.
  unfold tick. cbn zeta.
  repeat match goal with
         | |- context [if ?b then _ else _] => destruct b
         end; cbn; auto.
Qed.

(** C4 (monotonicity of [last_seq_]), as the code has it.  For every
    consumer, [handle_heartbeat], [handle_event] and
    [handle_retransmit_failed] do not lower [last_seq_] and [tick] leaves it
    as it is.  [handle_handshake(offset, hb)] leaves the consumer as it is
    when [offset < next_seq_]; otherwise it sets [last_seq_] to [offset + 1]
    (as a 64-bit number) before it drains the buffer, so that [last_seq_] is
    at least [offset + 1] afterwards, whatever its value before. *)
Theorem last_seq_monotone (c : consumer) :
  (forall seq, last_seq_ c <= last_seq_ (handle_heartbeat seq c))
  /\ (forall seq payload,
         last_seq_ c <= last_seq_ (handle_event seq payload c))
  /\ (forall seq, last_seq_ c <= last_seq_ (handle_retransmit_failed seq c))
  /\ last_seq_ (tick c) = last_seq_ c
  /\ (forall offset hb,
         offset < next_seq_ c -> handle_handshake offset hb c = c)
  /\ (forall offset hb,
         next_seq_ c <= offset ->
         u64 (offset + 1) <= last_seq_ (handle_handshake offset hb c)).
Proof.
  repeat split.
  - intros seq. unfold handle_heartbeat.
    destruct ((last_seq_ c =? 0) || (seq =? 0)); [lia|].
    destruct (u64 (seq + 1) >? last_seq_ c) eqn:E; [|lia].
    apply Z.gtb_gt in E. cbn. lia.
  - intros seq payload. unfold Consumer.handle_event.
    destruct (next_seq_ c =? seq).
    + unfold Consumer.try_consume_buffer.
      etransitivity; [|apply consume_loop_last_seq].
      etransitivity; [|apply bump_seq_last_seq]. cbn. lia.
    + destruct (seq >? next_seq_ c); [|lia].
      destruct (seq >? last_seq_ c) eqn:E; cbn; [|lia].
      apply Z.gtb_gt in E. lia.
  - intros seq. unfold Consumer.handle_retransmit_failed.
    destruct (next_seq_ c =? seq).
    + destruct (consume_nil_answer c); [cbn; lia|].
      unfold Consumer.try_consume_buffer.
      etransitivity; [|apply consume_loop_last_seq].
      etransitivity; [|apply bump_seq_last_seq]. cbn. lia.
    + destruct (seq >? next_seq_ c); cbn; lia.
  - apply tick_frame_consumer.
  - intros offset hb H. unfold Consumer.handle_handshake.
    destruct (offset >=? next_seq_ c) eqn:E; [|reflexivity].
    apply Z.geb_le in E. lia.
  - intros offset hb H. unfold Consumer.handle_handshake.
    destruct (offset >=? next_seq_ c) eqn:E.
    + unfold Consumer.try_consume_buffer.
      etransitivity; [|apply consume_loop_last_seq]. cbn. lia.
    + assert ((offset >=? next_seq_ c) = true) by (apply Z.geb_le; lia).
      congruence.
Qed.

(** *** Insertion into the buffer *)

Lemma insert_event_seqs seq payload (b : list optional_event) :
  map oe_seq (insert_event seq payload b) = insert_seq seq (map oe_seq b).
Proof.
  induction b as [|x rest IH]; cbn; [reflexivity|].
  destruct (oe_seq x >=? seq); [|cbn; f_equal; exact IH].
  destruct (oe_seq x =? seq); cbn; [|reflexivity].
  destruct (content x); reflexivity.
Qed.

Lemma insert_nil_seqs seq (b : list optional_event) :
  map oe_seq (insert_nil seq b) = insert_seq seq (map oe_seq b).
Proof.
  induction b as [|x rest IH]; cbn; [reflexivity|].
  destruct (oe_seq x >=? seq); [|cbn; f_equal; exact IH].
  destruct (oe_seq x =? seq); reflexivity.
Qed.

Lemma insert_seq_In s (l : list Z) y :
  In y (insert_seq s l) -> y = s \/ In y l.
Proof.
  induction l as [|z rest IH]; cbn.
  - intros [<-|[]]. auto.
  - destruct (z >=? s).
    + destruct (z =? s); cbn; intuition.
    + cbn. intuition.
Qed.

Lemma insert_seq_sorted s (l : list Z) :
  StronglySorted Z.lt l -> StronglySorted Z.lt (insert_seq s l).
Proof.
  induction 1 as [|z rest Hs IH Hz]; cbn.
  - constructor; constructor.
  - destruct (z >=? s) eqn:Hge.
    + destruct (z =? s) eqn:Heq; cbn.
      * constructor; assumption.
      * apply Z.geb_le in Hge. apply Z.eqb_neq in Heq.
        constructor; [constructor; assumption|].
        constructor; [lia|].
        eapply Forall_impl; [|exact Hz]. cbn. intros; lia.
    + constructor; [exact IH|].
      apply Forall_forall. intros y Hy.
      apply insert_seq_In in Hy. destruct Hy as [->|Hy].
      * destruct (Z.le_gt_cases s z) as [C|C]; [|lia].
        apply Z.geb_le in C. congruence.
      * rewrite Forall_forall in Hz. auto.
Qed.

Lemma insert_event_again seq payload payload' (b : list optional_event) :
  insert_event seq payload' (insert_event seq payload b)
  = insert_event seq payload b.
Proof.
  assert (Hrefl : (seq >=? seq) = true) by (apply Z.geb_le; lia).
  induction b as [|x rest IH]; cbn.
  - rewrite Hrefl, Z.eqb_refl. reflexivity.
  - destruct (oe_seq x >=? seq) eqn:Hge.
    + destruct (oe_seq x =? seq) eqn:Heq; cbn.
      * destruct (content x) eqn:Hc; cbn; rewrite Hge, Heq; cbn;
          [rewrite Hc|]; reflexivity.
      * rewrite Hrefl, Z.eqb_refl. reflexivity.
    + cbn. rewrite Hge. f_equal. exact IH.
Qed.

(** *** Draining never moves [next_seq_] backwards below the maximum *)

Lemma consume_loop_next_seq (rest : list optional_event) (c : consumer) :
  0 <= next_seq_ c ->
  Forall (fun x => oe_seq x < seq_max) rest ->
  next_seq_ c <= next_seq_ (consume_loop c rest).
Proof.
  revert c. induction rest as [|x rest IH]; intros c Hc Hall; cbn; [lia|].
  inversion Hall as [|? ? Hx Hrest]; subst.
  destruct (oe_seq x =? next_seq_ c) eqn:E; [|cbn; lia].
  apply Z.eqb_eq in E.
  assert (Hu : u64 (next_seq_ c + 1) = next_seq_ c + 1)
    by (apply u64_small; lia).
  destruct (content x) as [payload|].
  - etransitivity; [|apply IH; [cbn; lia|exact Hrest]]. cbn. lia.
  - destruct (consume_nil_answer c); [cbn; lia|].
    etransitivity; [|apply IH; [cbn; lia|exact Hrest]]. cbn. lia.
Qed.

(** C8 (idempotence of [handle_event]).  For every consumer and every event
    whose sequence number [seq] is not the largest 64-bit number, no buffered
    slot carrying that number either (sequence numbers do not wrap around):
    a second [handle_event] for [seq], with the same payload or another,
    leaves the consumer exactly as the first left it, with all its fields
    and with no further call on the backend.  An event below [next_seq_] is
    ignored outright. *)
Theorem handle_event_idempotent (c : consumer) (seq : Z)
        (payload payload' : Payload) :
  0 <= seq < seq_max ->
  Forall (fun x => oe_seq x < seq_max) (buf_ c) ->
  handle_event seq payload' (handle_event seq payload c)
  = handle_event seq payload c
  /\ (seq < next_seq_ c -> handle_event seq payload c = c).
Proof.
  intros Hseq Hbuf.
  assert (Hignore : forall c' : consumer,
             seq < next_seq_ c' -> handle_event seq payload' c' = c').
  { intros c' Hlt. unfold Consumer.handle_event.
    replace (next_seq_ c' =? seq) with false
      by (symmetry; apply Z.eqb_neq; lia).
    replace (seq >? next_seq_ c') with false; [reflexivity|].
    symmetry. destruct (seq >? next_seq_ c') eqn:E; [|reflexivity].
    apply Z.gtb_gt in E. lia. }
  split.
  - unfold Consumer.handle_event at 2 3.
    destruct (next_seq_ c =? seq) eqn:Heq.
    + apply Z.eqb_eq in Heq. apply Hignore.
      unfold Consumer.try_consume_buffer.
      eapply Z.lt_le_trans; [|apply consume_loop_next_seq].
      * cbn. rewrite u64_small; lia.
      * cbn. apply u64_range.
      * exact Hbuf.
    + destruct (seq >? next_seq_ c) eqn:Hgt; [|].
      * unfold Consumer.handle_event. cbn.
        replace (next_seq_ (if seq >? last_seq_ c
                            then set_last_seq seq c else c))
          with (next_seq_ c) by (destruct (seq >? last_seq_ c); reflexivity).
        rewrite Heq, Hgt.
        destruct (seq >? last_seq_ c) eqn:Hl; cbn.
        -- replace (seq >? seq) with false; cbn.
           ++ rewrite insert_event_again. reflexivity.
           ++ symmetry. destruct (seq >? seq) eqn:E; [|reflexivity].
              apply Z.gtb_gt in E. lia.
        -- rewrite Hl. cbn. rewrite insert_event_again. reflexivity.
      * apply Hignore. apply Z.eqb_neq in Heq.
        destruct (Z.lt_ge_cases seq (next_seq_ c)) as [C|C]; [exact C|].
        assert (seq > next_seq_ c) by lia.
        apply Z.gtb_gt in H. congruence.
  - intros Hlt. unfold Consumer.handle_event.
    replace (next_seq_ c =? seq) with false
      by (symmetry; apply Z.eqb_neq; lia).
    replace (seq >? next_seq_ c) with false; [reflexivity|].
    symmetry. destruct (seq >? next_seq_ c) eqn:E; [|reflexivity].
    apply Z.gtb_gt in E. lia.
Qed.

(** C10 (frame of [handle_retransmit_failed]).  For every consumer and every
    [seq] above [next_seq_], [handle_retransmit_failed(seq)] changes the
    buffer only: [last_seq_], [next_seq_] and the calls on the backend stay
    as they are, whereas [handle_event] raises [last_seq_] to the maximum of
    [last_seq_] and [seq].  Unless the buffer has a slot for [seq] already,
    it then holds a slot for [seq] without content, also when [seq] is
    [last_seq_] or more. *)
Theorem retransmit_failed_keeps_last_seq (c : consumer) (seq : Z) :
  next_seq_ c < seq ->
  last_seq_ (handle_retransmit_failed seq c) = last_seq_ c
  /\ next_seq_ (handle_retransmit_failed seq c) = next_seq_ c
  /\ backend_ (handle_retransmit_failed seq c) = backend_ c
  /\ (forall payload,
         last_seq_ (handle_event seq payload c) = Z.max (last_seq_ c) seq)
  /\ ((forall x, In x (buf_ c) -> oe_seq x <> seq) ->
      In (mk_optional_event seq None)
         (buf_ (handle_retransmit_failed seq c))).
Proof.
  intros Hlt.
  assert (Hne : (next_seq_ c =? seq) = false) by (apply Z.eqb_neq; lia).
  assert (Hgt : (seq >? next_seq_ c) = true) by (apply Z.gtb_gt; lia).
  unfold Consumer.handle_retransmit_failed, Consumer.handle_event.
  rewrite Hne, Hgt. cbn. repeat split.
  - intros payload. destruct (seq >? last_seq_ c) eqn:E; cbn.
    + apply Z.gtb_gt in E. lia.
    + assert (~ seq > last_seq_ c)
        by (intros C; apply Z.gtb_gt in C; congruence).
      lia.
  - intros Hfree. induction (buf_ c) as [|x rest IH]; cbn; [auto|].
    destruct (oe_seq x >=? seq).
    + replace (oe_seq x =? seq) with false; [cbn; auto|].
      symmetry. apply Z.eqb_neq. apply Hfree. left. reflexivity.
    + right. apply IH. intros y Hy. apply Hfree. right. exact Hy.
Qed.

End ConsumerSteps.

(** ** The consumer: the buffer invariant *)

Section ConsumerBuffer.

Import Consumer.

Variables Payload Error : Type.
Variable consume_nil_answer : consumer Payload Error -> option Error.

Local Abbreviation consumer := (consumer Payload Error).
Local Abbreviation optional_event := (optional_event Payload).
Local Abbreviation op := (op Payload).
Local Abbreviation consume_loop := (consume_loop consume_nil_answer).
Local Abbreviation step := (step consume_nil_answer).
Local Abbreviation run := (run consume_nil_answer).
Local Abbreviation run_allowed := (run_allowed consume_nil_answer).
Local Abbreviation initial := (initial Payload Error).

Lemma sorted_suffix (pre l : list Z) :
  StronglySorted Z.lt (pre ++ l) -> StronglySorted Z.lt l.
Proof.
  induction pre as [|y pre IH]; cbn; [auto|].
  intros H. inversion H; subst. auto.
Qed.

(** Draining leaves a tail of the buffer. *)
Lemma consume_loop_suffix (rest : list optional_event) (c : consumer) :
  exists pre, rest = pre ++ buf_ (consume_loop c rest).
Proof.
  revert c. induction rest as [|x rest IH]; intros c; cbn.
  - exists []. reflexivity.
  - destruct (oe_seq x =? next_seq_ c); [|exists []; reflexivity].
    destruct (content x) as [payload|].
    + destruct (IH (bump_seq (call_backend (consume (next_seq_ c) payload) c)))
        as [pre Hpre].
      exists (x :: pre). cbn. f_equal. exact Hpre.
    + destruct (consume_nil_answer c) as [err|]; [exists []; reflexivity|].
      destruct (IH (bump_seq (call_backend (consume_nil (next_seq_ c) None) c)))
        as [pre Hpre].
      exists (x :: pre). cbn. f_equal. exact Hpre.
Qed.

Lemma step_sorted (c : consumer) (o : op) :
  StronglySorted Z.lt (map oe_seq (buf_ c)) ->
  StronglySorted Z.lt (map oe_seq (buf_ (step c o))).
Proof.
  intros Hs.
  assert (Hdrain : forall c' : consumer,
             buf_ c' = buf_ c ->
             StronglySorted Z.lt
               (map oe_seq (buf_ (try_consume_buffer consume_nil_answer c')))).
  { intros c' Hb. unfold try_consume_buffer.
    destruct (consume_loop_suffix (buf_ c') c') as [pre Hpre].
    rewrite <- Hb, Hpre, map_app in Hs. eapply sorted_suffix; eauto. }
  destruct o as [offset hb|seq|seq payload|seq|]; cbn.
  - unfold handle_handshake. destruct (offset >=? next_seq_ c); [|exact Hs].
    apply Hdrain. reflexivity.
  - unfold handle_heartbeat.
    destruct ((last_seq_ c =? 0) || (seq =? 0)); [exact Hs|].
    destruct (u64 (seq + 1) >? last_seq_ c); exact Hs.
  - unfold handle_event. destruct (next_seq_ c =? seq).
    + apply Hdrain. reflexivity.
    + destruct (seq >? next_seq_ c); [|exact Hs]. cbn.
      rewrite insert_event_seqs. apply insert_seq_sorted.
      destruct (seq >? last_seq_ c); exact Hs.
  - unfold handle_retransmit_failed. destruct (next_seq_ c =? seq).
    + destruct (consume_nil_answer c); [exact Hs|].
      apply Hdrain. reflexivity.
    + destruct (seq >? next_seq_ c); [|exact Hs]. cbn.
      rewrite insert_nil_seqs. apply insert_seq_sorted. exact Hs.
  - destruct (tick_frame_consumer Payload Error c) as (_ & _ & ->). exact Hs.
Qed.

(** *** Slots and [next_seq_] *)

Lemma closed_call_backend k (c : consumer) :
  closed (call_backend k c)
  = closed c || match k with close _ => true | _ => false end.
Proof.
  unfold closed, call_backend; cbn. rewrite existsb_app. cbn.
  rewrite orb_false_r. reflexivity.
Qed.

Lemma consume_loop_ahead (rest : list optional_event) (c : consumer) :
  0 <= next_seq_ c ->
  closed c = false ->
  StronglySorted Z.lt (map oe_seq rest) ->
  Forall (fun x => next_seq_ c <= oe_seq x) rest ->
  slots_ahead (consume_loop c rest).
Proof.
  revert c. induction rest as [|x rest IH]; intros c Hn Hc Hs Hall; cbn.
  - repeat split; cbn; auto; constructor.
  - inversion Hs as [|? ? Hs' Hlt]; subst.
    inversion Hall as [|? ? Hx Hrest]; subst.
    assert (Hnext : forall k,
               match k with close _ => false | _ => true end = true ->
               slots_ahead
                 (consume_loop (bump_seq (call_backend k c)) rest)).
    { intros k Hk. apply IH; auto.
      - cbn. apply u64_range.
      - change (closed (bump_seq (call_backend k c)))
          with (closed (call_backend k c)).
        rewrite closed_call_backend, Hc. destruct k; cbn in *; congruence.
      - cbn. pose proof (u64_succ_le (next_seq_ c) Hn).
        apply Forall_forall. intros y Hy.
        rewrite Forall_forall in Hlt.
        specialize (Hlt (oe_seq y) (in_map _ _ _ Hy)). lia. }
    destruct (oe_seq x =? next_seq_ c) eqn:E.
    + apply Z.eqb_eq in E. destruct (content x) as [payload|].
      * apply Hnext. reflexivity.
      * destruct (consume_nil_answer c) as [err|]; [|apply Hnext; reflexivity].
        repeat split; cbn -[closed]; auto.
        intros Hclosed. exfalso.
        rewrite closed_call_backend in Hclosed.
        rewrite orb_true_r in Hclosed. discriminate.
    + apply Z.eqb_neq in E.
      repeat split; cbn; auto. intros _.
      constructor; [lia|].
      apply Forall_forall. intros y Hy. rewrite Forall_forall in Hlt.
      specialize (Hlt (oe_seq y) (in_map _ _ _ Hy)). lia.
Qed.

Lemma ahead_weaken n (b : list optional_event) :
  Forall (fun x => n < oe_seq x) b -> Forall (fun x => n <= oe_seq x) b.
Proof. apply Forall_impl. intros; lia. Qed.

Lemma insert_seq_ahead n s (b : list optional_event) (b' : list optional_event) :
  map oe_seq b' = insert_seq s (map oe_seq b) ->
  n < s ->
  Forall (fun x => n < oe_seq x) b -> Forall (fun x => n < oe_seq x) b'.
Proof.
  intros Hmap Hs Hall. apply Forall_forall. intros y Hy.
  assert (Hin : In (oe_seq y) (insert_seq s (map oe_seq b)))
    by (rewrite <- Hmap; apply in_map; exact Hy).
  apply insert_seq_In in Hin. destruct Hin as [->|Hin]; [exact Hs|].
  apply in_map_iff in Hin. destruct Hin as (z & <- & Hz).
  rewrite Forall_forall in Hall. auto.
Qed.

Lemma step_ahead (c : consumer) (o : op) :
  closed c = false ->
  handshake_in_order c o = true ->
  slots_ahead c -> slots_ahead (step c o).
Proof.
  intros Hc Ho (Hn & (Hs & Hge) & Hgt). specialize (Hgt Hc).
  assert (Hbump : forall k,
             match k with close _ => false | _ => true end = true ->
             slots_ahead
               (try_consume_buffer consume_nil_answer
                                   (bump_seq (call_backend k c)))).
  { intros k Hk. unfold try_consume_buffer. apply consume_loop_ahead.
    - cbn. apply u64_range.
    - change (closed (bump_seq (call_backend k c)))
        with (closed (call_backend k c)).
      rewrite closed_call_backend, Hc. destruct k; cbn in *; congruence.
    - exact Hs.
    - cbn. pose proof (u64_succ_le (next_seq_ c) Hn).
      eapply Forall_impl; [|exact Hgt]. cbn. intros; lia. }
  destruct o as [offset hb|seq|seq payload|seq|]; cbn in *.
  - unfold handle_handshake.
    destruct (offset >=? next_seq_ c) eqn:E;
      [|repeat split; auto].
    replace (offset <? next_seq_ c) with false in Ho.
    2:{ symmetry. apply Z.ltb_ge. apply Z.geb_le in E. exact E. }
    cbn in Ho. unfold try_consume_buffer. apply consume_loop_ahead; cbn.
    + apply u64_range.
    + exact Hc.
    + exact Hs.
    + rewrite forallb_forall in Ho. apply Forall_forall.
      intros y Hy. specialize (Ho y Hy). apply Z.leb_le in Ho. exact Ho.
  - unfold handle_heartbeat.
    destruct ((last_seq_ c =? 0) || (seq =? 0)); [repeat split; auto|].
    destruct (u64 (seq + 1) >? last_seq_ c); repeat split; auto.
  - unfold handle_event. destruct (next_seq_ c =? seq) eqn:E.
    + apply Hbump. reflexivity.
    + destruct (seq >? next_seq_ c) eqn:G; [|repeat split; auto].
      apply Z.gtb_gt in G.
      assert (Hins : Forall (fun x => next_seq_ c < oe_seq x)
                            (insert_event seq payload (buf_ c))).
      { eapply insert_seq_ahead; [apply insert_event_seqs|lia|exact Hgt]. }
      destruct (seq >? last_seq_ c); cbn.
      * repeat split; cbn; auto.
        -- rewrite insert_event_seqs. apply insert_seq_sorted. exact Hs.
        -- apply ahead_weaken. exact Hins.
      * repeat split; cbn; auto.
        -- rewrite insert_event_seqs. apply insert_seq_sorted. exact Hs.
        -- apply ahead_weaken. exact Hins.
  - unfold handle_retransmit_failed. destruct (next_seq_ c =? seq) eqn:E.
    + destruct (consume_nil_answer c) as [err|]; [|apply Hbump; reflexivity].
      repeat split; cbn -[closed]; auto.
    + destruct (seq >? next_seq_ c) eqn:G; [|repeat split; auto].
      apply Z.gtb_gt in G.
      assert (Hins : Forall (fun x => next_seq_ c < oe_seq x)
                            (insert_nil seq (buf_ c))).
      { eapply insert_seq_ahead; [apply insert_nil_seqs|lia|exact Hgt]. }
      repeat split; cbn; auto.
      * rewrite insert_nil_seqs. apply insert_seq_sorted. exact Hs.
      * apply ahead_weaken. exact Hins.
  - destruct (tick_frame_consumer Payload Error c) as (Hn' & _ & Hb').
    unfold slots_ahead, buffer_ordered. rewrite Hn', Hb'.
    repeat split; auto.
Qed.

Lemma run_ahead (ops : list op) (c : consumer) :
  run_allowed ops c = true -> slots_ahead c -> slots_ahead (run ops c).
Proof.
  revert c. induction ops as [|o ops IH]; intros c Hr Hc; [exact Hc|].
  cbn in Hr. apply andb_prop in Hr. destruct Hr as [Hr Hrest].
  apply andb_prop in Hr. destruct Hr as [Hcl Ho].
  apply negb_true_iff in Hcl.
  apply (IH (step c o) Hrest). apply step_ahead; assumption.
Qed.

Lemma run_sorted (ops : list op) (c : consumer) :
  StronglySorted Z.lt (map oe_seq (buf_ c)) ->
  StronglySorted Z.lt (map oe_seq (buf_ (run ops c))).
Proof.
  revert c. induction ops as [|o ops IH]; intros c Hc; [exact Hc|].
  apply (IH (step c o)). apply step_sorted. exact Hc.
Qed.

(** C3 (buffer invariant), as the code has it.  In every state a consumer
    reaches from its initial state by [handle_handshake], [handle_heartbeat],
    [handle_event], [handle_retransmit_failed] and [tick], the sequence
    numbers of the slots of [buf_] are strictly increasing from front to
    back.  When, in addition, no call is made on the consumer after [close]
    and no accepted handshake skips a buffered slot, every slot is at or
    above [next_seq_]. *)
Theorem buffer_invariant (ops : list op) :
  StronglySorted Z.lt (map oe_seq (buf_ (run ops initial)))
  /\ (run_allowed ops initial = true -> buffer_ordered (run ops initial)).
Proof.
  split.
  - apply run_sorted. constructor.
  - intros Hr.
    destruct (run_ahead ops initial Hr) as (_ & Hord & _); [|exact Hord].
    repeat split; cbn; try constructor. lia.
Qed.

End ConsumerBuffer.

(** ** The consumer: the contents of a NACK *)

Section ConsumerNack.

Import Consumer.

Variables Payload Error : Type.

Local Abbreviation consumer := (consumer Payload Error).
















End ConsumerNack.

(** ** The order of delivery *)

Section ConsumerDelivery.

Import Consumer.

Variables Payload Error : Type.
Variable consume_nil_answer : consumer Payload Error -> option Error.

Local Abbreviation consumer := (consumer Payload Error).
Local Abbreviation optional_event := (optional_event Payload).
Local Abbreviation call := (call Payload Error).
Local Abbreviation consume_loop := (consume_loop consume_nil_answer).
Local Abbreviation deliveries := (@System.deliveries Payload Error).
Local Abbreviation positions := System.positions.
Local Abbreviation delivers := (@System.delivers Payload Error).

Lemma deliveries_cons k (new : list call) :
  deliveries (k :: new) = deliveries [k] ++ deliveries new.
Proof.
  unfold System.deliveries. cbn [flat_map]. rewrite app_nil_r. reflexivity.
Qed.

Lemma positions_cons n k :
  0 <= n <= seq_max ->
  positions n (S k) = n :: positions (u64 (n + 1)) k.
Proof.
  intros Hn. unfold System.positions. cbn [seq map].
  rewrite Z.add_0_r, (u64_small n Hn). f_equal.
  rewrite <- seq_shift, map_map. apply map_ext. intros i.
  rewrite u64_idem_succ. f_equal. lia.
Qed.

Lemma positions_app n k1 k2 :
  positions n (k1 + k2)
  = positions n k1 ++ positions (u64 (n + Z.of_nat k1)) k2.
Proof.
  unfold System.positions. rewrite seq_app, map_app. f_equal.
  cbn [Nat.add]. revert k1. intros k1.
  replace (seq k1 k2) with (map (fun i => (k1 + i)%nat) (seq 0 k2)).
  - rewrite map_map. apply map_ext. intros i.
    rewrite u64_idem_succ. f_equal. lia.
  - clear. revert k1. induction k2 as [|k2 IH]; intros k1; [reflexivity|].
    cbn [seq map]. rewrite Nat.add_0_r. f_equal.
    rewrite <- seq_shift, map_map. rewrite <- (IH (S k1)).
    apply map_ext. intros i. lia.
Qed.

Lemma positions_count_up n k :
  n + Z.of_nat k <= seq_max + 1 -> 0 <= n ->
  positions n k = count_up n (n + Z.of_nat k).
Proof.
  intros Hk Hn. unfold System.positions, count_up.
  replace (Z.to_nat (n + Z.of_nat k - n)) with k by lia.
  apply map_ext_in. intros i Hi. apply in_seq in Hi.
  apply u64_small. lia.
Qed.

Lemma delivers_nothing (source : Z -> Payload -> Prop) (c c' : consumer) new :
  0 <= next_seq_ c <= seq_max ->
  backend_ c' = backend_ c ++ new ->
  deliveries new = [] ->
  next_seq_ c' = next_seq_ c ->
  (forall s q, In (mk_optional_event s (Some q)) (buf_ c') -> source s q) ->
  delivers source c c'.
Proof.
  intros Hn Hb Hd Hnext Hbuf. exists new. rewrite Hd. cbn.
  rewrite Z.add_0_r, (u64_small _ Hn). repeat split; auto.
  intros s q [].
Qed.

Lemma consume_loop_delivers (rest : list optional_event) (c : consumer) :
  0 <= next_seq_ c <= seq_max ->
  delivers (fun s q => In (mk_optional_event s (Some q)) rest)
           c (consume_loop c rest).
Proof.
  revert c. induction rest as [|x rest IH]; intros c Hn.
  - apply (delivers_nothing _ _ _ []); cbn; auto.
    symmetry. apply app_nil_r.
  - cbn [Consumer.consume_loop].
    assert (Hnext : forall k d,
               deliveries [k] = [(next_seq_ c, d)] ->
               (forall q, d = Some q ->
                          x = mk_optional_event (next_seq_ c) (Some q)) ->
               delivers
                 (fun s q => In (mk_optional_event s (Some q)) (x :: rest))
                 c (consume_loop (bump_seq (call_backend k c)) rest)).
    { intros k d Hk Hd.
      destruct (IH (bump_seq (call_backend k c)))
        as (new & Hb & Hpos & Hnx & Hsrc & Hbuf);
        [cbn; apply u64_range|].
      cbn in Hb, Hpos, Hnx.
      exists (k :: new).
      assert (Hdel : deliveries (k :: new)
                     = (next_seq_ c, d) :: deliveries new).
      { rewrite deliveries_cons, Hk. reflexivity. }
      rewrite Hdel. cbn [length map fst].
      rewrite positions_cons by exact Hn. rewrite <- Hpos.
      repeat split.
      - rewrite Hb, <- app_assoc. reflexivity.
      - rewrite Hnx, u64_idem_succ. f_equal. lia.
      - intros s q [Heq|Hin].
        + injection Heq as <- ->. left. apply Hd. reflexivity.
        + right. apply Hsrc. exact Hin.
      - intros s q Hin. right. apply Hbuf. exact Hin. }
    destruct (oe_seq x =? next_seq_ c) eqn:E.
    + apply Z.eqb_eq in E. destruct x as [xs [payload|]]; cbn in *; subst xs.
      * apply (Hnext _ (Some payload)); [reflexivity|].
        intros q [= ->]. reflexivity.
      * destruct (consume_nil_answer c) as [err|].
        -- apply (delivers_nothing _ _ _
                    [consume_nil (next_seq_ c) (Some err); close err]);
             cbn; auto.
           rewrite <- app_assoc. reflexivity.
        -- apply (Hnext _ None); [reflexivity|]. intros q [=].
    + apply (delivers_nothing _ _ _ []); cbn; auto.
      symmetry. apply app_nil_r.
Qed.

Lemma delivers_weaken (source source' : Z -> Payload -> Prop)
      (c c' : consumer) :
  (forall s q, source s q -> source' s q) ->
  delivers source c c' -> delivers source' c c'.
Proof.
  intros Himp (new & Hb & Hpos & Hnx & Hsrc & Hbuf).
  exists new. repeat split; auto.
Qed.

(** A call followed by a bump and the draining of the buffer. *)
Lemma bump_delivers (c : consumer) k d :
  0 <= next_seq_ c <= seq_max ->
  deliveries [k] = [(next_seq_ c, d)] ->
  delivers
    (fun s q => (s = next_seq_ c /\ d = Some q)
                \/ In (mk_optional_event s (Some q)) (buf_ c))
    c (try_consume_buffer consume_nil_answer (bump_seq (call_backend k c))).
Proof.
  intros Hn Hk. unfold try_consume_buffer.
  destruct (consume_loop_delivers (buf_ c) (bump_seq (call_backend k c)))
    as (new & Hb & Hpos & Hnx & Hsrc & Hbuf);
    [cbn; apply u64_range|].
  cbn in Hb, Hpos, Hnx. cbn [buf_ bump_seq call_backend].
  exists (k :: new).
  assert (Hdel : deliveries (k :: new) = (next_seq_ c, d) :: deliveries new).
  { rewrite deliveries_cons, Hk. reflexivity. }
  rewrite Hdel. cbn [length map fst].
  rewrite positions_cons by exact Hn. rewrite <- Hpos.
  repeat split.
  - rewrite Hb, <- app_assoc. reflexivity.
  - rewrite Hnx, u64_idem_succ. f_equal. lia.
  - intros s q [Heq|Hin].
    + injection Heq as <- ->. left. auto.
    + right. apply Hsrc. exact Hin.
  - intros s q Hin. right. apply Hbuf. exact Hin.
Qed.

Lemma insert_event_In seq payload (b : list optional_event) y :
  In y (insert_event seq payload b) ->
  y = mk_optional_event seq (Some payload) \/ In y b.
Proof.
  induction b as [|x rest IH]; cbn.
  - intros [<-|[]]. auto.
  - destruct (oe_seq x >=? seq).
    + destruct (oe_seq x =? seq) eqn:E; cbn.
      * apply Z.eqb_eq in E. destruct (content x); cbn; [tauto|].
        rewrite E. intuition congruence.
      * intuition congruence.
    + cbn. tauto.
Qed.

Lemma insert_nil_In seq (b : list optional_event) y :
  In y (insert_nil seq b) -> y = mk_optional_event seq None \/ In y b.
Proof.
  induction b as [|x rest IH]; cbn.
  - intros [<-|[]]. auto.
  - destruct (oe_seq x >=? seq).
    + destruct (oe_seq x =? seq); cbn; intuition congruence.
    + cbn. tauto.
Qed.

Lemma handle_event_delivers (c : consumer) seq payload :
  0 <= next_seq_ c <= seq_max ->
  delivers
    (fun s q => (s = seq /\ q = payload)
                \/ In (mk_optional_event s (Some q)) (buf_ c))
    c (handle_event consume_nil_answer seq payload c).
Proof.
  intros Hn. unfold handle_event.
  destruct (next_seq_ c =? seq) eqn:E.
  - apply Z.eqb_eq in E.
    eapply delivers_weaken;
      [|apply (bump_delivers c _ (Some payload) Hn); reflexivity].
    cbn. intros s q [[-> [= ->]]|H]; auto.
  - destruct (seq >? next_seq_ c).
    + apply (delivers_nothing _ _ _ []); auto.
      * destruct (seq >? last_seq_ c); cbn; symmetry; apply app_nil_r.
      * destruct (seq >? last_seq_ c); reflexivity.
      * intros s q Hin.
        assert (Hin' : In (mk_optional_event s (Some q))
                          (insert_event seq payload (buf_ c)))
          by (destruct (seq >? last_seq_ c); exact Hin).
        apply insert_event_In in Hin'. destruct Hin' as [[= -> ->]|H]; auto.
    + apply (delivers_nothing _ _ _ []); auto. symmetry. apply app_nil_r.
Qed.

Lemma handle_retransmit_failed_delivers (c : consumer) seq :
  0 <= next_seq_ c <= seq_max ->
  delivers (fun s q => In (mk_optional_event s (Some q)) (buf_ c))
           c (handle_retransmit_failed consume_nil_answer seq c).
Proof.
  intros Hn. unfold handle_retransmit_failed.
  destruct (next_seq_ c =? seq) eqn:E.
  - destruct (consume_nil_answer c) as [err|].
    + apply (delivers_nothing _ _ _
               [consume_nil (next_seq_ c) (Some err); close err]);
        cbn; auto.
      rewrite <- app_assoc. reflexivity.
    + eapply delivers_weaken;
        [|apply (bump_delivers c _ None Hn); reflexivity].
      cbn. intros s q [[_ [=]]|H]. exact H.
  - destruct (seq >? next_seq_ c).
    + apply (delivers_nothing _ _ _ []); auto.
      * symmetry. apply app_nil_r.
      * intros s q Hin. apply insert_nil_In in Hin.
        destruct Hin as [[=]|H]. exact H.
    + apply (delivers_nothing _ _ _ []); auto. symmetry. apply app_nil_r.
Qed.

Lemma tick_delivers (c : consumer) :
  0 <= next_seq_ c <= seq_max ->
  delivers (fun s q => In (mk_optional_event s (Some q)) (buf_ c))
           c (tick c).
Proof.
  intros Hn.
  destruct (tick_frame_consumer Payload Error c) as (Hnx & _ & Hb).
  assert (Hnew : exists new, backend_ (tick c) = backend_ c ++ new
                             /\ deliveries new = []).
  { unfold tick, send_ack. cbn zeta.
    repeat match goal with
           | |- context [if ?b then _ else _] => destruct b
           end; cbn;
      first [ exists []; split; [symmetry; apply app_nil_r|reflexivity]
            | eexists [_]; split; reflexivity ]. }
  destruct Hnew as (new & Hback & Hdel).
  apply (delivers_nothing _ _ _ new); auto.
  rewrite Hb. auto.
Qed.

End ConsumerDelivery.

Section SystemDelivery.

Import System.

Variables Handle Payload Error : Type.
Variable Handle_eq_dec : forall a b : Handle, {a = b} + {a <> b}.
Variable consume_nil_answer : Consumer.consumer Payload Error -> option Error.

Local Abbreviation producer := (Producer.producer Handle Payload).
Local Abbreviation consumer := (Consumer.consumer Payload Error).
Local Abbreviation action := (action Payload).
Local Abbreviation step := (@step Handle Payload Error consume_nil_answer).
Local Abbreviation run := (@run Handle Payload Error consume_nil_answer).
Local Abbreviation admissible :=
  (@admissible Handle Payload Error consume_nil_answer).
Local Abbreviation delivers := (@System.delivers Payload Error).
Local Abbreviation deliveries := (@deliveries Payload Error).

Lemma sent_events_call k (p : producer) :
  sent_events (Producer.call_backend k p)
  = sent_events p ++ sent_events (Producer.call_backend k
                                    (Producer.initial Handle Payload)).
Proof.
  unfold sent_events. cbn [Producer.backend_ Producer.call_backend
                            Producer.initial app].
  apply flat_map_app.
Qed.

Lemma sent_events_tick (p : producer) :
  sent_events (Producer.tick p) = sent_events p.
Proof.
  unfold Producer.tick.
  destruct ((Producer.heartbeat_interval_ p >? 0)
            && (Lamport.plus (Producer.last_broadcast_ p)
                             (Producer.heartbeat_interval_ p)
                =? Lamport.incr (Producer.tick_ p))); [|reflexivity].
  unfold sent_events. cbn [Producer.backend_].
  rewrite flat_map_app. cbn. apply app_nil_r.
Qed.

Lemma sent_events_produce content (p : producer) :
  sent_events (Producer.produce content p) = sent_events p
  \/ (sent_events (Producer.produce content p)
      = sent_events p ++ [mk_event (u64 (Producer.seq_ p + 1)) content]
      /\ Producer.seq_ (Producer.produce content p)
         = u64 (Producer.seq_ p + 1)).
Proof.
  unfold Producer.produce. destruct (Producer.paths_ p); [left; reflexivity|].
  right. unfold sent_events. cbn [Producer.backend_ Producer.seq_].
  rewrite flat_map_app. cbn. auto.
Qed.

Lemma produce_seq content (p : producer) :
  Producer.seq_ (Producer.produce content p) = Producer.seq_ p
  \/ Producer.seq_ (Producer.produce content p) = u64 (Producer.seq_ p + 1).
Proof.
  unfold Producer.produce. destruct (Producer.paths_ p); cbn; auto.
Qed.

Lemma produce_history content (p : producer) :
  0 <= Producer.seq_ p < seq_max ->
  history_ok p -> history_ok (Producer.produce content p).
Proof.
  intros Hseq (Hle & Hfun).
  assert (Hu : u64 (Producer.seq_ p + 1) = Producer.seq_ p + 1)
    by (apply u64_small; lia).
  destruct (sent_events_produce content p) as [E|[E Es]].
  - unfold history_ok. rewrite E. split; [|exact Hfun].
    eapply Forall_impl; [|exact Hle]. cbn. intros e He.
    destruct (produce_seq content p) as [->| ->]; lia.
  - unfold history_ok. rewrite E, Es, Hu. split.
    + apply Forall_app. split.
      * eapply Forall_impl; [|exact Hle]. cbn. intros; lia.
      * constructor; [cbn; lia|constructor].
    + rewrite Forall_forall in Hle.
      intros e1 e2 H1 H2 Heq.
      apply in_app_or in H1. apply in_app_or in H2.
      destruct H1 as [H1|[<-|[]]]; destruct H2 as [H2|[<-|[]]].
      * apply Hfun; assumption.
      * specialize (Hle e1 H1). cbn in Heq. lia.
      * specialize (Hle e2 H2). cbn in Heq. lia.
      * reflexivity.
Qed.

Lemma delivers_compose (source1 source2 source : Z -> Payload -> Prop)
      (c c1 c2 : consumer) :
  (forall s q, source1 s q -> source s q) ->
  (forall s q, source2 s q -> source s q) ->
  delivers source1 c c1 -> delivers source2 c1 c2 -> delivers source c c2.
Proof.
  intros H1 H2 (new1 & Hb1 & Hp1 & Hn1 & Hs1 & _)
         (new2 & Hb2 & Hp2 & Hn2 & Hs2 & Hbuf2).
  exists (new1 ++ new2).
  assert (Hdel : deliveries (new1 ++ new2)
                 = deliveries new1 ++ deliveries new2)
    by apply flat_map_app.
  rewrite Hdel, length_app, map_app, positions_app, Hp1, <- Hn1, Hp2.
  repeat split.
  - rewrite Hb2, Hb1, app_assoc. reflexivity.
  - rewrite Hn2, Hn1, u64_idem_succ. f_equal. lia.
  - intros s q Hin. apply in_app_or in Hin. destruct Hin; auto.
  - auto.
Qed.

Lemma run_delivers (tr : list action) (p : producer) (c : consumer) :
  0 <= Producer.seq_ p ->
  Producer.seq_ p + produce_count tr <= seq_max ->
  0 <= Consumer.next_seq_ c <= seq_max ->
  history_ok p ->
  buffered_from p c ->
  admissible tr (p, c) ->
  history_ok (fst (run tr (p, c)))
  /\ (forall e, In e (sent_events p) ->
                In e (sent_events (fst (run tr (p, c)))))
  /\ delivers (fun s q => In (mk_event s q)
                             (sent_events (fst (run tr (p, c)))))
              c (snd (run tr (p, c))).
Proof.
  revert p c. induction tr as [|a tr IH];
    intros p c Hseq Hcount Hn Hhist Hbuf Hadm.
  - unfold System.run. cbn [fold_left fst snd].
    split; [exact Hhist|]. split; [auto|].
    apply (delivers_nothing _ _ _ _ _ []); auto.
    symmetry. apply app_nil_r.
  - destruct Hadm as [Ha Hadm].
    assert (Hconsumer : forall c1 source,
               run (a :: tr) (p, c) = run tr (p, c1) ->
               step (p, c) a = (p, c1) ->
               produce_count (a :: tr) = produce_count tr ->
               (forall s q, source s q -> In (mk_event s q) (sent_events p)) ->
               delivers source c c1 ->
               history_ok (fst (run (a :: tr) (p, c)))
               /\ (forall e, In e (sent_events p) ->
                             In e (sent_events (fst (run (a :: tr) (p, c)))))
               /\ delivers
                    (fun s q => In (mk_event s q)
                                   (sent_events (fst (run (a :: tr) (p, c)))))
                    c (snd (run (a :: tr) (p, c)))).
    { intros c1 source Hrun Hstep Hpc Hsrc Hdel.
      rewrite Hpc in Hcount. rewrite Hstep in Hadm. rewrite Hrun.
      assert (Hn1 : 0 <= Consumer.next_seq_ c1 <= seq_max).
      { destruct Hdel as (new & _ & _ & -> & _). apply u64_range. }
      assert (Hbuf1 : buffered_from p c1).
      { destruct Hdel as (new & _ & _ & _ & _ & Hb).
        intros s q Hin. apply Hsrc, Hb. exact Hin. }
      destruct (IH p c1 Hseq Hcount Hn1 Hhist Hbuf1 Hadm)
        as (Hh & Hmono & Hd).
      split; [exact Hh|]. split; [exact Hmono|].
      eapply delivers_compose; [| |exact Hdel|exact Hd]; cbn; auto. }
    assert (Hproducer : forall p1,
               run (a :: tr) (p, c) = run tr (p1, c) ->
               step (p, c) a = (p1, c) ->
               0 <= Producer.seq_ p1 ->
               Producer.seq_ p1 + produce_count tr <= seq_max ->
               history_ok p1 ->
               (forall e, In e (sent_events p) -> In e (sent_events p1)) ->
               history_ok (fst (run (a :: tr) (p, c)))
               /\ (forall e, In e (sent_events p) ->
                             In e (sent_events (fst (run (a :: tr) (p, c)))))
               /\ delivers
                    (fun s q => In (mk_event s q)
                                   (sent_events (fst (run (a :: tr) (p, c)))))
                    c (snd (run (a :: tr) (p, c)))).
    { intros p1 Hrun Hstep Hseq1 Hcount1 Hhist1 Hmono1.
      rewrite Hstep in Hadm. rewrite Hrun.
      assert (Hbuf1 : buffered_from p1 c).
      { intros s q Hin. apply Hmono1, Hbuf. exact Hin. }
      destruct (IH p1 c Hseq1 Hcount1 Hn Hhist1 Hbuf1 Hadm)
        as (Hh & Hmono & Hd).
      split; [exact Hh|]. split; [auto|exact Hd]. }
    destruct a as [content|seq payload|seq| |].
    + assert (Hpc : produce_count (produce content :: tr)
                    = produce_count tr + 1).
      { unfold produce_count. cbn [filter length]. lia. }
      rewrite Hpc in Hcount.
      pose proof (Z.le_refl (produce_count tr)) as _.
      assert (0 <= produce_count tr) by (unfold produce_count; lia).
      apply (Hproducer (Producer.produce content p));
        try reflexivity.
      * destruct (produce_seq content p) as [->| ->];
          [lia|apply u64_range].
      * destruct (produce_seq content p) as [->| ->]; [lia|].
        rewrite u64_small; lia.
      * apply produce_history; [lia|exact Hhist].
      * intros e He.
        destruct (sent_events_produce content p) as [->|[-> _]];
          [exact He|]. apply in_or_app. left. exact He.
    + eapply (Hconsumer
                (Consumer.handle_event consume_nil_answer seq payload c));
        try reflexivity;
        [|apply handle_event_delivers; exact Hn].
      cbn. intros s q [[-> ->]|Hin]; [exact Ha|apply Hbuf; exact Hin].
    + eapply (Hconsumer
                (Consumer.handle_retransmit_failed consume_nil_answer seq c));
        try reflexivity;
        [|apply handle_retransmit_failed_delivers; exact Hn].
      cbn. intros s q Hin. apply Hbuf. exact Hin.
    + apply (Hproducer (Producer.tick p)); try reflexivity.
      * destruct (tick_frame Handle Payload p) as [-> _]. exact Hseq.
      * destruct (tick_frame Handle Payload p) as [-> _]. exact Hcount.
      * destruct Hhist as [Hle Hfun]. unfold history_ok.
        rewrite sent_events_tick.
        destruct (tick_frame Handle Payload p) as [-> _]. auto.
      * rewrite sent_events_tick. auto.
    + eapply (Hconsumer (Consumer.tick c)); try reflexivity;
        [|apply tick_delivers; exact Hn].
      cbn. intros s q Hin. apply Hbuf. exact Hin.
Qed.

(** C1 (delivery ordering).  Take a producer and a consumer in any states
    such that the events the producer has sent carry sequence numbers up to
    [seq_] with one payload each, and the payloads the consumer has buffered
    are among them.  Run any trace of [produce], [handle_event],
    [handle_retransmit_failed] and [tick] in which every event handed to
    the consumer is one the producer has sent and in which [seq_] does not
    wrap around.  Then the calls of [consume] and the accepted calls of
    [consume_nil] that the consumer makes during the trace stand at the
    consecutive positions [next_seq_], [next_seq_ + 1], ... of its start
    state, in this order and each position once, and [next_seq_] ends one
    past the last of them; a payload delivered at position [s] is the
    payload the producer assigned to the sequence number [s], and a
    position without payload is a call of [consume_nil] made when
    [next_seq_] was that position. *)
Theorem delivery_ordering (tr : list action) (p0 : producer) (c0 : consumer) :
  0 <= Producer.seq_ p0 ->
  Producer.seq_ p0 + produce_count tr <= seq_max ->
  0 <= Consumer.next_seq_ c0 <= seq_max ->
  history_ok p0 ->
  buffered_from p0 c0 ->
  admissible tr (p0, c0) ->
  let p := fst (run tr (p0, c0)) in
  let c := snd (run tr (p0, c0)) in
  exists new,
    Consumer.backend_ c = Consumer.backend_ c0 ++ new
    /\ map fst (deliveries new)
       = positions (Consumer.next_seq_ c0) (length (deliveries new))
    /\ (Consumer.next_seq_ c0 + Z.of_nat (length (deliveries new))
        <= seq_max + 1 ->
        map fst (deliveries new)
        = count_up (Consumer.next_seq_ c0)
                   (Consumer.next_seq_ c0
                    + Z.of_nat (length (deliveries new))))
    /\ Consumer.next_seq_ c
       = u64 (Consumer.next_seq_ c0 + Z.of_nat (length (deliveries new)))
    /\ (forall s q,
           In (s, Some q) (deliveries new) ->
           In (mk_event s q) (sent_events p))
    /\ (forall s,
           In (s, None) (deliveries new) ->
           In (Consumer.consume_nil s None) new)
    /\ history_ok p.
Proof.
  intros Hseq Hcount Hn Hhist Hbuf Hadm. cbn zeta.
  destruct (run_delivers tr p0 c0 Hseq Hcount Hn Hhist Hbuf Hadm)
    as (Hh & _ & new & Hb & Hpos & Hnx & Hsrc & _).
  exists new.
  split; [exact Hb|]. split; [exact Hpos|]. split; [|split; [exact Hnx|]].
  2: split; [exact Hsrc|]. 2: split; [|exact Hh].
  - intros Hfit. rewrite Hpos. apply positions_count_up; lia.
  - intros s Hin. unfold System.deliveries in Hin.
    apply in_flat_map in Hin. destruct Hin as (k & Hk & Hin).
    destruct k as [s' q|s' [err|]|m|err]; cbn in Hin;
      try contradiction; destruct Hin as [Heq|[]]; [discriminate|].
    injection Heq as ->. exact Hk.
Qed.

End SystemDelivery.

(** * Concrete runs

    Handles, payloads and errors are natural numbers; the backend of the
    consumer accepts every gap. *)

Section ConcreteRuns.

Local Abbreviation accept := (fun _ : Consumer.consumer nat nat => @None nat).
Local Abbreviation fresh_producer := (Producer.initial nat nat).
Local Abbreviation fresh_consumer := (Consumer.initial nat nat).

Ltac compute_goal :=
  vm_compute; repeat split;
  repeat (first [ reflexivity | discriminate | constructor ]).

(** A property of every element of a list that computes to a literal. *)
Ltac forall_by_computation :=
  match goal with
  | |- Forall ?P ?l =>
    let l' := eval vm_compute in l in
    change (Forall P l');
    repeat (apply Forall_cons;
            [vm_compute; first [reflexivity | discriminate]|]);
    apply Forall_nil
  end.


(** ** Scenarios of the channel *)

(** In-order delivery, the ACK after five ticks, and the empty, idle
    producer after that ACK. *)
Example in_order_happy_path :
  let p := Producer.run Nat.eq_dec
             [Producer.op_add 1%nat; Producer.op_produce 10%nat;
              Producer.op_produce 20%nat; Producer.op_produce 30%nat]
             fresh_producer in
  let c := Consumer.run accept
             [Consumer.op_handle_handshake 0 5;
              Consumer.op_handle_event 1 10%nat;
              Consumer.op_handle_event 2 20%nat;
              Consumer.op_handle_event 3 30%nat;
              Consumer.op_tick; Consumer.op_tick; Consumer.op_tick;
              Consumer.op_tick; Consumer.op_tick]
             fresh_consumer in
  Consumer.backend_ c
  = [Consumer.consume 1 10%nat; Consumer.consume 2 20%nat;
     Consumer.consume 3 30%nat; Consumer.send (cumulative_ack 3)]
  /\ Producer.buf_ (Producer.handle_ack Nat.eq_dec 1%nat 3 p) = []
  /\ Producer.idle (Producer.handle_ack Nat.eq_dec 1%nat 3 p) = true.
Proof. compute_goal. Qed.

(** Events 2 and 3 wait in the buffer until event 1 arrives. *)
Example reorder_then_deliver :
  let c := Consumer.run accept
             [Consumer.op_handle_handshake 0 5;
              Consumer.op_handle_event 2 20%nat;
              Consumer.op_handle_event 3 30%nat]
             fresh_consumer in
  Consumer.next_seq_ c = 1
  /\ Consumer.backend_ c = []
  /\ map Consumer.oe_seq (Consumer.buf_ c) = [2; 3]
  /\ Consumer.backend_ (Consumer.handle_event accept 1 10%nat c)
     = [Consumer.consume 1 10%nat; Consumer.consume 2 20%nat;
        Consumer.consume 3 30%nat]
  /\ Consumer.buf_ (Consumer.handle_event accept 1 10%nat c) = [].
Proof. compute_goal. Qed.

(** A gap at 3 is reported after three idle ticks; a failed retransmission
    lets the consumer pass the gap and deliver 4 and 5. *)
Example gap_nack_and_retransmit_failed :
  let c := Consumer.run accept
             [Consumer.op_handle_handshake 0 5;
              Consumer.op_handle_event 1 10%nat;
              Consumer.op_handle_event 2 20%nat;
              Consumer.op_handle_event 4 40%nat;
              Consumer.op_handle_event 5 50%nat;
              Consumer.op_tick; Consumer.op_tick; Consumer.op_tick;
              Consumer.op_tick]
             (Consumer.set_nack_timeout 3 fresh_consumer) in
  Consumer.backend_ c
  = [Consumer.consume 1 10%nat; Consumer.consume 2 20%nat;
     Consumer.send (nack [3])]
  /\ Consumer.backend_ (Consumer.handle_retransmit_failed accept 3 c)
     = Consumer.backend_ c
       ++ [Consumer.consume_nil 3 None; Consumer.consume 4 40%nat;
           Consumer.consume 5 50%nat].
Proof. compute_goal. Qed.

(** Two consumers: the buffer keeps what the slower one has not
    acknowledged. *)
Example multi_consumer_ack_minimum :
  let p := Producer.run Nat.eq_dec
             [Producer.op_add 1%nat; Producer.op_add 2%nat;
              Producer.op_produce 1%nat; Producer.op_produce 2%nat;
              Producer.op_produce 3%nat; Producer.op_produce 4%nat;
              Producer.op_produce 5%nat; Producer.op_produce 6%nat;
              Producer.op_produce 7%nat; Producer.op_produce 8%nat;
              Producer.op_produce 9%nat; Producer.op_produce 10%nat;
              Producer.op_handle_ack 1%nat 10;
              Producer.op_handle_ack 2%nat 7]
             fresh_producer in
  map ev_seq (Producer.buf_ p) = [8; 9; 10].
Proof. compute_goal. Qed.

(** ** Where the code departs from a claim *)


(** C3: an event buffered before a handshake that starts the consumer
    behind it leaves a slot below [next_seq_]. *)
Lemma slot_below_next_seq :
  let c := Consumer.run accept
             [Consumer.op_handle_event 3 30%nat;
              Consumer.op_handle_handshake 5 5]
             fresh_consumer in
  Consumer.next_seq_ c = 6
  /\ Consumer.buf_ c = [Consumer.mk_optional_event 3 (Some 30%nat)]
  /\ Consumer.closed c = false.
Proof. compute_goal. Qed.

(** C4: a handshake lowers [last_seq_] from 5 to 1. *)
Lemma handshake_lowers_last_seq :
  let c := Consumer.handle_event accept 5 50%nat fresh_consumer in
  Consumer.last_seq_ c = 5
  /\ Consumer.last_seq_ (Consumer.handle_handshake accept 0 5 c) = 1.
Proof. compute_goal. Qed.

(** C5: an ACK for a sequence number that was never assigned puts [acked]
    above [seq_]. *)
Lemma acked_above_seq :
  let p := Producer.run Nat.eq_dec
             [Producer.op_add 1%nat; Producer.op_handle_ack 1%nat 5]
             fresh_producer in
  Producer.seq_ p = 0 /\ map Producer.acked (Producer.paths_ p) = [5].
Proof. compute_goal. Qed.

(** C6: after three silent ticks the heartbeat interval is set to 2; the
    last broadcast is then further back than the interval, and four more
    ticks, twice the interval, broadcast no heartbeat. *)
Lemma no_heartbeat_after_missed_deadline :
  let p := Producer.set_heartbeat_interval 2
             (Producer.ticks 3 fresh_producer) in
  Producer.heartbeat_interval_ p = 2
  /\ Producer.since_broadcast p = 3
  /\ Producer.heartbeats (Producer.backend_ (Producer.ticks 4 p)) = 0%nat
  /\ 4 / Producer.heartbeat_interval_ p = 2.
Proof. compute_goal. Qed.

(** ** What the hypotheses of the theorems exclude *)

(** Wrap-around of [next_seq_] (hypothesis of C8): a consumer that expects
    the largest 64-bit number delivers the event and wraps to 0; the same
    event is then ahead of [next_seq_] again and a second [handle_event]
    buffers it. *)
Example handle_event_at_the_largest_number :
  let c := Consumer.handle_handshake accept (seq_max - 1) 5 fresh_consumer in
  let c1 := Consumer.handle_event accept seq_max 10%nat c in
  Consumer.next_seq_ c = seq_max
  /\ Consumer.next_seq_ c1 = 0
  /\ Consumer.buf_ c1 = []
  /\ Consumer.buf_ (Consumer.handle_event accept seq_max 10%nat c1)
     = [Consumer.mk_optional_event seq_max (Some 10%nat)].
Proof. compute_goal. Qed.

(** A producer that is not well-formed (hypothesis of C7): an ACK for 7 when
    only event 1 exists leaves [acked] above [seq_]; the next event is then
    buffered although its path counts as having acknowledged it, and
    [handle_ack] with the current [seq_] returns at its first test. *)
Example ack_all_on_an_ill_formed_producer :
  let p := Producer.run Nat.eq_dec
             [Producer.op_add 1%nat; Producer.op_produce 10%nat;
              Producer.op_handle_ack 1%nat 7; Producer.op_produce 20%nat]
             fresh_producer in
  Producer.seq_ p = 2
  /\ map Producer.acked (Producer.paths_ p) = [7]
  /\ map ev_seq (Producer.buf_ p) = [2]
  /\ map ev_seq
       (Producer.buf_
          (Producer.ack_all Nat.eq_dec
                            (map Producer.hdl (Producer.paths_ p)) p))
     = [2].
Proof. compute_goal. Qed.

(** ** The theorems at concrete inputs *)

(** C1 at a run with a gap: events 1, 2 and 3 are produced, 3 and 1 arrive
    and the retransmission of 2 fails. *)
Lemma delivery_ordering_witness :
  let p0 := fst (Producer.add Nat.eq_dec 1%nat fresh_producer) in
  let c0 := Consumer.handle_handshake accept 0 5 fresh_consumer in
  let tr := [System.produce 10%nat; System.produce 20%nat;
             System.produce 30%nat; System.handle_event 3 30%nat;
             System.handle_event 1 10%nat; System.consumer_tick;
             System.handle_retransmit_failed 2] in
  (0 <= Producer.seq_ p0
   /\ Producer.seq_ p0 + System.produce_count tr <= seq_max
   /\ 0 <= Consumer.next_seq_ c0 <= seq_max
   /\ System.history_ok p0
   /\ System.buffered_from p0 c0
   /\ System.admissible accept tr (p0, c0))
  /\ exists new,
      Consumer.backend_ (snd (System.run accept tr (p0, c0)))
      = Consumer.backend_ c0 ++ new
      /\ map fst (System.deliveries new)
         = System.positions (Consumer.next_seq_ c0)
                            (length (System.deliveries new))
      /\ Consumer.next_seq_ (snd (System.run accept tr (p0, c0)))
         = u64 (Consumer.next_seq_ c0
                + Z.of_nat (length (System.deliveries new))).
Proof.
  cbn zeta.
  set (p0 := fst (Producer.add Nat.eq_dec 1%nat fresh_producer)).
  set (c0 := Consumer.handle_handshake accept 0 5 fresh_consumer).
  set (tr := [System.produce 10%nat; System.produce 20%nat;
              System.produce 30%nat; System.handle_event 3 30%nat;
              System.handle_event 1 10%nat; System.consumer_tick;
              System.handle_retransmit_failed 2]).
  assert (H1 : 0 <= Producer.seq_ p0) by (vm_compute; discriminate).
  assert (H2 : Producer.seq_ p0 + System.produce_count tr <= seq_max)
    by (vm_compute; discriminate).
  assert (H3 : 0 <= Consumer.next_seq_ c0 <= seq_max)
    by (vm_compute; split; discriminate).
  assert (H4 : System.history_ok p0).
  { split; [constructor|]. intros e1 e2 []. }
  assert (H5 : System.buffered_from p0 c0) by (intros s q []).
  assert (H6 : System.admissible accept tr (p0, c0)).
  { vm_compute. repeat split; auto. }
  split; [repeat split; solve [apply H1|apply H2|apply H3|apply H4
                              |apply H5|apply H6]|].
  destruct (delivery_ordering nat nat nat accept tr p0 c0 H1 H2 H3 H4 H5 H6)
    as (new & Hb & Hpos & _ & Hnx & _).
  exists new. repeat split; assumption.
Defined.


(** C3 at a run with reordered events and a lost one. *)
Lemma buffer_invariant_witness :
  let ops := [Consumer.op_handle_event 3 30%nat;
              Consumer.op_handle_handshake 0 5;
              Consumer.op_handle_retransmit_failed 5;
              Consumer.op_handle_event 1 10%nat;
              Consumer.op_tick] in
  Consumer.run_allowed accept ops fresh_consumer = true
  /\ Consumer.buffer_ordered (Consumer.run accept ops fresh_consumer).
Proof.
  cbn zeta.
  set (ops := [Consumer.op_handle_event 3 30%nat;
               Consumer.op_handle_handshake 0 5;
               Consumer.op_handle_retransmit_failed 5;
               Consumer.op_handle_event 1 10%nat;
               Consumer.op_tick]).
  assert (H : Consumer.run_allowed accept ops fresh_consumer = true)
    by reflexivity.
  split; [exact H|].
  exact (proj2 (buffer_invariant nat nat accept ops) H).
Defined.

(** C4 at an accepted handshake. *)
Lemma last_seq_monotone_witness :
  let c := Consumer.handle_event accept 5 50%nat fresh_consumer in
  Consumer.next_seq_ c <= 7
  /\ u64 (7 + 1)
     <= Consumer.last_seq_ (Consumer.handle_handshake accept 7 5 c).
Proof.
  cbn zeta.
  assert (H : Consumer.next_seq_
                (Consumer.handle_event accept 5 50%nat fresh_consumer) <= 7)
    by (vm_compute; discriminate).
  split; [exact H|].
  exact (proj2 (proj2 (proj2 (proj2 (proj2
           (last_seq_monotone nat nat accept
              (Consumer.handle_event accept 5 50%nat fresh_consumer))))))
           7 5 H).
Defined.

(** C5 at a run of two consumers. *)
Lemma path_invariant_witness :
  let ops := [Producer.op_add 1%nat; Producer.op_add 2%nat;
              Producer.op_produce 10%nat; Producer.op_produce 20%nat;
              Producer.op_produce 30%nat; Producer.op_handle_ack 1%nat 2;
              Producer.op_handle_nack 2%nat [2; 3]; Producer.op_tick] in
  Producer.run_in_range Nat.eq_dec ops fresh_producer = true
  /\ Forall (fun x => Producer.offset x <= Producer.acked x
                      <= Producer.seq_
                           (Producer.run Nat.eq_dec ops fresh_producer))
            (Producer.paths_ (Producer.run Nat.eq_dec ops fresh_producer)).
Proof.
  cbn zeta.
  set (ops := [Producer.op_add 1%nat; Producer.op_add 2%nat;
               Producer.op_produce 10%nat; Producer.op_produce 20%nat;
               Producer.op_produce 30%nat; Producer.op_handle_ack 1%nat 2;
               Producer.op_handle_nack 2%nat [2; 3]; Producer.op_tick]).
  assert (H : Producer.run_in_range Nat.eq_dec ops fresh_producer = true)
    by reflexivity.
  split; [exact H|].
  exact (proj1 (proj2 (path_invariant nat nat Nat.eq_dec ops) H)).
Defined.

(** C6 at a fresh producer: twelve ticks, two heartbeats. *)
Lemma heartbeat_cadence_witness :
  (0 < Producer.heartbeat_interval_ fresh_producer < 2 ^ 16
   /\ Producer.since_broadcast fresh_producer
      < Producer.heartbeat_interval_ fresh_producer)
  /\ Producer.backend_ (Producer.ticks 12 fresh_producer)
     = [Producer.broadcast (heartbeat 0); Producer.broadcast (heartbeat 0)].
Proof.
  assert (H1 : 0 < Producer.heartbeat_interval_ fresh_producer < 2 ^ 16)
    by (vm_compute; split; reflexivity).
  assert (H2 : Producer.since_broadcast fresh_producer
               < Producer.heartbeat_interval_ fresh_producer)
    by reflexivity.
  split; [split; assumption|].
  exact (proj1 (heartbeat_cadence nat nat fresh_producer 12 H1 H2)).
Defined.


(** C8 at an event that is delivered at once and drains the buffer. *)
Lemma handle_event_idempotent_witness :
  let c := Consumer.run accept
             [Consumer.op_handle_handshake 0 5;
              Consumer.op_handle_event 2 20%nat]
             fresh_consumer in
  (0 <= 1 < seq_max
   /\ Forall (fun x => Consumer.oe_seq x < seq_max) (Consumer.buf_ c))
  /\ Consumer.handle_event accept 1 11%nat
       (Consumer.handle_event accept 1 10%nat c)
     = Consumer.handle_event accept 1 10%nat c.
Proof.
  cbn zeta.
  set (c := Consumer.run accept _ _).
  assert (H1 : 0 <= 1 < seq_max) by (vm_compute; split; [discriminate|reflexivity]).
  assert (H2 : Forall (fun x => Consumer.oe_seq x < seq_max)
                      (Consumer.buf_ c)) by forall_by_computation.
  split; [split; assumption|].
  exact (proj1 (handle_event_idempotent nat nat accept c 1 10%nat 11%nat
                                        H1 H2)).
Defined.

(** C9 at a producer with one path. *)
Lemma nack_zero_rehandshake_witness :
  let p := fst (Producer.add Nat.eq_dec 7%nat fresh_producer) in
  let x := Producer.mk_path 7%nat 0 0 Lamport.initial Lamport.initial in
  Producer.find_path Nat.eq_dec 7%nat p = Some x
  /\ Producer.backend_ (Producer.handle_nack Nat.eq_dec 7%nat [0; 4] p)
     = Producer.backend_ p ++ [Producer.send 7%nat (handshake 0 5)].
Proof.
  cbn zeta. split; [reflexivity|].
  exact (proj1 (nack_zero_rehandshake nat nat Nat.eq_dec 7%nat [4]
                  (fst (Producer.add Nat.eq_dec 7%nat fresh_producer))
                  (Producer.mk_path 7%nat 0 0 Lamport.initial Lamport.initial)
                  eq_refl)).
Defined.

(** C10 at a slot for 10 that lies above [last_seq_ = 1]. *)
Lemma retransmit_failed_keeps_last_seq_witness :
  let c := Consumer.handle_handshake accept 0 5 fresh_consumer in
  (Consumer.next_seq_ c < 10 /\ Consumer.last_seq_ c <= 10)
  /\ Consumer.last_seq_ (Consumer.handle_retransmit_failed accept 10 c)
     = Consumer.last_seq_ c
  /\ In (Consumer.mk_optional_event 10 None)
        (Consumer.buf_ (Consumer.handle_retransmit_failed accept 10 c)).
Proof.
  cbn zeta.
  set (c := Consumer.handle_handshake accept 0 5 fresh_consumer).
  assert (H : Consumer.next_seq_ c < 10) by reflexivity.
  split; [split; [exact H|vm_compute; discriminate]|].
  destruct (retransmit_failed_keeps_last_seq nat nat accept c 10 H)
    as (H1 & _ & _ & _ & H5).
  split; [exact H1|]. apply H5. intros x [].
Defined.

End ConcreteRuns.

(** * Further properties of the producer *)

Section ProducerLookup.

Import Producer.

Variables Handle Payload : Type.
Variable Handle_eq_dec : forall a b : Handle, {a = b} + {a <> b}.

Local Abbreviation producer := (producer Handle Payload).
Local Abbreviation path := (path Handle).
Local Abbreviation op := (op Handle Payload).
Local Abbreviation find_path := (@find_path Handle Payload Handle_eq_dec).
Local Abbreviation add := (@add Handle Payload Handle_eq_dec).
Local Abbreviation ack_loop := (ack_loop Handle_eq_dec).
Local Abbreviation handle_ack := (@handle_ack Handle Payload Handle_eq_dec).
Local Abbreviation handle_nack := (@handle_nack Handle Payload Handle_eq_dec).
Local Abbreviation step := (@step Handle Payload Handle_eq_dec).
Local Abbreviation run := (@run Handle Payload Handle_eq_dec).

Lemma set_paths_same (p : producer) : set_paths (paths_ p) p = p.
Proof. destruct p; reflexivity. Qed.

Lemma set_buf_same (p : producer) : set_buf (buf_ p) p = p.
Proof. destruct p; reflexivity. Qed.

Lemma find_path_added h (p : producer) (x : path) :
  find_path h p = None -> hdl x = h ->
  find_path h (set_paths (paths_ p ++ [x]) p) = Some x.
Proof.
  unfold Producer.find_path. cbn [paths_ set_paths]. intros Hnone Hx.
  induction (paths_ p) as [|y rest IH]; cbn in *.
  - destruct (Handle_eq_dec (hdl x) h); [reflexivity|contradiction].
  - destruct (Handle_eq_dec (hdl y) h); [discriminate|]. apply IH, Hnone.
Qed.

Lemma find_path_other h h' (p : producer) (x : path) :
  hdl x = h -> h' <> h ->
  find_path h' (set_paths (paths_ p ++ [x]) p) = find_path h' p.
Proof.
  unfold Producer.find_path. cbn [paths_ set_paths]. intros Hx Hne.
  induction (paths_ p) as [|y rest IH]; cbn.
  - destruct (Handle_eq_dec (hdl x) h'); [|reflexivity].
    exfalso. apply Hne. congruence.
  - destruct (Handle_eq_dec (hdl y) h'); [reflexivity|exact IH].
Qed.

(** X1 ([add], a second time).  Whatever the producer and the handle:
    after [add(h)], whether it succeeded or not, a further [add(h)] returns
    [consumer_exists] and leaves the producer as it is; in particular it
    sends no second handshake and adds no second path. *)
Theorem add_again_fails (h : Handle) (p : producer) :
  add h (fst (add h p)) = (fst (add h p), Some consumer_exists).
Proof.
  unfold Producer.add at 2 3.
  destruct (find_path h p) as [x|] eqn:E; cbn [fst].
  - unfold Producer.add. rewrite E. reflexivity.
  - unfold Producer.add.
    replace (Producer.find_path Handle_eq_dec h _)
      with (Some (mk_path h (seq_ p) (seq_ p)
                          Lamport.initial Lamport.initial));
      [reflexivity|].
    symmetry.
    apply (find_path_added h p
             (mk_path h (seq_ p) (seq_ p) Lamport.initial Lamport.initial));
      [exact E|reflexivity].
Qed.

(** X2 ([add], a new handle).  When [h] has no path, [add(h)] returns no
    error, [find_path(h)] then finds a path whose [offset] and [acked] are
    the current [seq_], the lookup of every other handle is as before, and
    the one call on the backend is the handshake with [seq_] and the
    heartbeat interval, sent to [h]; [seq_] and the buffer stay as they
    are. *)
Theorem add_registers (h : Handle) (p : producer) :
  find_path h p = None ->
  snd (add h p) = None
  /\ find_path h (fst (add h p))
     = Some (mk_path h (seq_ p) (seq_ p) Lamport.initial Lamport.initial)
  /\ (forall h', h' <> h ->
                 find_path h' (fst (add h p)) = find_path h' p)
  /\ backend_ (fst (add h p))
     = backend_ p ++ [send h (handshake (seq_ p) (heartbeat_interval_ p))]
  /\ seq_ (fst (add h p)) = seq_ p
  /\ buf_ (fst (add h p)) = buf_ p.
Proof.
  intros E. unfold Producer.add. rewrite E. cbn [fst snd].
  split; [reflexivity|]. split; [|split; [|repeat split]].
  - apply (find_path_added h p
             (mk_path h (seq_ p) (seq_ p) Lamport.initial Lamport.initial));
      [exact E|reflexivity].
  - intros h' Hne.
    apply (find_path_other h h' p
             (mk_path h (seq_ p) (seq_ p) Lamport.initial Lamport.initial));
      [reflexivity|exact Hne].
Qed.

Lemma find_snoc_fresh (s : Z) (b : list (event Payload)) (e : event Payload) :
  Forall (fun x => ev_seq x <> ev_seq e) b ->
  find (fun x => ev_seq x =? s) (b ++ [e])
  = if ev_seq e =? s
    then match find (fun x => ev_seq x =? s) b with
         | Some x => Some x
         | None => Some e
         end
    else find (fun x => ev_seq x =? s) b.
Proof.
  induction 1 as [|y rest Hy _ IH]; cbn.
  - destruct (ev_seq e =? s); reflexivity.
  - destruct (ev_seq y =? s) eqn:Ey.
    + destruct (ev_seq e =? s); reflexivity.
    + exact IH.
Qed.

(** X3 ([produce], then [find_event]).  Let the producer have a path, let
    [seq_] be below the largest 64-bit number and let no buffered event be
    above [seq_].  Then [produce] raises [seq_] by one, [find_event] finds
    the new payload under the new number and finds under every other number
    what it found before, the one call on the backend is the broadcast of
    the new event, and the heartbeat timer restarts. *)
Theorem produce_then_find (content : Payload) (p : producer) :
  paths_ p <> [] ->
  0 <= seq_ p < seq_max ->
  Forall (fun e => ev_seq e <= seq_ p) (buf_ p) ->
  let p' := produce content p in
  seq_ p' = seq_ p + 1
  /\ find_event (seq_ p + 1) p' = Some (mk_event (seq_ p + 1) content)
  /\ (forall s, s <> seq_ p + 1 -> find_event s p' = find_event s p)
  /\ backend_ p'
     = backend_ p ++ [broadcast (event_msg (mk_event (seq_ p + 1) content))]
  /\ since_broadcast p' = 0.
Proof.
  intros Hpaths Hseq Hbuf. cbn zeta. unfold produce.
  destruct (paths_ p) as [|x0 ps] eqn:E; [congruence|].
  rewrite (u64_small (seq_ p + 1)) by lia.
  assert (Hfresh : Forall (fun x => ev_seq x
                                    <> ev_seq (mk_event (seq_ p + 1) content))
                          (buf_ p)).
  { eapply Forall_impl; [|exact Hbuf]. cbn. intros; lia. }
  unfold find_event, since_broadcast. cbn [seq_ buf_ backend_ tick_
                                           last_broadcast_].
  repeat split.
  - rewrite (find_snoc_fresh _ _ _ Hfresh). cbn [ev_seq].
    rewrite Z.eqb_refl.
    destruct (find (fun x => ev_seq x =? seq_ p + 1) (buf_ p)) as [y|] eqn:F;
      [|reflexivity].
    apply find_some in F. destruct F as [Hin Hy]. apply Z.eqb_eq in Hy.
    rewrite Forall_forall in Hbuf. specialize (Hbuf y Hin). lia.
  - intros s Hs. rewrite (find_snoc_fresh _ _ _ Hfresh). cbn [ev_seq].
    replace (seq_ p + 1 =? s) with false; [reflexivity|].
    symmetry. apply Z.eqb_neq. lia.
  - apply since_broadcast_reset.
Qed.

Lemma tick_frame_paths (p : producer) :
  paths_ (tick p) = paths_ p /\ buf_ (tick p) = buf_ p.
Proof.
  unfold tick.
  destruct ((heartbeat_interval_ p >? 0)
            && (Lamport.plus (last_broadcast_ p) (heartbeat_interval_ p)
                =? Lamport.incr (tick_ p))); cbn; auto.
Qed.

(** *** Paths only grow *)

Lemma path_grows_refl (ps : list path) : Forall2 path_grows ps ps.
Proof.
  induction ps; constructor; auto. unfold path_grows. repeat split. lia.
Qed.

Lemma paths_extend_refl (ps : list path) : paths_extend ps ps.
Proof.
  exists ps, []. split; [symmetry; apply app_nil_r|apply path_grows_refl].
Qed.

Lemma path_grows_trans (l1 l2 l3 : list path) :
  Forall2 path_grows l1 l2 -> Forall2 path_grows l2 l3 ->
  Forall2 path_grows l1 l3.
Proof.
  intros H. revert l3.
  induction H as [|x y l1 l2 (Hh & Ho & Ha) _ IH]; intros l3 H23;
    inversion H23 as [|? z ? l3' (Hh' & Ho' & Ha') Hrest]; subst;
    constructor; auto.
  unfold path_grows. repeat split; try congruence. lia.
Qed.

Lemma paths_extend_trans (l1 l2 l3 : list path) :
  paths_extend l1 l2 -> paths_extend l2 l3 -> paths_extend l1 l3.
Proof.
  intros (k1 & a1 & -> & H1) (k2 & a2 & -> & H2).
  apply Forall2_app_inv_l in H2.
  destruct H2 as (k2' & a2' & Hk & _ & ->).
  exists k2', (a2' ++ a2). split; [symmetry; apply app_assoc|].
  eapply path_grows_trans; eauto.
Qed.

Lemma ack_rel_grows h s (ps ps' : list path) :
  Forall2 (ack_rel h s) ps ps' -> paths_extend ps ps'.
Proof.
  intros H. exists ps', []. split; [symmetry; apply app_nil_r|].
  induction H as [|x x' l l' (Hh & Ho & Ha) _ IH]; constructor; auto.
  unfold path_grows. repeat split; auto.
  destruct Ha as [->|(? & -> & _)]; lia.
Qed.

Lemma step_paths_extend (p : producer) (o : op) :
  paths_extend (paths_ p) (paths_ (step p o)).
Proof.
  destruct o as [content|h|h s|h seqs|]; cbn.
  - unfold produce. destruct (paths_ p) eqn:E; [rewrite E|]; cbn;
      apply paths_extend_refl.
  - unfold Producer.add. destruct (find_path h p); cbn;
      [apply paths_extend_refl|].
    exists (paths_ p), [mk_path h (seq_ p) (seq_ p)
                                Lamport.initial Lamport.initial].
    split; [reflexivity|apply path_grows_refl].
  - destruct (handle_ack_frame Handle Payload Handle_eq_dec h s p)
      as (_ & _ & _ & _ & _ & Hrel).
    eapply ack_rel_grows; eauto.
  - destruct (handle_nack_cases Handle Payload Handle_eq_dec h seqs p)
      as [(_ & -> & _)|(first & rest & _ & _ & _ & -> & _)];
      [apply paths_extend_refl|].
    destruct (handle_ack_frame Handle Payload Handle_eq_dec
                               h (u64 (first - 1)) p)
      as (_ & _ & _ & _ & _ & Hrel).
    eapply ack_rel_grows; eauto.
  - destruct (tick_frame_paths p) as [-> _]. apply paths_extend_refl.
Qed.

(** X4 (ACKs are monotone).  Whatever invocations a producer receives, with
    whatever arguments, the paths it had are still there afterwards, in the
    same order and before any path added since, each with the handle and the
    offset it had and with [acked] not lower than before: no path is ever
    removed, reordered or moved back. *)
Theorem acked_never_decreases (ops : list op) (p : producer) :
  exists kept added,
    paths_ (run ops p) = kept ++ added
    /\ Forall2 (fun x x' => hdl x' = hdl x /\ offset x' = offset x
                            /\ acked x <= acked x')
               (paths_ p) kept.
Proof.
  change (paths_extend (paths_ p) (paths_ (run ops p))).
  revert p. induction ops as [|o ops IH]; intros p.
  - apply paths_extend_refl.
  - eapply paths_extend_trans; [apply (step_paths_extend p o)|].
    apply (IH (step p o)).
Qed.

(** *** ACKs that bring nothing new *)

Lemma ack_loop_not_above h s now (ps : list path) m (x : path) :
  find (fun y => if Handle_eq_dec (hdl y) h then true else false) ps
  = Some x ->
  s <= acked x ->
  exists ps',
    ack_loop h s now ps m = (ps', None)
    /\ map acked ps' = map acked ps
    /\ map hdl ps' = map hdl ps
    /\ map offset ps' = map offset ps
    /\ (s < acked x -> ps' = ps).
Proof.
  revert m. induction ps as [|y rest IH]; intros m Hfind Hs; cbn in *.
  - discriminate.
  - destruct (Handle_eq_dec (hdl y) h) as [Hh|Hh].
    + injection Hfind as ->.
      destruct (acked x >? s) eqn:Hgt.
      * exists (x :: rest). repeat split; reflexivity.
      * assert (Heq : acked x = s).
        { destruct (Z.eq_dec (acked x) s) as [E|E]; [exact E|].
          assert (acked x > s) by lia. apply Z.gtb_gt in H. congruence. }
        replace (acked x =? s) with true
          by (symmetry; apply Z.eqb_eq; exact Heq).
        eexists. split; [reflexivity|]. cbn.
        repeat split. intros C. lia.
    + destruct (IH (Z.min (acked y) m) Hfind Hs)
        as (ps' & -> & Ha & Hh' & Ho & Hsame).
      exists (y :: ps'). cbn. repeat split; try congruence.
      intros C. rewrite (Hsame C). reflexivity.
Qed.

(** X5 (stale and repeated ACKs).  Let [x] be the path [find_path] finds for
    [h].  An ACK for [s] at or below [acked x] erases nothing from the
    buffer, calls nothing on the backend and changes no [acked], handle or
    offset; when [s] is below [acked x] the producer stays exactly as it
    is, timestamps included. *)
Theorem stale_ack_is_ignored (h : Handle) (s : Z) (p : producer) (x : path) :
  find_path h p = Some x ->
  s <= acked x ->
  buf_ (handle_ack h s p) = buf_ p
  /\ backend_ (handle_ack h s p) = backend_ p
  /\ seq_ (handle_ack h s p) = seq_ p
  /\ map acked (paths_ (handle_ack h s p)) = map acked (paths_ p)
  /\ map hdl (paths_ (handle_ack h s p)) = map hdl (paths_ p)
  /\ map offset (paths_ (handle_ack h s p)) = map offset (paths_ p)
  /\ (s < acked x -> handle_ack h s p = p).
Proof.
  intros Hfind Hs. unfold Producer.handle_ack.
  destruct (ack_loop_not_above h s (tick_ p) (paths_ p) s x Hfind Hs)
    as (ps' & -> & Ha & Hh & Ho & Hsame).
  cbn. repeat split; auto.
  intros C. rewrite (Hsame C). apply set_paths_same.
Qed.

(** *** The answers to a NACK *)

Lemma erase_acked_find a s (b : list (event Payload)) :
  a < s ->
  find (fun x => ev_seq x =? s) (erase_acked a b)
  = find (fun x => ev_seq x =? s) b.
Proof.
  intros Hs. induction b as [|e rest IH]; cbn; [reflexivity|].
  destruct (ev_seq e >? a) eqn:Hgt; [reflexivity|].
  rewrite IH. replace (ev_seq e =? s) with false; [reflexivity|].
  symmetry. apply Z.eqb_neq. intros C.
  assert (ev_seq e > a) by lia. apply Z.gtb_gt in H. congruence.
Qed.

Lemma handle_ack_find h a s (p : producer) :
  a < s -> find_event s (handle_ack h a p) = find_event s p.
Proof.
  intros Hs. unfold Producer.handle_ack, find_event.
  destruct (ack_loop h a (tick_ p) (paths_ p) a) as [ps' [m|]] eqn:E;
    cbn; [|reflexivity].
  destruct (ack_loop_min Handle Handle_eq_dec h a (tick_ p) (paths_ p)
                         ps' a m (Z.le_refl a) E) as (_ & Hm & _).
  apply erase_acked_find. lia.
Qed.

Lemma retransmit_all h (seqs : list Z) (q : producer) :
  backend_ (fold_left (retransmit h) seqs q)
  = backend_ q ++ map (nack_reply h q) seqs.
Proof.
  revert q. induction seqs as [|s seqs IH]; intros q; cbn.
  - symmetry. apply app_nil_r.
  - rewrite IH.
    assert (Hstep : backend_ (retransmit h q s)
                    = backend_ q ++ [nack_reply h q s]).
    { unfold retransmit, nack_reply. destruct (find_event s q); reflexivity. }
    rewrite Hstep, <- app_assoc. cbn. do 2 f_equal.
    apply map_ext. intros s'. unfold nack_reply, retransmit, find_event.
    destruct (find (fun x => ev_seq x =? s) (buf_ q)); reflexivity.
Qed.

(** X6 (the answers to a NACK).  Let [h] have a path and let the requested
    numbers start with [first], not 0 and not above the largest 64-bit
    number, with no later entry below [first] (the list is sorted).  Then
    [handle_nack] calls the backend once per requested number, in the order
    of the list and always for [h]: with the buffered event of that number
    if the buffer held one before the call, with [retransmit_failed]
    otherwise.  The ACK that the NACK implies never discards an event the
    NACK asks for. *)
Theorem nack_is_answered_in_order (h : Handle) (first : Z) (seqs : list Z)
        (p : producer) (x : path) :
  find_path h p = Some x ->
  0 < first <= seq_max ->
  Forall (fun s => first <= s) seqs ->
  backend_ (handle_nack h (first :: seqs) p)
  = backend_ p ++ map (nack_reply h p) (first :: seqs).
Proof.
  intros Hfind Hfirst Hsorted. unfold Producer.handle_nack.
  fold (find_path h p). rewrite Hfind.
  replace (first =? 0) with false by (symmetry; apply Z.eqb_neq; lia).
  rewrite (u64_small (first - 1)) by lia.
  rewrite retransmit_all.
  destruct (handle_ack_frame Handle Payload Handle_eq_dec h (first - 1) p)
    as (_ & _ & _ & _ & -> & _).
  f_equal. apply map_ext_in. intros s Hs.
  unfold nack_reply. rewrite handle_ack_find; [reflexivity|].
  destruct Hs as [<-|Hs]; [lia|].
  rewrite Forall_forall in Hsorted. specialize (Hsorted s Hs). lia.
Qed.

(** *** Idle producers *)

(** X7 ([idle] and the buffer).  A well-formed producer that is idle, every
    path having acknowledged [seq_], retains nothing for retransmission. *)
Theorem idle_producer_retains_nothing (p : producer) :
  well_formed p -> idle p = true -> buf_ p = [].
Proof.
  intros (_ & _ & Hle & Hun) Hidle. unfold idle in Hidle.
  rewrite forallb_forall in Hidle. unfold unacked_only in Hun.
  destruct (buf_ p) as [|e rest]; [reflexivity|exfalso].
  inversion Hun as [|? ? Hex _]; subst. inversion Hle as [|? ? He _]; subst.
  apply Exists_exists in Hex. destruct Hex as (x & Hx & Hlt).
  specialize (Hidle x Hx). apply Z.eqb_eq in Hidle. lia.
Qed.

Lemma ack_all_bound (hs : list Handle) (p : producer) :
  Forall (fun x => acked x <= seq_ p) (paths_ p) ->
  Forall (fun x => acked x <= seq_ p)
         (paths_ (ack_all Handle_eq_dec hs p)).
Proof.
  revert p. induction hs as [|h hs IH]; intros p Hall; [exact Hall|].
  change (ack_all Handle_eq_dec (h :: hs) p)
    with (ack_all Handle_eq_dec hs (handle_ack h (seq_ p) p)).
  destruct (handle_ack_frame Handle Payload Handle_eq_dec h (seq_ p) p)
    as (Hseq & _ & _ & _ & _ & Hrel).
  specialize (IH (handle_ack h (seq_ p) p)). rewrite Hseq in IH.
  apply IH.
  eapply ack_rel_bound; [apply Z.le_refl|exact Hrel|exact Hall].
Qed.

(** X8 (everything acknowledged).  Let a producer be well-formed with no
    path ahead of [seq_].  After [handle_ack(h, seq_)] for the handle of
    every path the producer is idle, and its buffer is empty. *)
Theorem acknowledged_producer_is_idle (p : producer) :
  well_formed p ->
  Forall (fun x => acked x <= seq_ p) (paths_ p) ->
  let p' := ack_all Handle_eq_dec (map hdl (paths_ p)) p in
  idle p' = true /\ buf_ p' = [].
Proof.
  intros Hwf Hbound. cbn zeta.
  destruct (ack_all_drains Handle Payload Handle_eq_dec
                           (map hdl (paths_ p)) [] p
                           (well_formed_draining Handle Payload p Hwf))
    as ((_ & _ & Hne) & Hseq & Hhdl & Hall).
  { apply Forall_forall. intros x _ []. }
  pose proof (ack_all_bound (map hdl (paths_ p)) p Hbound) as Hle.
  set (p' := ack_all Handle_eq_dec (map hdl (paths_ p)) p) in *.
  cbn [app] in Hall.
  assert (Hidle : idle p' = true).
  { unfold idle. apply forallb_forall. intros x Hx. apply Z.eqb_eq.
    rewrite Forall_forall in Hall, Hle.
    specialize (Hle x Hx). rewrite Hseq.
    assert (Hin : In (hdl x) (map hdl (paths_ p)))
      by (rewrite <- Hhdl; apply in_map; exact Hx).
    specialize (Hall x Hx Hin). lia. }
  split; [exact Hidle|].
  destruct (buf_ p') as [|e rest] eqn:Eb; [reflexivity|exfalso].
  assert (Hex := Hne ltac:(discriminate)).
  apply Exists_exists in Hex. destruct Hex as (x & Hx & Hlt).
  unfold idle in Hidle. rewrite forallb_forall in Hidle.
  specialize (Hidle x Hx). apply Z.eqb_eq in Hidle. lia.
Qed.

(** *** The heartbeat timer *)

Lemma ticks_succ n (p : producer) : ticks (S n) p = tick (ticks n p).
Proof. reflexivity. Qed.

(** X9 (heartbeats switched off).  With a heartbeat interval of 0, [tick]
    never calls the backend, however often it runs and whatever the state;
    it only advances the clock. *)
Theorem no_heartbeat_without_interval (n : nat) (p : producer) :
  heartbeat_interval_ p = 0 ->
  backend_ (ticks n p) = backend_ p
  /\ seq_ (ticks n p) = seq_ p
  /\ buf_ (ticks n p) = buf_ p
  /\ paths_ (ticks n p) = paths_ p
  /\ last_broadcast_ (ticks n p) = last_broadcast_ p.
Proof.
  intros Hk. induction n as [|n IH]; [repeat split|].
  destruct IH as (Hb & Hs & Hbuf & Hp & Hl).
  destruct (ticks_frame Handle Payload n p) as [_ Hhb].
  rewrite ticks_succ. unfold tick at 1 2 3 4 5.
  rewrite Hhb, Hk. cbn. auto.
Qed.

Lemma ticks_silent (n : nat) (p : producer) :
  0 < heartbeat_interval_ p < 2 ^ 16 ->
  since_broadcast p + Z.of_nat n < heartbeat_interval_ p ->
  backend_ (ticks n p) = backend_ p
  /\ since_broadcast (ticks n p) = since_broadcast p + Z.of_nat n.
Proof.
  intros Hk. induction n as [|n IH]; intros Hd.
  - cbn. split; [reflexivity|lia].
  - destruct IH as [Hb Hs]; [lia|].
    destruct (ticks_frame Handle Payload n p) as [_ Hhb].
    rewrite ticks_succ.
    destruct (tick_silent Handle Payload (ticks n p)) as [Hb' Hs'];
      [rewrite Hhb; exact Hk|rewrite Hhb, Hs; lia|].
    rewrite Hb', Hs', Hb, Hs. split; [reflexivity|lia].
Qed.

(** X10 ([produce] restarts the heartbeat timer).  Let the producer have a
    path and a heartbeat interval [k > 0].  After [produce], fewer than [k]
    ticks call nothing on the backend, and the [k]-th tick broadcasts one
    heartbeat, which carries the sequence number of the event just
    produced. *)
Theorem heartbeat_follows_produce (content : Payload) (p : producer) :
  paths_ p <> [] ->
  0 < heartbeat_interval_ p < 2 ^ 16 ->
  let p' := produce content p in
  let k := Z.to_nat (heartbeat_interval_ p) in
  (forall n, (n < k)%nat -> backend_ (ticks n p') = backend_ p')
  /\ backend_ (ticks k p') = backend_ p' ++ [broadcast (heartbeat (seq_ p'))].
Proof.
  intros Hpaths Hk. cbn zeta.
  set (p' := produce content p).
  assert (Hhb : heartbeat_interval_ p' = heartbeat_interval_ p).
  { unfold p', produce. destruct (paths_ p); reflexivity. }
  assert (Hd : since_broadcast p' = 0).
  { unfold p', produce. destruct (paths_ p) as [|x0 ps]; [congruence|].
    unfold since_broadcast. cbn. apply since_broadcast_reset. }
  assert (Hsilent : forall n, (n < Z.to_nat (heartbeat_interval_ p))%nat ->
                              backend_ (ticks n p') = backend_ p'
                              /\ since_broadcast (ticks n p') = Z.of_nat n).
  { intros n Hn.
    destruct (ticks_silent n p') as [Hb Hs];
      [rewrite Hhb; exact Hk|rewrite Hhb, Hd; lia|].
    rewrite Hd in Hs. auto. }
  split; [intros n Hn; apply (Hsilent n Hn)|].
  destruct (Z.to_nat (heartbeat_interval_ p)) as [|k] eqn:Ek; [lia|].
  destruct (Hsilent k ltac:(lia)) as [Hb Hs].
  destruct (ticks_frame Handle Payload k p') as [Hseq Hhb'].
  rewrite ticks_succ.
  destruct (tick_fires Handle Payload (ticks k p')) as [Hfire _];
    [rewrite Hhb', Hhb; exact Hk|rewrite Hs, Hhb', Hhb; lia|].
  rewrite Hfire, Hb, Hseq. reflexivity.
Qed.

(** *** What leaves the buffer *)

Lemma handle_ack_drops_acked h s (p : producer) :
  exists erased,
    buf_ p = erased ++ buf_ (handle_ack h s p)
    /\ Forall (fun e => Forall (fun x => ev_seq e <= acked x)
                               (paths_ (handle_ack h s p))) erased.
Proof.
  unfold Producer.handle_ack.
  destruct (ack_loop h s (tick_ p) (paths_ p) s) as [ps' [a|]] eqn:E.
  - destruct (ack_loop_min Handle Handle_eq_dec h s (tick_ p) (paths_ p)
                           ps' s a (Z.le_refl s) E) as (Hmin & _).
    destruct (erase_acked_split Payload a (buf_ p))
      as (erased & Heq & Hacked & _).
    exists erased. cbn. split; [exact Heq|].
    eapply Forall_impl; [|exact Hacked].
    intros e He. eapply Forall_impl; [|exact Hmin].
    intros x Hx. cbn beta in *. lia.
  - exists []. cbn. split; [reflexivity|constructor].
Qed.

(** X24 (only acknowledged events leave the buffer).  Whatever the producer
    is asked to do, and in whatever state, the events an invocation removes
    from the buffer are a prefix of it, and each of them has a sequence
    number that every path has acknowledged once the invocation returns:
    no event is dropped while a registered consumer may still ask for it. *)
Theorem only_acknowledged_events_are_dropped (p : producer) (o : op) :
  exists erased kept added,
    buf_ p = erased ++ kept
    /\ buf_ (step p o) = kept ++ added
    /\ Forall (fun e => Forall (fun x => ev_seq e <= acked x)
                               (paths_ (step p o))) erased.
Proof.
  destruct o as [content|h|h s|h seqs|]; cbn [Producer.step].
  - unfold produce. destruct (paths_ p).
    + exists [], (buf_ p), []. rewrite app_nil_r. repeat split; constructor.
    + exists [], (buf_ p), [mk_event (u64 (seq_ p + 1)) content].
      cbn. repeat split; constructor.
  - exists [], (buf_ p), []. rewrite app_nil_r.
    split; [reflexivity|]. split; [|constructor].
    unfold Producer.add. destruct (Producer.find_path _ h p); reflexivity.
  - destruct (handle_ack_drops_acked h s p) as (erased & Heq & Hall).
    exists erased, (buf_ (handle_ack h s p)), []. rewrite app_nil_r.
    repeat split; assumption.
  - destruct (handle_nack_cases Handle Payload Handle_eq_dec h seqs p)
      as [(_ & Hp & Hb)|(first & rest & _ & _ & _ & Hp & Hb)].
    + exists [], (buf_ p), []. rewrite app_nil_r, Hb.
      repeat split; constructor.
    + destruct (handle_ack_drops_acked h (u64 (first - 1)) p)
        as (erased & Heq & Hall).
      exists erased, (buf_ (handle_ack h (u64 (first - 1)) p)), [].
      rewrite app_nil_r, Hb, Hp. repeat split; assumption.
  - exists [], (buf_ p), []. rewrite app_nil_r.
    split; [reflexivity|]. split; [|constructor].
    unfold Producer.tick.
    destruct ((heartbeat_interval_ p >? 0)
              && (Lamport.plus (last_broadcast_ p) (heartbeat_interval_ p)
                  =? Lamport.incr (tick_ p))); reflexivity.
Qed.

(** X25 (messages of an unknown consumer).  A NACK from a handle without a
    path is ignored altogether, the request for a handshake included.  An
    ACK from such a handle changes no path and calls nothing on the
    backend; what it may remove from the buffer is bounded as in X24. *)
Theorem unknown_consumer_is_not_served (h : Handle) (s : Z) (seqs : list Z)
        (p : producer) :
  find_path h p = None ->
  handle_nack h seqs p = p
  /\ paths_ (handle_ack h s p) = paths_ p
  /\ backend_ (handle_ack h s p) = backend_ p
  /\ seq_ (handle_ack h s p) = seq_ p.
Proof.
  intros Hnone. split; [|split; [|split]].
  - unfold Producer.handle_nack. destruct seqs; [reflexivity|].
    rewrite Hnone. reflexivity.
  - unfold Producer.handle_ack.
    destruct (ack_loop_unknown Handle Handle_eq_dec h s (tick_ p) (paths_ p)
                               s) as (a & ->); [|reflexivity].
    apply (find_path_none Handle Payload Handle_eq_dec). exact Hnone.
  - apply (handle_ack_frame Handle Payload Handle_eq_dec h s p).
  - apply (handle_ack_frame Handle Payload Handle_eq_dec h s p).
Qed.

End ProducerLookup.

(** * Further properties of the consumer *)

Section ConsumerMore.

Import Consumer.

Variables Payload Error : Type.
Variable consume_nil_answer : consumer Payload Error -> option Error.

Local Abbreviation consumer := (consumer Payload Error).
Local Abbreviation optional_event := (optional_event Payload).
Local Abbreviation op := (op Payload).
Local Abbreviation consume_loop := (consume_loop consume_nil_answer).
Local Abbreviation try_consume_buffer :=
  (try_consume_buffer consume_nil_answer).
Local Abbreviation handle_handshake := (handle_handshake consume_nil_answer).
Local Abbreviation handle_event := (handle_event consume_nil_answer).
Local Abbreviation handle_retransmit_failed :=
  (handle_retransmit_failed consume_nil_answer).
Local Abbreviation step := (step consume_nil_answer).
Local Abbreviation run := (run consume_nil_answer).
Local Abbreviation run_allowed := (run_allowed consume_nil_answer).
Local Abbreviation initial := (initial Payload Error).

Lemma set_buf_same_consumer (c : consumer) : set_buf (buf_ c) c = c.
Proof. destruct c; reflexivity. Qed.

(** *** [next_seq_] only moves forward *)

(** X11 (a consumer never rewinds).  Let [next_seq_] and every buffered
    sequence number be below the largest 64-bit number.  Then no invocation
    lowers [next_seq_]: not a handshake (with an offset below that number),
    not a heartbeat, an event, a failed retransmission or a tick, whatever
    their arguments and whatever the backend answers. *)
Theorem next_seq_never_rewinds (c : consumer) (o : op) :
  0 <= next_seq_ c < seq_max ->
  Forall (fun x => oe_seq x < seq_max) (buf_ c) ->
  below_maximum o ->
  next_seq_ c <= next_seq_ (step c o).
Proof.
  intros Hn Hbuf Ho.
  assert (Hbump : forall k,
             next_seq_ c
             <= next_seq_ (try_consume_buffer (bump_seq (call_backend k c)))).
  { intros k. unfold Consumer.try_consume_buffer.
    etransitivity;
      [|apply (consume_loop_next_seq Payload Error consume_nil_answer)].
    - cbn. rewrite u64_small; lia.
    - cbn. apply u64_range.
    - exact Hbuf. }
  destruct o as [offset hb|seq|seq payload|seq|]; cbn in *.
  - unfold Consumer.handle_handshake.
    destruct (offset >=? next_seq_ c) eqn:E; [|lia].
    apply Z.geb_le in E. unfold Consumer.try_consume_buffer.
    etransitivity;
      [|apply (consume_loop_next_seq Payload Error consume_nil_answer)].
    + cbn. rewrite u64_small; lia.
    + cbn. apply u64_range.
    + exact Hbuf.
  - unfold handle_heartbeat.
    destruct ((last_seq_ c =? 0) || (seq =? 0)); [lia|].
    destruct (u64 (seq + 1) >? last_seq_ c); cbn; lia.
  - unfold Consumer.handle_event.
    destruct (next_seq_ c =? seq); [apply Hbump|].
    destruct (seq >? next_seq_ c); [|lia].
    destruct (seq >? last_seq_ c); cbn; lia.
  - unfold Consumer.handle_retransmit_failed.
    destruct (next_seq_ c =? seq).
    + destruct (consume_nil_answer c); [cbn; lia|apply Hbump].
    + destruct (seq >? next_seq_ c); cbn; lia.
  - destruct (tick_frame_consumer Payload Error c) as (-> & _). lia.
Qed.

(** X12 (a repeated handshake).  Let a consumer accept a handshake, its
    offset and every buffered sequence number being below the largest
    64-bit number.  A further handshake with the same offset is ignored,
    whatever heartbeat interval it carries: the consumer stays as the first
    handshake left it and the backend is not called. *)
Theorem repeated_handshake_is_ignored (c : consumer) (offset hb hb' : Z) :
  0 <= next_seq_ c <= offset ->
  offset < seq_max ->
  Forall (fun x => oe_seq x < seq_max) (buf_ c) ->
  handle_handshake offset hb' (handle_handshake offset hb c)
  = handle_handshake offset hb c.
Proof.
  intros Hn Ho Hbuf.
  assert (Hnext : offset < next_seq_ (handle_handshake offset hb c)).
  { unfold Consumer.handle_handshake.
    replace (offset >=? next_seq_ c) with true
      by (symmetry; apply Z.geb_le; lia).
    unfold Consumer.try_consume_buffer.
    eapply Z.lt_le_trans;
      [|apply (consume_loop_next_seq Payload Error consume_nil_answer)].
    - cbn. rewrite u64_small; lia.
    - cbn. apply u64_range.
    - exact Hbuf. }
  unfold Consumer.handle_handshake at 1.
  destruct (offset >=? next_seq_ (handle_handshake offset hb c)) eqn:E;
    [|reflexivity].
  apply Z.geb_le in E. lia.
Qed.

(** *** Closing *)

Lemma closed_bump (c : consumer) : closed (bump_seq c) = closed c.
Proof. reflexivity. Qed.

Lemma closed_set_buf b (c : consumer) : closed (set_buf b c) = closed c.
Proof. reflexivity. Qed.

Lemma consume_loop_closes (rest : list optional_event) (c : consumer) :
  closed c = false ->
  closed (consume_loop c rest) = true ->
  exists pre err tail,
    backend_ (consume_loop c rest)
    = pre ++ [consume_nil (next_seq_ (consume_loop c rest)) (Some err);
              close err]
    /\ buf_ (consume_loop c rest)
       = mk_optional_event (next_seq_ (consume_loop c rest)) None :: tail.
Proof.
  revert c. induction rest as [|x rest IH]; intros c Hc;
    cbn [Consumer.consume_loop].
  - rewrite closed_set_buf. congruence.
  - destruct (oe_seq x =? next_seq_ c) eqn:E;
      [|rewrite closed_set_buf; congruence].
    apply Z.eqb_eq in E.
    destruct x as [xs [payload|]]; cbn [oe_seq content] in *; subst xs.
    + apply IH. rewrite closed_bump, closed_call_backend, Hc. reflexivity.
    + destruct (consume_nil_answer c) as [err|].
      * intros _. exists (backend_ c), err, rest. cbn.
        rewrite <- app_assoc. split; reflexivity.
      * apply IH. rewrite closed_bump, closed_call_backend, Hc. reflexivity.
Qed.

(** What [tick] calls on the backend. *)
Lemma tick_calls (c : consumer) :
  (nack_due c = false
   /\ (backend_ (tick c) = backend_ c
       \/ backend_ (tick c)
          = backend_ c ++ [send (cumulative_ack (ack_seq c))]))
  \/ (nack_due c = true
      /\ backend_ (tick c) = backend_ c ++ [send (nack (nack_seqs c))]).
Proof.
  unfold tick, nack_due, send_ack, ack_seq. cbn zeta.
  destruct (next_seq_ c >? last_tick_seq_ c); cbn.
  - left. split; [reflexivity|].
    destruct (idle_ticks_ c >? 0); cbn;
      match goal with
      | |- context [if ?b then _ else _] => destruct b
      end; cbn; auto.
  - destruct (next_seq_ c <? last_seq_ c); cbn.
    + destruct (u8 (idle_ticks_ c + 1) >=? nack_timeout_ c); cbn.
      * right. split; reflexivity.
      * left. split; [reflexivity|].
        match goal with
        | |- context [if ?b then _ else _] => destruct b
        end; cbn; auto.
    + left. split; [reflexivity|].
      match goal with
      | |- context [if ?b then _ else _] => destruct b
      end; cbn; auto.
Qed.

Lemma closed_tick (c : consumer) : closed (tick c) = closed c.
Proof.
  unfold closed.
  destruct (tick_calls c) as [[_ [-> | ->]]|[_ ->]];
    [reflexivity| |]; rewrite existsb_app; cbn; apply orb_false_r.
Qed.

(** X13 ([close] follows a refused gap).  Whenever an invocation closes a
    consumer that was open, the last two calls on the backend are the
    [consume_nil] that returned an error, made at the position at which
    [next_seq_] then stays, and [close] with that very error: [close] is
    never called for another reason, and nothing is delivered after the
    refusal. *)
Theorem close_follows_refused_gap (c : consumer) (o : op) :
  closed c = false ->
  closed (step c o) = true ->
  exists pre err,
    backend_ (step c o)
    = pre ++ [consume_nil (next_seq_ (step c o)) (Some err); close err].
Proof.
  intros Hc.
  assert (Hdrain : forall c' : consumer,
             closed c' = false ->
             closed (try_consume_buffer c') = true ->
             exists pre err,
               backend_ (try_consume_buffer c')
               = pre ++ [consume_nil (next_seq_ (try_consume_buffer c'))
                                     (Some err); close err]).
  { intros c' Hc' Hcl. unfold Consumer.try_consume_buffer in *.
    destruct (consume_loop_closes (buf_ c') c' Hc' Hcl)
      as (pre & err & tail & Hb & _).
    exists pre, err. exact Hb. }
  destruct o as [offset hb|seq|seq payload|seq|]; cbn.
  - unfold Consumer.handle_handshake.
    destruct (offset >=? next_seq_ c); [|congruence].
    apply Hdrain. exact Hc.
  - unfold handle_heartbeat.
    destruct ((last_seq_ c =? 0) || (seq =? 0)); [congruence|].
    destruct (u64 (seq + 1) >? last_seq_ c); [|congruence].
    change (closed (set_last_seq (u64 (seq + 1)) c)) with (closed c).
    congruence.
  - unfold Consumer.handle_event.
    destruct (next_seq_ c =? seq).
    + apply Hdrain.
      rewrite closed_bump, closed_call_backend, Hc. reflexivity.
    + destruct (seq >? next_seq_ c); [|congruence].
      rewrite closed_set_buf.
      destruct (seq >? last_seq_ c); [|congruence].
      change (closed (set_last_seq seq c)) with (closed c). congruence.
  - unfold Consumer.handle_retransmit_failed.
    destruct (next_seq_ c =? seq).
    + destruct (consume_nil_answer c) as [err|].
      * intros _. exists (backend_ c), err. cbn.
        rewrite <- app_assoc. reflexivity.
      * apply Hdrain.
        rewrite closed_bump, closed_call_backend, Hc. reflexivity.
    + destruct (seq >? next_seq_ c); [|congruence].
      rewrite closed_set_buf. congruence.
  - rewrite closed_tick. congruence.
Qed.

(** X14 (nothing deliverable is left waiting).  In every state an open
    consumer reaches by an allowed run (no call after [close], no handshake
    that skips a buffered slot), every buffered slot lies strictly above
    [next_seq_]: an event that could be delivered is never left in the
    buffer. *)
Theorem no_deliverable_slot_waits (ops : list op) :
  run_allowed ops initial = true ->
  closed (run ops initial) = false ->
  Forall (fun x => next_seq_ (run ops initial) < oe_seq x)
         (buf_ (run ops initial)).
Proof.
  intros Hr Hopen.
  destruct (run_ahead Payload Error consume_nil_answer ops initial Hr)
    as (_ & _ & Hahead); [|exact (Hahead Hopen)].
  repeat split; cbn; try constructor. lia.
Qed.

(** *** What [tick] sends *)


Lemma ticks_succ_consumer n (c : consumer) :
  ticks (S n) c = tick (ticks n c).
Proof. reflexivity. Qed.

Lemma tick_keeps_interval (c : consumer) :
  heartbeat_interval_ (tick c) = heartbeat_interval_ c.
Proof.
  unfold tick, send_ack. cbn zeta.
  repeat match goal with
         | |- context [if ?b then _ else _] => destruct b
         end; reflexivity.
Qed.

(** X16 (silence before the handshake).  A consumer whose heartbeat interval
    is 0 and that knows of no outstanding event ([last_seq_ <= next_seq_]),
    as a consumer is after construction, calls nothing on the backend
    however often it ticks: it sends no ACK and no NACK, not even the
    request for a handshake. *)
Theorem silent_without_interval (n : nat) (c : consumer) :
  heartbeat_interval_ c = 0 ->
  last_seq_ c <= next_seq_ c ->
  backend_ (ticks n c) = backend_ c.
Proof.
  intros Hk Hl. induction n as [|n IH]; [reflexivity|].
  rewrite ticks_succ_consumer.
  assert (Hframe : heartbeat_interval_ (ticks n c) = 0
                   /\ next_seq_ (ticks n c) = next_seq_ c
                   /\ last_seq_ (ticks n c) = last_seq_ c).
  { clear IH. induction n as [|n IHn]; [auto|].
    rewrite ticks_succ_consumer, tick_keeps_interval.
    destruct (tick_frame_consumer Payload Error (ticks n c))
      as (-> & -> & _). exact IHn. }
  destruct Hframe as (Hk' & Hn' & Hl').
  rewrite <- IH. set (d := ticks n c) in *.
  unfold tick, send_ack, ack_due. cbn zeta.
  destruct (next_seq_ d >? last_tick_seq_ d); cbn.
  - destruct (idle_ticks_ d >? 0); cbn; rewrite Hk'; reflexivity.
  - replace (next_seq_ d <? last_seq_ d) with false
      by (symmetry; apply Z.ltb_ge; lia).
    cbn. rewrite Hk'. reflexivity.
Qed.


(** *** Slots that are already buffered *)

Lemma sorted_head_below s (l : list Z) y :
  StronglySorted Z.lt (y :: l) -> In s l -> y < s.
Proof.
  intros Hs Hin. apply StronglySorted_inv in Hs. destruct Hs as (_ & Hall).
  rewrite Forall_forall in Hall. apply Hall. exact Hin.
Qed.

Lemma insert_nil_present s (b : list optional_event) :
  StronglySorted Z.lt (map oe_seq b) ->
  In s (map oe_seq b) ->
  insert_nil s b = b.
Proof.
  induction b as [|x rest IH]; intros Hs Hin; [destruct Hin|].
  cbn [map] in *. cbn [Consumer.insert_nil].
  destruct (oe_seq x >=? s) eqn:E.
  - destruct (oe_seq x =? s) eqn:E'; [reflexivity|].
    apply Z.geb_le in E. apply Z.eqb_neq in E'.
    destruct Hin as [Hin|Hin]; [congruence|].
    pose proof (sorted_head_below _ _ _ Hs Hin). lia.
  - rewrite Z.geb_leb in E. apply Z.leb_gt in E.
    destruct Hin as [Hin|Hin]; [lia|].
    rewrite IH; [reflexivity| |exact Hin].
    apply StronglySorted_inv in Hs. apply Hs.
Qed.

Lemma insert_event_present s payload payload' (b : list optional_event) :
  StronglySorted Z.lt (map oe_seq b) ->
  In (mk_optional_event s (Some payload)) b ->
  insert_event s payload' b = b.
Proof.
  induction b as [|x rest IH]; intros Hs Hin; [destruct Hin|].
  cbn [map] in *. cbn [Consumer.insert_event].
  assert (Hseq : forall y : optional_event,
             In y rest -> oe_seq x < oe_seq y).
  { intros y Hy. apply (sorted_head_below _ _ _ Hs).
    apply in_map. exact Hy. }
  destruct (oe_seq x >=? s) eqn:E.
  - destruct (oe_seq x =? s) eqn:E'; cbn [negb].
    + apply Z.eqb_eq in E'.
      destruct Hin as [->|Hin]; [reflexivity|].
      apply Hseq in Hin. cbn in Hin. lia.
    + apply Z.geb_le in E. apply Z.eqb_neq in E'.
      destruct Hin as [->|Hin]; [cbn in E'; congruence|].
      apply Hseq in Hin. cbn in Hin. lia.
  - rewrite Z.geb_leb in E. apply Z.leb_gt in E.
    destruct Hin as [->|Hin]; [cbn in E; lia|].
    rewrite IH; [reflexivity| |exact Hin].
    apply StronglySorted_inv in Hs. apply Hs.
Qed.

Lemma insert_event_fills s payload (b : list optional_event) :
  StronglySorted Z.lt (map oe_seq b) ->
  In (mk_optional_event s None) b ->
  exists before after,
    b = before ++ mk_optional_event s None :: after
    /\ insert_event s payload b
       = before ++ mk_optional_event s (Some payload) :: after.
Proof.
  induction b as [|x rest IH]; intros Hs Hin; [destruct Hin|].
  cbn [map] in *. cbn [Consumer.insert_event].
  assert (Hseq : forall y : optional_event,
             In y rest -> oe_seq x < oe_seq y).
  { intros y Hy. apply (sorted_head_below _ _ _ Hs).
    apply in_map. exact Hy. }
  destruct (oe_seq x >=? s) eqn:E.
  - destruct (oe_seq x =? s) eqn:E'; cbn [negb].
    + apply Z.eqb_eq in E'.
      destruct Hin as [->|Hin].
      * exists [], rest. split; reflexivity.
      * apply Hseq in Hin. cbn in Hin. lia.
    + apply Z.geb_le in E. apply Z.eqb_neq in E'.
      destruct Hin as [->|Hin]; [cbn in E'; congruence|].
      apply Hseq in Hin. cbn in Hin. lia.
  - rewrite Z.geb_leb in E. apply Z.leb_gt in E.
    destruct Hin as [->|Hin]; [cbn in E; lia|].
    destruct IH as (before & after & Hb & Hi);
      [apply StronglySorted_inv in Hs; apply Hs|exact Hin|].
    exists (x :: before), after. rewrite Hi. split; [|reflexivity].
    rewrite Hb at 1. reflexivity.
Qed.

(** X18 (a failed retransmission of a buffered event).  When the buffer is
    in strictly increasing order and already holds a slot for a sequence
    number above [next_seq_], whether an event or a known loss, the message
    that the retransmission of that number failed changes nothing: the
    event that did arrive is not replaced by a loss. *)
Theorem retransmit_failed_keeps_buffered_slot (s : Z) (c : consumer) :
  StronglySorted Z.lt (map oe_seq (buf_ c)) ->
  next_seq_ c < s ->
  In s (map oe_seq (buf_ c)) ->
  handle_retransmit_failed s c = c.
Proof.
  intros Hs Hn Hin. unfold Consumer.handle_retransmit_failed.
  replace (next_seq_ c =? s) with false by (symmetry; apply Z.eqb_neq; lia).
  replace (s >? next_seq_ c) with true
    by (symmetry; rewrite Z.gtb_ltb; apply Z.ltb_lt; lia).
  rewrite (insert_nil_present s (buf_ c) Hs Hin).
  apply set_buf_same_consumer.
Qed.

(** X19 (a late event fills a known loss).  When the buffer is in strictly
    increasing order and holds, above [next_seq_], a slot without content
    (the retransmission of that event had failed), the event arriving after
    all takes that slot: its payload replaces the loss in place, every other
    slot stays, and nothing is delivered yet. *)
Theorem late_event_fills_lost_slot (s : Z) (payload : Payload)
        (c : consumer) :
  StronglySorted Z.lt (map oe_seq (buf_ c)) ->
  next_seq_ c < s ->
  In (mk_optional_event s None) (buf_ c) ->
  exists before after,
    buf_ c = before ++ mk_optional_event s None :: after
    /\ buf_ (handle_event s payload c)
       = before ++ mk_optional_event s (Some payload) :: after
    /\ next_seq_ (handle_event s payload c) = next_seq_ c
    /\ backend_ (handle_event s payload c) = backend_ c.
Proof.
  intros Hs Hn Hin.
  destruct (insert_event_fills s payload (buf_ c) Hs Hin)
    as (before & after & Hb & Hi).
  exists before, after. split; [exact Hb|].
  unfold Consumer.handle_event.
  replace (next_seq_ c =? s) with false by (symmetry; apply Z.eqb_neq; lia).
  replace (s >? next_seq_ c) with true
    by (symmetry; rewrite Z.gtb_ltb; apply Z.ltb_lt; lia).
  cbn zeta. destruct (s >? last_seq_ c); cbn; rewrite Hi; auto.
Qed.

(** X20 (the first payload wins).  When the buffer is in strictly increasing
    order and holds an event above [next_seq_], a second event with the same
    sequence number does not replace it, whatever its payload: the buffer,
    [next_seq_] and the calls on the backend stay as they are. *)
Theorem first_payload_wins (s : Z) (payload payload' : Payload)
        (c : consumer) :
  StronglySorted Z.lt (map oe_seq (buf_ c)) ->
  next_seq_ c < s ->
  In (mk_optional_event s (Some payload)) (buf_ c) ->
  buf_ (handle_event s payload' c) = buf_ c
  /\ next_seq_ (handle_event s payload' c) = next_seq_ c
  /\ backend_ (handle_event s payload' c) = backend_ c.
Proof.
  intros Hs Hn Hin.
  pose proof (insert_event_present s payload payload' (buf_ c) Hs Hin) as Hi.
  unfold Consumer.handle_event.
  replace (next_seq_ c =? s) with false by (symmetry; apply Z.eqb_neq; lia).
  replace (s >? next_seq_ c) with true
    by (symmetry; rewrite Z.gtb_ltb; apply Z.ltb_lt; lia).
  cbn zeta. destruct (s >? last_seq_ c); cbn; rewrite Hi; auto.
Qed.

(** *** Heartbeats *)

Lemma handle_heartbeat_cases (s : Z) (c : consumer) :
  0 <= last_seq_ c ->
  (handle_heartbeat s c = c
   /\ (last_seq_ c = 0 \/ s = 0 \/ u64 (s + 1) <= last_seq_ c))
  \/ (handle_heartbeat s c = set_last_seq (u64 (s + 1)) c
      /\ 0 < last_seq_ c < u64 (s + 1) /\ s <> 0).
Proof.
  intros Hl. unfold handle_heartbeat.
  destruct (last_seq_ c =? 0) eqn:E1; cbn [orb].
  - apply Z.eqb_eq in E1. left. auto.
  - apply Z.eqb_neq in E1.
    destruct (s =? 0) eqn:E2.
    + apply Z.eqb_eq in E2. left. auto.
    + apply Z.eqb_neq in E2.
      destruct (u64 (s + 1) >? last_seq_ c) eqn:E3;
        rewrite Z.gtb_ltb in E3.
      * apply Z.ltb_lt in E3. right. repeat split; auto; lia.
      * apply Z.ltb_ge in E3. left. auto.
Qed.

Lemma set_last_seq_twice a b (c : consumer) :
  set_last_seq a (set_last_seq b c) = set_last_seq a c.
Proof. reflexivity. Qed.

(** X21 (heartbeats in any order).  Two heartbeats leave the consumer in the
    same state in whichever order they arrive, and a heartbeat received
    twice counts once; [last_seq_] ends at the larger announcement, and
    before the handshake ([last_seq_ = 0]) heartbeats are ignored
    altogether. *)
Theorem heartbeats_commute (a b : Z) (c : consumer) :
  0 <= last_seq_ c ->
  handle_heartbeat a (handle_heartbeat b c)
  = handle_heartbeat b (handle_heartbeat a c)
  /\ handle_heartbeat a (handle_heartbeat a c) = handle_heartbeat a c
  /\ (last_seq_ c = 0 -> handle_heartbeat a c = c).
Proof.
  intros Hl.
  assert (Hset : forall v, last_seq_ (set_last_seq v c) = v)
    by reflexivity.
  pose proof (u64_range (a + 1)) as Ra.
  pose proof (u64_range (b + 1)) as Rb.
  split; [|split].
  - destruct (handle_heartbeat_cases a c Hl) as [(Ea & Ha)|(Ea & Ha & Ha')];
      destruct (handle_heartbeat_cases b c Hl) as [(Eb & Hb)|(Eb & Hb & Hb')];
      rewrite ?Ea, ?Eb, ?Ea.
    + reflexivity.
    + destruct (handle_heartbeat_cases a (set_last_seq (u64 (b + 1)) c))
        as [(E & _)|(_ & H & H')]; [rewrite Hset; lia|exact E|].
      rewrite Hset in H. lia.
    + destruct (handle_heartbeat_cases b (set_last_seq (u64 (a + 1)) c))
        as [(E & _)|(_ & H & H')]; [rewrite Hset; lia|symmetry; exact E|].
      rewrite Hset in H. lia.
    + destruct (handle_heartbeat_cases a (set_last_seq (u64 (b + 1)) c))
        as [(E1 & H1)|(E1 & H1 & _)]; [rewrite Hset; lia| |];
        destruct (handle_heartbeat_cases b (set_last_seq (u64 (a + 1)) c))
        as [(E2 & H2)|(E2 & H2 & _)];
        try (rewrite Hset; lia);
        rewrite E1, E2; rewrite ?Hset in *; rewrite ?set_last_seq_twice.
      * assert (u64 (a + 1) = u64 (b + 1)) as -> by lia. reflexivity.
      * reflexivity.
      * reflexivity.
      * lia.
  - destruct (handle_heartbeat_cases a c Hl) as [(Ea & Ha)|(Ea & Ha & Ha')];
      rewrite Ea; [exact Ea|].
    destruct (handle_heartbeat_cases a (set_last_seq (u64 (a + 1)) c))
      as [(E & _)|(_ & H & _)]; [rewrite Hset; lia|exact E|].
    rewrite Hset in H. lia.
  - intros H0. unfold handle_heartbeat. rewrite H0. reflexivity.
Qed.

End ConsumerMore.

(** * Properties of the status codes *)

Section StatusNames.

Import String.
Import Status.

Lemma convert_cases (str : String.string) (old : sc) :
  (exists c, In str names /\ c <> unlisted /\ to_string c = str
             /\ convert str old = (true, c))
  \/ (~ In str names /\ convert str old = (false, old)).
Proof.
  unfold convert, names.
  destruct (String.eqb str "unspecified"%string) eqn:E1;
    [apply String.eqb_eq in E1; subst; left; exists unspecified;
     cbn; intuition congruence|].
  destruct (String.eqb str "peer_added"%string) eqn:E2;
    [apply String.eqb_eq in E2; subst; left; exists peer_added;
     cbn; intuition congruence|].
  destruct (String.eqb str "peer_removed"%string) eqn:E3;
    [apply String.eqb_eq in E3; subst; left; exists peer_removed;
     cbn; intuition congruence|].
  destruct (String.eqb str "peer_lost"%string) eqn:E4;
    [apply String.eqb_eq in E4; subst; left; exists peer_lost;
     cbn; intuition congruence|].
  apply String.eqb_neq in E1, E2, E3, E4.
  right. split; [|reflexivity]. cbn. intuition congruence.
Qed.

(** X22 (names of status codes round-trip).  For each of the four status
    codes [to_string] lists, [convert] reads the name [to_string] gives
    back into that very code and reports success, whatever the reference
    held before. *)
Theorem convert_to_string_round_trip (code old : sc) :
  code <> unlisted ->
  convert (to_string code) old = (true, code).
Proof.
  intros H. destruct code; try reflexivity. congruence.
Qed.

(** X23 ([convert] accepts the four names only).  [convert] succeeds exactly
    on the four names; the code it then stores is one whose [to_string] is
    the string read, never a code without a name; and when it fails it
    leaves the reference as it was.  In particular it rejects the string
    [to_string] returns for an unlisted code. *)
Theorem convert_accepts_the_names_only (str : String.string) (old : sc) :
  (fst (convert str old) = true <-> In str names)
  /\ (fst (convert str old) = true ->
      to_string (snd (convert str old)) = str
      /\ snd (convert str old) <> unlisted)
  /\ (fst (convert str old) = false -> snd (convert str old) = old)
  /\ fst (convert (to_string unlisted) old) = false.
Proof.
  destruct (convert_cases str old)
    as [(c & Hin & Hc & Hs & ->)|(Hin & ->)]; cbn [fst snd].
  - split; [tauto|]. split; [auto|]. split; [discriminate|reflexivity].
  - split; [split; [discriminate|contradiction]|].
    split; [discriminate|]. split; reflexivity.
Qed.

End StatusNames.

(** * The further properties at concrete states *)

Section FurtherConcreteRuns.

Local Abbreviation accept := (fun _ : Consumer.consumer nat nat => @None nat).
Local Abbreviation refuse :=
  (fun _ : Consumer.consumer nat nat => Some 9%nat).
Local Abbreviation fresh_producer := (Producer.initial nat nat).
Local Abbreviation fresh_consumer := (Consumer.initial nat nat).

Ltac each_by_computation :=
  match goal with
  | |- Forall ?P ?l =>
    let l' := eval vm_compute in l in
    change (Forall P l');
    repeat (apply Forall_cons;
            [vm_compute; first [reflexivity | discriminate]|]);
    apply Forall_nil
  end.

Ltac ascending_by_computation :=
  match goal with
  | |- StronglySorted ?R ?l =>
    let l' := eval vm_compute in l in
    change (StronglySorted R l');
    repeat (first [ apply SSorted_nil | apply SSorted_cons
                  | apply Forall_nil | apply Forall_cons
                  | reflexivity ])
  end.

(** X2 at a second consumer joining a producer with one path. *)
Lemma add_registers_witness :
  let p := fst (Producer.add Nat.eq_dec 1%nat fresh_producer) in
  Producer.find_path Nat.eq_dec 7%nat p = None
  /\ snd (Producer.add Nat.eq_dec 7%nat p) = None
  /\ Producer.backend_ (fst (Producer.add Nat.eq_dec 7%nat p))
     = Producer.backend_ p
       ++ [Producer.send 7%nat
             (handshake (Producer.seq_ p) (Producer.heartbeat_interval_ p))].
Proof.
  cbn zeta.
  set (p := fst (Producer.add Nat.eq_dec 1%nat fresh_producer)).
  assert (H : Producer.find_path Nat.eq_dec 7%nat p = None) by reflexivity.
  destruct (add_registers nat nat Nat.eq_dec 7%nat p H)
    as (H1 & _ & _ & H4 & _).
  split; [exact H|]. split; [exact H1|exact H4].
Defined.

(** X3 at the first event of a producer with one path. *)
Lemma produce_then_find_witness :
  let p := fst (Producer.add Nat.eq_dec 1%nat fresh_producer) in
  (Producer.paths_ p <> []
   /\ 0 <= Producer.seq_ p < seq_max
   /\ Forall (fun e => ev_seq e <= Producer.seq_ p) (Producer.buf_ p))
  /\ Producer.find_event (Producer.seq_ p + 1) (Producer.produce 10%nat p)
     = Some (mk_event (Producer.seq_ p + 1) 10%nat).
Proof.
  cbn zeta.
  set (p := fst (Producer.add Nat.eq_dec 1%nat fresh_producer)).
  assert (H1 : Producer.paths_ p <> []) by (vm_compute; discriminate).
  assert (H2 : 0 <= Producer.seq_ p < seq_max)
    by (vm_compute; split; [discriminate|reflexivity]).
  assert (H3 : Forall (fun e : event nat => ev_seq e <= Producer.seq_ p)
                      (Producer.buf_ p)) by apply Forall_nil.
  split; [repeat split; solve [apply H1|apply H2|apply H3]|].
  exact (proj1 (proj2 (produce_then_find nat nat 10%nat p H1 H2 H3))).
Defined.

(** X5 at an ACK for 1 after the ACK for 2. *)
Lemma stale_ack_is_ignored_witness :
  let p := Producer.run Nat.eq_dec
             [Producer.op_add 1%nat; Producer.op_produce 10%nat;
              Producer.op_produce 20%nat; Producer.op_produce 30%nat;
              Producer.op_handle_ack 1%nat 2]
             fresh_producer in
  let x := Producer.mk_path 1%nat 0 2 Lamport.initial Lamport.initial in
  (Producer.find_path Nat.eq_dec 1%nat p = Some x
   /\ 1 <= Producer.acked x)
  /\ Producer.buf_ (Producer.handle_ack Nat.eq_dec 1%nat 1 p)
     = Producer.buf_ p.
Proof.
  cbn zeta.
  set (p := Producer.run Nat.eq_dec _ _).
  set (x := Producer.mk_path 1%nat 0 2 Lamport.initial Lamport.initial).
  assert (H1 : Producer.find_path Nat.eq_dec 1%nat p = Some x)
    by reflexivity.
  assert (H2 : 1 <= Producer.acked x) by (vm_compute; discriminate).
  split; [split; assumption|].
  exact (proj1 (stale_ack_is_ignored nat nat Nat.eq_dec 1%nat 1 p x H1 H2)).
Defined.

(** X6 at a NACK for 2, 3 and 7 when three events were produced. *)
Lemma nack_is_answered_in_order_witness :
  let p := Producer.run Nat.eq_dec
             [Producer.op_add 1%nat; Producer.op_produce 10%nat;
              Producer.op_produce 20%nat; Producer.op_produce 30%nat]
             fresh_producer in
  let x := Producer.mk_path 1%nat 0 0 Lamport.initial Lamport.initial in
  (Producer.find_path Nat.eq_dec 1%nat p = Some x
   /\ 0 < 2 <= seq_max
   /\ Forall (fun s => 2 <= s) [3; 7])
  /\ Producer.backend_ (Producer.handle_nack Nat.eq_dec 1%nat [2; 3; 7] p)
     = Producer.backend_ p
       ++ map (Producer.nack_reply 1%nat p) [2; 3; 7].
Proof.
  cbn zeta.
  set (p := Producer.run Nat.eq_dec _ _).
  set (x := Producer.mk_path 1%nat 0 0 Lamport.initial Lamport.initial).
  assert (H1 : Producer.find_path Nat.eq_dec 1%nat p = Some x)
    by reflexivity.
  assert (H2 : 0 < 2 <= seq_max)
    by (vm_compute; split; [reflexivity|discriminate]).
  assert (H3 : Forall (fun s => 2 <= s) [3; 7])
    by (repeat constructor; vm_compute; discriminate).
  split; [repeat split; solve [apply H1|apply H2|apply H3]|].
  exact (nack_is_answered_in_order nat nat Nat.eq_dec 1%nat 2 [3; 7] p x
                                   H1 H2 H3).
Defined.

(** X7 at a producer whose only consumer acknowledged the only event. *)
Lemma idle_producer_retains_nothing_witness :
  let ops := [Producer.op_add 1%nat; Producer.op_produce 10%nat;
              Producer.op_handle_ack 1%nat 1] in
  let p := Producer.run Nat.eq_dec ops fresh_producer in
  (Producer.well_formed p /\ Producer.idle p = true)
  /\ Producer.buf_ p = [].
Proof.
  cbn zeta.
  set (ops := [Producer.op_add 1%nat; Producer.op_produce 10%nat;
               Producer.op_handle_ack 1%nat 1]).
  assert (Hwf : Producer.well_formed
                  (Producer.run Nat.eq_dec ops fresh_producer)).
  { assert (H : Producer.run_in_range Nat.eq_dec ops fresh_producer = true)
      by reflexivity.
    exact (proj2 (proj2 (run_invariant nat nat Nat.eq_dec ops fresh_producer
                           H (initial_invariant nat nat)))). }
  assert (Hidle : Producer.idle (Producer.run Nat.eq_dec ops fresh_producer)
                  = true) by reflexivity.
  split; [split; assumption|].
  exact (idle_producer_retains_nothing
           nat nat (Producer.run Nat.eq_dec ops fresh_producer) Hwf Hidle).
Defined.

(** X8 at a producer with two paths and three buffered events. *)
Lemma acknowledged_producer_is_idle_witness :
  let ops := [Producer.op_add 1%nat; Producer.op_add 2%nat;
              Producer.op_produce 10%nat; Producer.op_produce 20%nat;
              Producer.op_produce 30%nat; Producer.op_handle_ack 1%nat 2] in
  let p := Producer.run Nat.eq_dec ops fresh_producer in
  (Producer.well_formed p
   /\ Forall (fun x => Producer.acked x <= Producer.seq_ p)
             (Producer.paths_ p))
  /\ Producer.idle
       (Producer.ack_all Nat.eq_dec (map Producer.hdl (Producer.paths_ p)) p)
     = true.
Proof.
  cbn zeta.
  set (ops := [Producer.op_add 1%nat; Producer.op_add 2%nat;
               Producer.op_produce 10%nat; Producer.op_produce 20%nat;
               Producer.op_produce 30%nat; Producer.op_handle_ack 1%nat 2]).
  assert (Hwf : Producer.well_formed
                  (Producer.run Nat.eq_dec ops fresh_producer)).
  { assert (H : Producer.run_in_range Nat.eq_dec ops fresh_producer = true)
      by reflexivity.
    exact (proj2 (proj2 (run_invariant nat nat Nat.eq_dec ops fresh_producer
                           H (initial_invariant nat nat)))). }
  assert (Hle : Forall (fun x => Producer.acked x
                                 <= Producer.seq_
                                      (Producer.run Nat.eq_dec ops
                                                    fresh_producer))
                       (Producer.paths_
                          (Producer.run Nat.eq_dec ops fresh_producer)))
    by each_by_computation.
  split; [split; assumption|].
  exact (proj1 (acknowledged_producer_is_idle
                  nat nat Nat.eq_dec
                  (Producer.run Nat.eq_dec ops fresh_producer) Hwf Hle)).
Defined.

(** X9 at a producer whose heartbeats were switched off. *)
Lemma no_heartbeat_without_interval_witness :
  let p := Producer.set_heartbeat_interval
             0 (fst (Producer.add Nat.eq_dec 1%nat fresh_producer)) in
  Producer.heartbeat_interval_ p = 0
  /\ Producer.backend_ (Producer.ticks 20 p) = Producer.backend_ p.
Proof.
  cbn zeta.
  set (p := Producer.set_heartbeat_interval _ _).
  assert (H : Producer.heartbeat_interval_ p = 0) by reflexivity.
  split; [exact H|].
  exact (proj1 (no_heartbeat_without_interval nat nat 20%nat p H)).
Defined.

(** X10 at the first event of a producer with the default interval of five
    ticks. *)
Lemma heartbeat_follows_produce_witness :
  let p := fst (Producer.add Nat.eq_dec 1%nat fresh_producer) in
  let p' := Producer.produce 10%nat p in
  (Producer.paths_ p <> []
   /\ 0 < Producer.heartbeat_interval_ p < 2 ^ 16)
  /\ Producer.backend_
       (Producer.ticks (Z.to_nat (Producer.heartbeat_interval_ p)) p')
     = Producer.backend_ p'
       ++ [Producer.broadcast (heartbeat (Producer.seq_ p'))].
Proof.
  cbn zeta.
  set (p := fst (Producer.add Nat.eq_dec 1%nat fresh_producer)).
  assert (H1 : Producer.paths_ p <> []) by (vm_compute; discriminate).
  assert (H2 : 0 < Producer.heartbeat_interval_ p < 2 ^ 16)
    by (vm_compute; split; reflexivity).
  split; [split; assumption|].
  exact (proj2 (heartbeat_follows_produce nat nat 10%nat p H1 H2)).
Defined.

(** X25 at a producer that knows consumer 1 and hears from consumer 9. *)
Lemma unknown_consumer_is_not_served_witness :
  let p := Producer.run Nat.eq_dec
             [Producer.op_add 1%nat; Producer.op_produce 10%nat]
             fresh_producer in
  Producer.find_path Nat.eq_dec 9%nat p = None
  /\ Producer.handle_nack Nat.eq_dec 9%nat [0; 1] p = p.
Proof.
  cbn zeta.
  set (p := Producer.run Nat.eq_dec _ _).
  assert (H : Producer.find_path Nat.eq_dec 9%nat p = None) by reflexivity.
  split; [exact H|].
  exact (proj1 (unknown_consumer_is_not_served
                  nat nat Nat.eq_dec 9%nat 1 [0; 1] p H)).
Defined.

(** X11 at the event a consumer waits for. *)
Lemma next_seq_never_rewinds_witness :
  let c := Consumer.run accept
             [Consumer.op_handle_handshake 0 5;
              Consumer.op_handle_event 2 20%nat]
             fresh_consumer in
  let o := Consumer.op_handle_event 1 10%nat in
  (0 <= Consumer.next_seq_ c < seq_max
   /\ Forall (fun x => Consumer.oe_seq x < seq_max) (Consumer.buf_ c)
   /\ Consumer.below_maximum o)
  /\ Consumer.next_seq_ c <= Consumer.next_seq_ (Consumer.step accept c o).
Proof.
  cbn zeta.
  set (c := Consumer.run accept _ _).
  set (o := Consumer.op_handle_event 1 10%nat).
  assert (H1 : 0 <= Consumer.next_seq_ c < seq_max)
    by (vm_compute; split; [discriminate|reflexivity]).
  assert (H2 : Forall (fun x => Consumer.oe_seq x < seq_max)
                      (Consumer.buf_ c)) by each_by_computation.
  assert (H3 : Consumer.below_maximum o) by exact I.
  split; [repeat split; solve [apply H1|apply H2|apply H3]|].
  exact (next_seq_never_rewinds nat nat accept c o H1 H2 H3).
Defined.

(** X12 at the first handshake of a consumer, sent twice. *)
Lemma repeated_handshake_is_ignored_witness :
  (0 <= Consumer.next_seq_ fresh_consumer <= 0
   /\ 0 < seq_max
   /\ Forall (fun x => Consumer.oe_seq x < seq_max)
             (Consumer.buf_ fresh_consumer))
  /\ Consumer.handle_handshake accept 0 9
       (Consumer.handle_handshake accept 0 5 fresh_consumer)
     = Consumer.handle_handshake accept 0 5 fresh_consumer.
Proof.
  assert (H1 : 0 <= Consumer.next_seq_ fresh_consumer <= 0)
    by (vm_compute; split; discriminate).
  assert (H2 : 0 < seq_max) by reflexivity.
  assert (H3 : Forall (fun x : Consumer.optional_event nat =>
                         Consumer.oe_seq x < seq_max)
                      (Consumer.buf_ fresh_consumer)) by apply Forall_nil.
  split; [repeat split; solve [apply H1|apply H2|apply H3]|].
  exact (repeated_handshake_is_ignored nat nat accept fresh_consumer 0 5 9
                                       H1 H2 H3).
Defined.

(** X13 at a backend that refuses the loss of event 1. *)
Lemma close_follows_refused_gap_witness :
  let c := Consumer.handle_handshake refuse 0 5 fresh_consumer in
  let o := Consumer.op_handle_retransmit_failed (Payload := nat) 1 in
  (Consumer.closed c = false
   /\ Consumer.closed (Consumer.step refuse c o) = true)
  /\ exists pre err,
       Consumer.backend_ (Consumer.step refuse c o)
       = pre ++ [Consumer.consume_nil
                   (Consumer.next_seq_ (Consumer.step refuse c o))
                   (Some err);
                 Consumer.close err].
Proof.
  cbn zeta.
  set (c := Consumer.handle_handshake refuse 0 5 fresh_consumer).
  set (o := Consumer.op_handle_retransmit_failed 1).
  assert (H1 : Consumer.closed c = false) by reflexivity.
  assert (H2 : Consumer.closed (Consumer.step refuse c o) = true)
    by reflexivity.
  split; [split; assumption|].
  exact (close_follows_refused_gap nat nat refuse c o H1 H2).
Defined.

(** X14 at a run with reordered events and a lost one. *)
Lemma no_deliverable_slot_waits_witness :
  let ops := [Consumer.op_handle_event 3 30%nat;
              Consumer.op_handle_handshake 0 5;
              Consumer.op_handle_retransmit_failed 5;
              Consumer.op_handle_event 1 10%nat;
              Consumer.op_tick] in
  let c := Consumer.run accept ops fresh_consumer in
  (Consumer.run_allowed accept ops fresh_consumer = true
   /\ Consumer.closed c = false)
  /\ Forall (fun x => Consumer.next_seq_ c < Consumer.oe_seq x)
            (Consumer.buf_ c).
Proof.
  cbn zeta.
  set (ops := [Consumer.op_handle_event 3 30%nat;
               Consumer.op_handle_handshake 0 5;
               Consumer.op_handle_retransmit_failed 5;
               Consumer.op_handle_event 1 10%nat;
               Consumer.op_tick]).
  assert (H1 : Consumer.run_allowed accept ops fresh_consumer = true)
    by reflexivity.
  assert (H2 : Consumer.closed (Consumer.run accept ops fresh_consumer)
               = false) by reflexivity.
  split; [split; assumption|].
  exact (no_deliverable_slot_waits nat nat accept ops H1 H2).
Defined.

(** X16 at a consumer that has not seen a handshake. *)
Lemma silent_without_interval_witness :
  (Consumer.heartbeat_interval_ fresh_consumer = 0
   /\ Consumer.last_seq_ fresh_consumer
      <= Consumer.next_seq_ fresh_consumer)
  /\ Consumer.backend_ (Consumer.ticks 12 fresh_consumer)
     = Consumer.backend_ fresh_consumer.
Proof.
  assert (H1 : Consumer.heartbeat_interval_ fresh_consumer = 0)
    by reflexivity.
  assert (H2 : Consumer.last_seq_ fresh_consumer
               <= Consumer.next_seq_ fresh_consumer)
    by (vm_compute; discriminate).
  split; [split; assumption|].
  exact (silent_without_interval nat nat 12%nat fresh_consumer H1 H2).
Defined.


(** X18 at the failed retransmission of event 3, which is buffered. *)
Lemma retransmit_failed_keeps_buffered_slot_witness :
  let c := Consumer.run accept
             [Consumer.op_handle_handshake 0 5;
              Consumer.op_handle_event 3 30%nat]
             fresh_consumer in
  (StronglySorted Z.lt (map Consumer.oe_seq (Consumer.buf_ c))
   /\ Consumer.next_seq_ c < 3
   /\ In 3 (map Consumer.oe_seq (Consumer.buf_ c)))
  /\ Consumer.handle_retransmit_failed accept 3 c = c.
Proof.
  cbn zeta.
  set (c := Consumer.run accept _ _).
  assert (H1 : StronglySorted Z.lt (map Consumer.oe_seq (Consumer.buf_ c)))
    by ascending_by_computation.
  assert (H2 : Consumer.next_seq_ c < 3) by reflexivity.
  assert (H3 : In 3 (map Consumer.oe_seq (Consumer.buf_ c)))
    by (left; reflexivity).
  split; [repeat split; solve [apply H1|apply H2|apply H3]|].
  exact (retransmit_failed_keeps_buffered_slot nat nat accept 3 c H1 H2 H3).
Defined.

(** X19 at event 3 arriving after its retransmission had failed. *)
Lemma late_event_fills_lost_slot_witness :
  let c := Consumer.run accept
             [Consumer.op_handle_handshake 0 5;
              Consumer.op_handle_event 4 40%nat;
              Consumer.op_handle_retransmit_failed 3]
             fresh_consumer in
  (StronglySorted Z.lt (map Consumer.oe_seq (Consumer.buf_ c))
   /\ Consumer.next_seq_ c < 3
   /\ In (Consumer.mk_optional_event 3 None) (Consumer.buf_ c))
  /\ exists before after,
       Consumer.buf_ c
       = before ++ Consumer.mk_optional_event 3 None :: after
       /\ Consumer.buf_ (Consumer.handle_event accept 3 30%nat c)
          = before ++ Consumer.mk_optional_event 3 (Some 30%nat) :: after
       /\ Consumer.next_seq_ (Consumer.handle_event accept 3 30%nat c)
          = Consumer.next_seq_ c
       /\ Consumer.backend_ (Consumer.handle_event accept 3 30%nat c)
          = Consumer.backend_ c.
Proof.
  cbn zeta.
  set (c := Consumer.run accept _ _).
  assert (H1 : StronglySorted Z.lt (map Consumer.oe_seq (Consumer.buf_ c)))
    by ascending_by_computation.
  assert (H2 : Consumer.next_seq_ c < 3) by reflexivity.
  assert (H3 : In (Consumer.mk_optional_event 3 None) (Consumer.buf_ c))
    by (left; reflexivity).
  split; [repeat split; solve [apply H1|apply H2|apply H3]|].
  exact (late_event_fills_lost_slot nat nat accept 3 30%nat c H1 H2 H3).
Defined.

(** X20 at a second event 3 with another payload. *)
Lemma first_payload_wins_witness :
  let c := Consumer.run accept
             [Consumer.op_handle_handshake 0 5;
              Consumer.op_handle_event 3 30%nat]
             fresh_consumer in
  (StronglySorted Z.lt (map Consumer.oe_seq (Consumer.buf_ c))
   /\ Consumer.next_seq_ c < 3
   /\ In (Consumer.mk_optional_event 3 (Some 30%nat)) (Consumer.buf_ c))
  /\ Consumer.buf_ (Consumer.handle_event accept 3 31%nat c)
     = Consumer.buf_ c.
Proof.
  cbn zeta.
  set (c := Consumer.run accept _ _).
  assert (H1 : StronglySorted Z.lt (map Consumer.oe_seq (Consumer.buf_ c)))
    by ascending_by_computation.
  assert (H2 : Consumer.next_seq_ c < 3) by reflexivity.
  assert (H3 : In (Consumer.mk_optional_event 3 (Some 30%nat))
                  (Consumer.buf_ c)) by (left; reflexivity).
  split; [repeat split; solve [apply H1|apply H2|apply H3]|].
  exact (proj1 (first_payload_wins nat nat accept 3 30%nat 31%nat c
                                   H1 H2 H3)).
Defined.

(** X21 at the heartbeats for 4 and 9 after the handshake. *)
Lemma heartbeats_commute_witness :
  let c := Consumer.handle_handshake accept 0 5 fresh_consumer in
  0 <= Consumer.last_seq_ c
  /\ Consumer.handle_heartbeat 4 (Consumer.handle_heartbeat 9 c)
     = Consumer.handle_heartbeat 9 (Consumer.handle_heartbeat 4 c).
Proof.
  cbn zeta.
  set (c := Consumer.handle_handshake accept 0 5 fresh_consumer).
  assert (H : 0 <= Consumer.last_seq_ c) by (vm_compute; discriminate).
  split; [exact H|].
  exact (proj1 (heartbeats_commute nat nat 4 9 c H)).
Defined.

(** X22 at [peer_lost]. *)
Lemma convert_to_string_round_trip_witness :
  Status.peer_lost <> Status.unlisted
  /\ Status.convert (Status.to_string Status.peer_lost) Status.unspecified
     = (true, Status.peer_lost).
Proof.
  assert (H : Status.peer_lost <> Status.unlisted) by discriminate.
  split; [exact H|].
  exact (convert_to_string_round_trip Status.peer_lost Status.unspecified H).
Defined.

End FurtherConcreteRuns.
